(** * GPU hash join: the device kernels of [opencl_hashjoin.h]

    A shallow embedding of the hash-table addressing helpers, the
    execution kernel [kern_gpuhashjoin_main], the two projection kernels
    and [pg_varlena_hashref], followed by the properties their design
    document states about them.

    Conventions.
    - A [cl_uint] is a [Z] in [0, 2^32); every operation of the source
      that can wrap is written with its reduction ([cl_uint]).
      [size_t] is 64 bits wide, [cl_int] is a signed 32-bit value.
    - A [__global] pointer is a byte address ([Z]); [NULL] is [None]
      wherever the source tests a pointer against it.
    - Flexible arrays that the kernels only index ([rindex], [results],
      [htable_offset]) are functions from the index to the element.
    - Code that is generated per query, or declared in another header,
      is a [Variable] of the section that uses it.
    - A work-group is the list of the global ids of its work-items,
      the leader ([get_local_id(0) == 0]) first; a kernel launch is the
      list of its work-groups in the order the device retires them. *)

From stdpp Require Import base list list_numbers functions.
From Stdlib Require Import ZArith Lia.

Local Open Scope Z_scope.

(** ** Machine integers *)

Module Machine.

(** Conversion to [cl_uint]: reduction modulo 2^32. *)
Definition cl_uint (z : Z) : Z := z mod 2 ^ 32.

(** Conversion to [size_t] (64 bits): a negative [cl_int] becomes a huge
    unsigned value. *)
Definition size_t (z : Z) : Z := z mod 2 ^ 64.

(** Conversion of a [cl_uint] to [cl_int] (two's complement). *)
Definition cl_int (z : Z) : Z :=
  let u := z mod 2 ^ 32 in
  if u <? 2 ^ 31 then u else u - 2 ^ 32.

(** Modelled from the spec: [TYPEALIGN] is declared in another header.
    "every offset embedded in the layout is computed with this alignment
    applied": [len] rounded up to the next multiple of the power of two
    [a]. *)
Definition TYPEALIGN (a len : Z) : Z :=
  Z.land (len + (a - 1)) (Z.lnot (a - 1)).

(** Modelled from the spec: [LONGALIGN] is declared in another header;
    the alignment quantum of the layout is 8 bytes ("for 64bit
    alignment" in [kern_hashtable]). *)
Definition LONGALIGN (len : Z) : Z := TYPEALIGN 8 len.

(** The outcome of an integer operation that C leaves undefined for some
    operands. *)
Inductive arith (A : Type) : Type :=
| Defined_ (a : A)
| DivideByZero.

Arguments Defined_ {A} a.
Arguments DivideByZero {A}.

(** [a % b] on unsigned operands. *)
Definition umod (a b : Z) : arith Z :=
  if b =? 0 then DivideByZero else Defined_ (a mod b).

Definition arith_bind {A B} (x : arith A) (k : A -> arith B) : arith B :=
  match x with
  | Defined_ a => k a
  | DivideByZero => DivideByZero
  end.

End Machine.

Import Machine.

(** ** Error codes *)

(** The codes this file uses; their numeric values are declared in
    another header and the kernels only compare and assign them. *)
Inductive StromError : Type :=
| StromError_Success
| StromError_CpuReCheck
| StromError_DataStoreCorruption
| StromError_DataStoreNoSpace.

#[global] Instance StromError_eq_dec : EqDecision StromError.
Proof. solve_decision. Defined.

(** Modelled from the spec: [STROM_SET_ERROR] is declared in another
    header.  "a monotonic do-not-downgrade update (first non-success
    recorded wins)": the code is stored unless an error is already
    recorded. *)
Definition STROM_SET_ERROR (p_error errcode : StromError) : StromError :=
  match p_error with
  | StromError_Success => errcode
  | _ => p_error
  end.

(** ** Hash table addressing *)

Module HashTable.

(** Device global memory, read one 32-bit word at a time: the value
    stored at a byte address. *)
Definition gmem : Type := Z -> Z.

Definition load_cl_uint (m : gmem) (p : Z) : Z := cl_uint (m p).

(** [offsetof] in [kern_hashentry]: four [cl_uint] fields, then the
    tuple. *)
Definition kern_hashentry_next : Z := 0.
Definition kern_hashentry_hash : Z := 4.
Definition kern_hashentry_rowid : Z := 8.
Definition kern_hashentry_t_len : Z := 12.
Definition kern_hashentry_htup : Z := 16.

(** [offsetof] in [kern_hashtable]: two [cl_uint], one [cl_char], seven
    bytes of padding, then the column metadata. *)
Definition kern_hashtable_ncols : Z := 0.
Definition kern_hashtable_nslots : Z := 4.
Definition kern_hashtable_is_outer : Z := 8.
Definition kern_hashtable_colmeta : Z := 16.

(** [kern_multihash], with the device address the kernels receive it
    at ([kmhash_addr]); [hostptr_t] is declared in another header, so the
    structure is kept as a record rather than laid out in [gmem]. *)
Record kern_multihash : Type := {
  kmhash_addr : Z;
  hostptr : Z;
  pg_crc32_table : Z -> Z;
  ntables : Z;
  htable_offset : Z -> Z
}.

Definition KERN_HASHTABLE (kmhash : kern_multihash) (depth : Z) : Z :=
  kmhash_addr kmhash + htable_offset kmhash depth.

Section Addressing.

(** [sizeof(kern_colmeta)]; the type is declared in another header. *)
Variable sizeof_kern_colmeta : Z.

Definition KERN_HASHTABLE_SLOT (m : gmem) (khtable : Z) : Z :=
  khtable +
  LONGALIGN (kern_hashtable_colmeta +
             sizeof_kern_colmeta *
             load_cl_uint m (khtable + kern_hashtable_ncols)).

Definition KERN_HASHENTRY_SIZE (m : gmem) (khentry : Z) : Z :=
  LONGALIGN (kern_hashentry_htup +
             load_cl_uint m (khentry + kern_hashentry_t_len)).

(** [slot[index]] for the slot array of [khtable]. *)
Definition hash_slot (m : gmem) (khtable index : Z) : Z :=
  load_cl_uint m (KERN_HASHTABLE_SLOT m khtable + 4 * index).

Definition KERN_HASH_FIRST_ENTRY (m : gmem) (khtable hash : Z)
  : arith (option Z) :=
  arith_bind
    (umod hash (load_cl_uint m (khtable + kern_hashtable_nslots)))
    (fun index =>
       if hash_slot m khtable index =? 0
       then Defined_ None
       else Defined_ (Some (khtable + hash_slot m khtable index))).

Definition KERN_HASH_NEXT_ENTRY (m : gmem) (khtable khentry : Z)
  : option Z :=
  if load_cl_uint m (khentry + kern_hashentry_next) =? 0
  then None
  else Some (khtable + load_cl_uint m (khentry + kern_hashentry_next)).

End Addressing.

End HashTable.

Import HashTable.

(** ** Variable-length references into a hash entry *)

Module HashRef.

(** [pg_varlena_t]: [value] is [None] where the source leaves the field
    unassigned. *)
Record pg_varlena_t : Type := {
  value : option Z;
  isnull : bool
}.

Section Hashref.

(** Declared in another header: the address of column [colidx] of the
    tuple at [htup], or [NULL]; the arguments are the memory, the column
    metadata array, the tuple and the column index. *)
Variable kern_get_datum_tuple : gmem -> Z -> Z -> Z -> option Z.

(** Declared in another header: the tests on a varlena header. *)
Variable VARATT_IS_4B_U : gmem -> Z -> bool.
Variable VARATT_IS_1B : gmem -> Z -> bool.

(** The result and the value of [*p_errcode] on return. *)
Definition pg_varlena_hashref (m : gmem) (khtable kentry : Z)
           (p_errcode : StromError) (colidx : Z)
  : pg_varlena_t * StromError :=
  match kern_get_datum_tuple m (khtable + kern_hashtable_colmeta)
                             (kentry + kern_hashentry_htup) colidx with
  | None => ({| value := None; isnull := true |}, p_errcode)
  | Some vl_ptr =>
      if VARATT_IS_4B_U m vl_ptr || VARATT_IS_1B m vl_ptr
      then ({| value := Some vl_ptr; isnull := false |}, p_errcode)
      else ({| value := None; isnull := true |},
            STROM_SET_ERROR p_errcode StromError_CpuReCheck)
  end.

End Hashref.

End HashRef.

(** ** Stores shared by the kernels *)

(** The layout tag of a [kern_data_store].  The tags are declared in
    another header and the kernels only compare them; [KDS_FORMAT_OTHER]
    stands for any tag this file does not name. *)
Inductive kds_format : Type :=
| KDS_FORMAT_ROW
| KDS_FORMAT_ROW_FLAT
| KDS_FORMAT_TUPSLOT
| KDS_FORMAT_OTHER (tag : Z).

#[global] Instance kds_format_eq_dec : EqDecision kds_format.
Proof. solve_decision. Defined.

(** The fields of [kern_data_store] that this file reads or writes (the
    structure is declared in another header), and the three regions a
    projection fills: the row-item table ([htup_offset] of row [i]), the
    byte arena the tuples are built in, and the value/null-flag slots of
    row [i], column [j]. *)
Record kern_data_store : Type := {
  kds_format_ : kds_format;
  kds_length : Z;
  kds_usage : Z;
  kds_ncols : Z;
  kds_nitems : Z;
  kds_nrooms : Z;
  kds_rowitem : Z -> Z;
  kds_arena : Z -> Z;
  kds_values : Z -> Z -> Z;
  kds_isnull : Z -> Z -> bool
}.

Definition kds_set_nitems (n : Z) (kds : kern_data_store) : kern_data_store :=
  {| kds_format_ := kds_format_ kds;
     kds_length := kds_length kds;
     kds_usage := kds_usage kds;
     kds_ncols := kds_ncols kds;
     kds_nitems := n;
     kds_nrooms := kds_nrooms kds;
     kds_rowitem := kds_rowitem kds;
     kds_arena := kds_arena kds;
     kds_values := kds_values kds;
     kds_isnull := kds_isnull kds |}.

Definition kds_set_slot (row col v : Z) (null : bool) (kds : kern_data_store)
  : kern_data_store :=
  {| kds_format_ := kds_format_ kds;
     kds_length := kds_length kds;
     kds_usage := kds_usage kds;
     kds_ncols := kds_ncols kds;
     kds_nitems := kds_nitems kds;
     kds_nrooms := kds_nrooms kds;
     kds_rowitem := kds_rowitem kds;
     kds_arena := kds_arena kds;
     kds_values := fun i j =>
       if decide (i = row /\ j = col) then v else kds_values kds i j;
     kds_isnull := fun i j =>
       if decide (i = row /\ j = col) then null else kds_isnull kds i j |}.

(** [kern_resultbuf] (declared in another header): [results] holds
    [nrooms * nrels] values of type [cl_int]. *)
Record kern_resultbuf : Type := {
  kr_nrels : Z;
  kr_nrooms : Z;
  kr_nitems : Z;
  kr_errcode : StromError;
  kr_results : Z -> Z
}.

Definition kr_set_nitems (n : Z) (kr : kern_resultbuf) : kern_resultbuf :=
  {| kr_nrels := kr_nrels kr; kr_nrooms := kr_nrooms kr; kr_nitems := n;
     kr_errcode := kr_errcode kr; kr_results := kr_results kr |}.

Definition kr_set_errcode (e : StromError) (kr : kern_resultbuf)
  : kern_resultbuf :=
  {| kr_nrels := kr_nrels kr; kr_nrooms := kr_nrooms kr;
     kr_nitems := kr_nitems kr;
     kr_errcode := e; kr_results := kr_results kr |}.

Definition kr_set_results (r : Z -> Z) (kr : kern_resultbuf)
  : kern_resultbuf :=
  {| kr_nrels := kr_nrels kr; kr_nrooms := kr_nrooms kr;
     kr_nitems := kr_nitems kr;
     kr_errcode := kr_errcode kr; kr_results := r |}.

(** The fields are [cl_uint]. *)
Definition kr_wf (kr : kern_resultbuf) : Prop :=
  0 <= kr_nrels kr < 2 ^ 32 /\
  0 <= kr_nrooms kr < 2 ^ 32 /\
  0 <= kr_nitems kr < 2 ^ 32.

(** [kern_row_map] (declared in another header): [nvalids] and the
    elements of [rindex] are [cl_int]. *)
Record kern_row_map : Type := {
  nvalids : Z;
  rindex : Z -> Z
}.

(** Modelled from the spec: the reduction inside
    [kern_writeback_error_status], which is declared in another header.
    "the first non-success code observed wins": the code a work-group
    reports is the first one of its work-items that is not a success. *)
Definition group_errcode (errcodes : list StromError) : StromError :=
  foldl STROM_SET_ERROR StromError_Success errcodes.

(** Modelled from the spec: [kern_writeback_error_status] is declared in
    another header.  "The invocation's error code is merged into the
    buffer's shared errcode using an update rule where the first
    non-success code observed wins (subsequent workers must not
    overwrite an already-recorded error)".  [errcodes] are the codes of
    the work-items of one work-group, which reach the call together. *)
Definition kern_writeback_error_status (kresults : kern_resultbuf)
           (errcodes : list StromError) : kern_resultbuf :=
  kr_set_errcode
    (STROM_SET_ERROR (kr_errcode kresults) (group_errcode errcodes))
    kresults.

(** Modelled from the spec: the offsets [arithmetic_stairlike_add]
    returns, one per work-item; the function is declared in another
    header.  "an exclusive prefix sum of per-worker match counts (a
    stair-like scan) yielding each worker's local write offset".  The
    sums are [cl_uint]. *)
Fixpoint stairlike_offsets (acc : Z) (counts : list Z) : list Z :=
  match counts with
  | [] => []
  | n :: counts' => acc :: stairlike_offsets (cl_uint (acc + n)) counts'
  end.

(** Modelled from the spec: the total [arithmetic_stairlike_add] stores
    through its last argument, "the group's total count". *)
Definition stairlike_total (counts : list Z) : Z :=
  foldl (fun acc n => cl_uint (acc + n)) 0 counts.

(** Modelled from the spec: [arithmetic_stairlike_add] is declared in
    another header; on the counts of a work-group, in the order of the
    local ids, it yields every work-item's offset and the total. *)
Definition arithmetic_stairlike_add (counts : list Z) : list Z * Z :=
  (stairlike_offsets 0 counts, stairlike_total counts).

(** ** The execution kernel *)

Module Exec.

(** What one call of the generated [gpuhashjoin_execute] does: the value
    it leaves in [*errcode], the number of matches it returns, and the
    values it stores through [rbuffer], each with its index relative to
    [rbuffer]. *)
Record exec_result : Type := {
  x_errcode : StromError;
  x_n_matches : Z;
  x_stores : list (Z * Z)
}.

(** What a work-group does to the shared memory, in order. *)
Inductive event : Type :=
| EvExecute (gid kds_index : Z) (rbuffer : option Z)
| EvAtomicAdd (delta : Z)
| EvStore (index val : Z).

(** The private variables of a work-item that outlive the first stage. *)
Record worker : Type := {
  w_gid : Z;
  w_errcode : StromError;
  w_kds_index : Z;
  w_n_matches : Z
}.

Record group_outcome : Type := {
  g_kresults : kern_resultbuf;
  g_errcodes : list StromError;
  g_trace : list event
}.

Definition is_store (ev : event) : bool :=
  match ev with EvStore _ _ => true | _ => false end.

Definition is_execute (ev : event) : bool :=
  match ev with EvExecute _ _ _ => true | _ => false end.

Definition is_atomic_add (ev : event) : bool :=
  match ev with EvAtomicAdd _ => true | _ => false end.

Definition executes_for (gid : Z) (ev : event) : bool :=
  match ev with EvExecute g _ _ => bool_decide (g = gid) | _ => false end.

(** An event stays inside the reservation of [count] combinations of
    [nrels] slots each that starts at combination [first], and is made
    by work-item [gid]. *)
Definition in_reservation (nrels first count gid : Z) (ev : event) : Prop :=
  match ev with
  | EvStore idx _ => nrels * first <= idx < nrels * (first + count)
  | EvExecute g _ rbuffer => g = gid /\ rbuffer = Some (nrels * first)
  | EvAtomicAdd _ => False
  end.

(** A store of an event lands inside the [count] combinations of
    [nrels] slots each that start at combination [first]. *)
Definition store_in_window (nrels first count : Z) (ev : event) : Prop :=
  match ev with
  | EvStore idx _ => nrels * first <= idx < nrels * (first + count)
  | _ => True
  end.

Section Kernel.

(** [kern_parambuf] is declared in another header and only handed on. *)
Variable kern_parambuf : Type.

(** The generated probe: [rbuffer] is [None] for [NULL] (counting) and
    [Some i] for [&results[i]] (emitting). *)
Variable gpuhashjoin_execute :
  StromError -> kern_parambuf -> kern_multihash ->
  kern_data_store -> kern_data_store -> Z -> option Z -> exec_result.

(** The arguments of the kernel that it only reads. *)
Variable kparams : kern_parambuf.
Variable kmhash : kern_multihash.
Variable kds : kern_data_store.
Variable ktoast : kern_data_store.
Variable krowmap : option kern_row_map.

(** [kresults->nrels != kmhash->ntables + 1] *)
Definition nrels_mismatch (kresults : kern_resultbuf) : bool :=
  negb (kr_nrels kresults =? cl_uint (ntables kmhash + 1)).

(** The row a work-item is mapped to. *)
Definition select_kds_index (gid : Z) : Z :=
  match krowmap with
  | None => gid
  | Some rm =>
      if gid <? size_t (nvalids rm)
      then size_t (rindex rm gid)
      else kds_nitems kds
  end.

(** An event of the first stage is a counting call for a row in range. *)
Definition counting_call (ev : event) : Prop :=
  match ev with
  | EvExecute g idx None => idx = select_kds_index g /\ idx < kds_nitems kds
  | _ => False
  end.

(** A call of the probe is made for the row of its work-item, which is
    in range. *)
Definition call_in_range (ev : event) : Prop :=
  match ev with
  | EvExecute g idx _ => idx = select_kds_index g /\ idx < kds_nitems kds
  | _ => True
  end.

(** 1st stage of one work-item. *)
Definition count_stage (gid : Z) : worker * list event :=
  let kds_index := select_kds_index gid in
  if kds_index <? kds_nitems kds
  then
    let r := gpuhashjoin_execute StromError_Success kparams kmhash
                                 kds ktoast kds_index None in
    ({| w_gid := gid; w_errcode := x_errcode r;
        w_kds_index := kds_index;
        w_n_matches := cl_uint (x_n_matches r) |},
     [EvExecute gid kds_index None])
  else
    ({| w_gid := gid; w_errcode := StromError_Success;
        w_kds_index := kds_index; w_n_matches := 0 |}, []).

(** The leader's reservation: [base], the buffer and what was done. *)
Definition reserve (kresults : kern_resultbuf) (nitems : Z)
  : Z * kern_resultbuf * list event :=
  if 0 <? nitems
  then (kr_nitems kresults,
        kr_set_nitems (cl_uint (kr_nitems kresults + nitems)) kresults,
        [EvAtomicAdd nitems])
  else (0, kresults, []).

(** 2nd stage of one work-item. *)
Definition emit_stage (kresults : kern_resultbuf) (base offset : Z)
           (w : worker) : StromError * list event :=
  if (0 <? w_n_matches w) && (w_kds_index w <? kds_nitems kds)
  then
    let rbuffer := cl_uint (kr_nrels kresults * cl_uint (base + offset)) in
    let r := gpuhashjoin_execute (w_errcode w) kparams kmhash
                                 kds ktoast (w_kds_index w) (Some rbuffer) in
    (x_errcode r,
     EvExecute (w_gid w) (w_kds_index w) (Some rbuffer)
       :: ((fun s => EvStore (rbuffer + s.1) s.2) <$> x_stores r))
  else (w_errcode w, []).

Definition apply_event (results : Z -> Z) (ev : event) : Z -> Z :=
  match ev with
  | EvStore i v => <[i := v]> results
  | _ => results
  end.

Definition apply_trace (trace : list event) (kresults : kern_resultbuf)
  : kern_resultbuf :=
  kr_set_results (foldl apply_event (kr_results kresults) trace) kresults.

(** The match counts of the work-items of a group after the 1st stage,
    and their sum. *)
Definition group_counts (wg : list Z) : list Z :=
  (fun gid => w_n_matches (count_stage gid).1) <$> wg.

Definition group_total (wg : list Z) : Z :=
  (arithmetic_stairlike_add (group_counts wg)).2.

(** The probe, when emitting for a row, stores inside the [nrels]-wide
    slots of the matches it counted for that row. *)
Definition probe_stores_counted (nrels : Z) : Prop :=
  forall e idx rbuffer,
    idx < kds_nitems kds ->
    Forall (fun s : Z * Z =>
              0 <= s.1 <
              nrels * cl_uint (x_n_matches
                                 (gpuhashjoin_execute StromError_Success
                                    kparams kmhash kds ktoast idx None)))
           (x_stores (gpuhashjoin_execute e kparams kmhash kds ktoast idx
                                          (Some rbuffer))).

(** A store lands inside [results], which has [nrooms * nrels]
    entries. *)
Definition store_in_bounds (kresults : kern_resultbuf) (ev : event) : Prop :=
  match ev with
  | EvStore i _ => 0 <= i < kr_nrels kresults * kr_nrooms kresults
  | _ => True
  end.

(** One work-group, from entry to the status write-back.  The sanity
    check and the capacity check test values that are the same for every
    work-item of the group, so the group takes each [goto out] as one. *)
Definition kern_gpuhashjoin_main_group (wg : list Z)
           (kresults : kern_resultbuf) : group_outcome :=
  if nrels_mismatch kresults
  then
    let errcodes := (fun _ => StromError_DataStoreCorruption) <$> wg in
    {| g_kresults := kern_writeback_error_status kresults errcodes;
       g_errcodes := errcodes;
       g_trace := [] |}
  else
    let counted := count_stage <$> wg in
    let workers := fst <$> counted in
    let scan := arithmetic_stairlike_add (w_n_matches <$> workers) in
    let reserved := reserve kresults scan.2 in
    let base := reserved.1.1 in
    let kresults1 := reserved.1.2 in
    if kr_nrooms kresults1 <? cl_uint (base + scan.2)
    then
      let errcodes := (fun _ => StromError_DataStoreNoSpace) <$> wg in
      {| g_kresults := kern_writeback_error_status kresults1 errcodes;
         g_errcodes := errcodes;
         g_trace := concat (snd <$> counted) ++ reserved.2 |}
    else
      let emitted := zip_with (emit_stage kresults1 base) scan.1 workers in
      let stores := concat (snd <$> emitted) in
      {| g_kresults :=
           kern_writeback_error_status (apply_trace stores kresults1)
                                       (fst <$> emitted);
         g_errcodes := fst <$> emitted;
         g_trace := concat (snd <$> counted) ++ reserved.2 ++ stores |}.

(** A launch: the work-groups one after the other. *)
Definition kern_gpuhashjoin_main (groups : list (list Z))
           (kresults : kern_resultbuf) : kern_resultbuf * list event :=
  foldl (fun acc wg =>
           let out := kern_gpuhashjoin_main_group wg acc.1 in
           (g_kresults out, acc.2 ++ g_trace out))
        (kresults, []) groups.

End Kernel.

End Exec.

(** ** The projection kernels *)

Module Projection.

(** A write to the destination store. *)
Inductive dest_write : Type :=
| WrNitems (gid n : Z)
| WrSlot (gid col v : Z) (null : bool).

Definition is_nitems_write (w : dest_write) : bool :=
  match w with WrNitems _ _ => true | _ => false end.

(** Where a projection reads the tuple of one join depth from. *)
Inductive tuple_source : Type :=
| SrcOuterRow (rowidx : Z)
| SrcHashEntry (khtable kentry : Z).

(** *** Work-items as state transformers with [goto out]

    A work-item owns [errcode] and shares the destination store; a step
    either falls through to the next statement or jumps to [out]. *)

Record pstate : Type := {
  p_errcode : StromError;
  p_dest : kern_data_store;
  p_writes : list dest_write
}.

Inductive flow (A : Type) : Type :=
| Next (a : A)
| GotoOut.

Arguments Next {A} a.
Arguments GotoOut {A}.

Definition kstep (A : Type) : Type := pstate -> flow A * pstate.

Definition ret {A} (a : A) : kstep A := fun st => (Next a, st).

Definition bind {A B} (c : kstep A) (k : A -> kstep B) : kstep B :=
  fun st =>
    match c st with
    | (Next a, st') => k a st'
    | (GotoOut, st') => (GotoOut, st')
    end.

Definition goto_out : kstep unit := fun st => (GotoOut, st).

Definition when_ (b : bool) (c : kstep unit) : kstep unit :=
  if b then c else ret tt.

Definition read_dest : kstep kern_data_store :=
  fun st => (Next (p_dest st), st).

(** [STROM_SET_ERROR(&errcode, e)] *)
Definition set_error (e : StromError) : kstep unit :=
  fun st =>
    (Next tt, {| p_errcode := STROM_SET_ERROR (p_errcode st) e;
                 p_dest := p_dest st; p_writes := p_writes st |}).

(** [kds_dest->nitems = n] *)
Definition write_nitems (gid n : Z) : kstep unit :=
  fun st =>
    (Next tt, {| p_errcode := p_errcode st;
                 p_dest := kds_set_nitems n (p_dest st);
                 p_writes := p_writes st ++ [WrNitems gid n] |}).

(** One store of [gpuhashjoin_projection_datum] into the slots of row
    [gid]. *)
Definition write_slot (gid : Z) (s : Z * Z * bool) : pstate -> pstate :=
  fun st =>
    {| p_errcode := p_errcode st;
       p_dest := kds_set_slot gid s.1.1 s.1.2 s.2 (p_dest st);
       p_writes := p_writes st ++ [WrSlot gid s.1.1 s.1.2 s.2] |}.

Notation "x <- c ;; k" := (bind c (fun x => k))
  (at level 63, c at next level, right associativity).
Notation "c ;;; k" := (bind c (fun _ => k))
  (at level 63, right associativity).

(** *** Running a kernel *)

Record kernel_state : Type := {
  k_results : kern_resultbuf;
  k_dest : kern_data_store;
  k_writes : list dest_write
}.

(** One work-item, from entry to the label [out]. *)
Definition run_worker (body : Z -> kstep unit) (gid : Z)
           (dest : kern_data_store)
  : StromError * kern_data_store * list dest_write :=
  let st := (body gid {| p_errcode := StromError_Success;
                         p_dest := dest; p_writes := [] |}).2 in
  (p_errcode st, p_dest st, p_writes st).

Fixpoint run_workers (body : Z -> kstep unit) (wg : list Z)
         (dest : kern_data_store)
  : list StromError * kern_data_store * list dest_write :=
  match wg with
  | [] => ([], dest, [])
  | gid :: wg' =>
      let r := run_worker body gid dest in
      let rs := run_workers body wg' r.1.2 in
      (r.1.1 :: rs.1.1, rs.1.2, r.2 ++ rs.2)
  end.

(** One work-group: its work-items, then the status write-back. *)
Definition run_group (body : kern_resultbuf -> Z -> kstep unit)
           (wg : list Z) (ks : kernel_state) : kernel_state :=
  let r := run_workers (body (k_results ks)) wg (k_dest ks) in
  {| k_results := kern_writeback_error_status (k_results ks) r.1.1;
     k_dest := r.1.2;
     k_writes := k_writes ks ++ r.2 |}.

Definition run_kernel (body : kern_resultbuf -> Z -> kstep unit)
           (groups : list (list Z)) (ks : kernel_state) : kernel_state :=
  foldl (fun acc wg => run_group body wg acc) ks groups.

Definition launch (kresults : kern_resultbuf) (kds_dest : kern_data_store)
  : kernel_state :=
  {| k_results := kresults; k_dest := kds_dest; k_writes := [] |}.

(** Every work-item of the launch runs once, work-item 0 is one of them,
    and global ids are not negative. *)
Definition ndrange_ok (groups : list (list Z)) : Prop :=
  NoDup (concat groups) /\
  0 ∈ concat groups /\
  Forall (fun gid => 0 <= gid) (concat groups).

(** What a work-item that passes the tests of a kernel does to the
    destination when it only maintains the item count. *)
Definition worker_dest (upd : bool) (n gid : Z) (d : kern_data_store)
  : kern_data_store :=
  if upd && (gid =? 0) then kds_set_nitems n d else d.

Definition worker_writes (upd : bool) (n gid : Z) : list dest_write :=
  if upd && (gid =? 0) then [WrNitems gid n] else [].

(** The buffer up to its error code. *)
Definition same_counts (kresults kr : kern_resultbuf) : Prop :=
  kr_nitems kr = kr_nitems kresults /\ kr_nrooms kr = kr_nrooms kresults.

(** What the stores into the slots leave alone. *)
Definition slot_frame (st st' : pstate) : Prop :=
  List.filter is_nitems_write (p_writes st') =
  List.filter is_nitems_write (p_writes st) /\
  kds_nitems (p_dest st') = kds_nitems (p_dest st) /\
  kds_nrooms (p_dest st') = kds_nrooms (p_dest st) /\
  kds_format_ (p_dest st') = kds_format_ (p_dest st) /\
  kds_usage (p_dest st') = kds_usage (p_dest st).

(** A write of the slot kernel in a launch whose work-items are
    [workers], with [n] joined rows: the item count by work-item 0, or a
    slot of the row of a work-item below [n]. *)
Definition slot_write_ok (n : Z) (workers : list Z) (w : dest_write) : Prop :=
  match w with
  | WrNitems gid m => gid = 0 /\ m = n
  | WrSlot gid _ _ _ => gid ∈ workers /\ gid < n
  end.

(** Two stores agree outside the item count and the slots. *)
Definition same_outside_slots (d d' : kern_data_store) : Prop :=
  kds_format_ d' = kds_format_ d /\
  kds_length d' = kds_length d /\
  kds_usage d' = kds_usage d /\
  kds_ncols d' = kds_ncols d /\
  kds_nrooms d' = kds_nrooms d /\
  kds_rowitem d' = kds_rowitem d /\
  kds_arena d' = kds_arena d.

(** Two stores hold the same slots in the rows that satisfy [keep]. *)
Definition same_rows (keep : Z -> Prop) (d d' : kern_data_store) : Prop :=
  forall row col,
    keep row ->
    kds_values d' row col = kds_values d row col /\
    kds_isnull d' row col = kds_isnull d row col.

(** What work-item [gid] of the slot kernel may have done between two
    of its states, in a launch with [n] joined rows: it appended writes
    that are its own to make, and changed no slot but those of its row,
    and these only when the row is below [n]. *)
Definition slot_worker_effect (n gid : Z) (st st' : pstate) : Prop :=
  (exists ws, p_writes st' = p_writes st ++ ws /\
              Forall (slot_write_ok n [gid]) ws) /\
  same_outside_slots (p_dest st) (p_dest st') /\
  same_rows (fun row => ~ (row = gid /\ row < n)) (p_dest st) (p_dest st').

(** A statement keeps a relation between the state it starts from and
    the state it leaves, whether it falls through or jumps to [out]. *)
Definition keeps {A} (R : pstate -> pstate -> Prop) (c : kstep A) : Prop :=
  forall st, R st (c st).2.

(** The two tests both kernels make. *)
Definition source_is_row (kds : kern_data_store) : bool :=
  bool_decide (kds_format_ kds = KDS_FORMAT_ROW) ||
  bool_decide (kds_format_ kds = KDS_FORMAT_ROW_FLAT).

Definition nitems_overflow (kresults : kern_resultbuf)
           (kds_dest : kern_data_store) : bool :=
  (kr_nrooms kresults <? kr_nitems kresults) ||
  (kds_nrooms kds_dest <? kr_nitems kresults).

Section Kernels.

Variable kmhash : kern_multihash.
Variable kds : kern_data_store.

(** Declared in another header: the address of the tuple of an outer
    row in the two row layouts, or [NULL]. *)
Variable kern_get_tuple_rs : kern_data_store -> Z -> option Z.
Variable kern_get_tuple_rsflat : kern_data_store -> Z -> option Z.

(** **** Row format *)

(** Steps 1 to 3 of the row kernel, the statements after its
    [goto out]; they rely on tuple-header accessors declared in another
    header and are kept abstract.  The arguments are the global id and
    the index of [rbuffer] in [results]. *)
Variable projection_row_assemble : Z -> Z -> kstep unit.

Definition kern_gpuhashjoin_projection_row (kresults : kern_resultbuf)
           (gid : Z) : kstep unit :=
  kds_dest <- read_dest ;;
  when_ (negb (source_is_row kds) ||
         negb (bool_decide (kds_format_ kds_dest = KDS_FORMAT_ROW_FLAT)))
        (set_error StromError_DataStoreCorruption ;;; goto_out) ;;;
  when_ (nitems_overflow kresults kds_dest)
        (set_error StromError_DataStoreNoSpace ;;; goto_out) ;;;
  let rbuffer := size_t (kr_nrels kresults * gid) in
  when_ (gid =? 0) (write_nitems gid (kr_nitems kresults)) ;;;
  goto_out ;;;
  projection_row_assemble gid rbuffer.

(** **** Slot format *)

(** The extraction of the columns of one tuple into the slots (the
    null fill and the column loop that follow the lookup of [htup]); it
    relies on tuple-header accessors declared in another header and on
    the generated [gpuhashjoin_projection_datum], and is kept abstract:
    from [errcode], the depth, the source and [htup] to the new
    [errcode] and the slots stored (column, value, null flag). *)
Variable slot_extract_tuple :
  StromError -> Z -> tuple_source -> option Z ->
  StromError * list (Z * Z * bool).

Definition slot_source (kresults : kern_resultbuf) (rbuffer depth : Z)
  : tuple_source :=
  if depth =? 0
  then SrcOuterRow (kr_results kresults (rbuffer + 0) - 1)
  else SrcHashEntry (KERN_HASHTABLE kmhash depth)
                    (KERN_HASHTABLE kmhash depth +
                     kr_results kresults (rbuffer + depth)).

Definition slot_htup (src : tuple_source) : option Z :=
  match src with
  | SrcOuterRow rowidx =>
      if bool_decide (kds_format_ kds = KDS_FORMAT_ROW)
      then kern_get_tuple_rs kds rowidx
      else kern_get_tuple_rsflat kds rowidx
  | SrcHashEntry khtable kentry => Some (kentry + kern_hashentry_htup)
  end.

(** One iteration of the loop over the depths. *)
Definition slot_depth (kresults : kern_resultbuf) (gid rbuffer depth : Z)
  : kstep unit :=
  fun st =>
    let src := slot_source kresults rbuffer depth in
    let r := slot_extract_tuple (p_errcode st) depth src (slot_htup src) in
    (Next tt,
     foldl (fun acc s => write_slot gid s acc)
           {| p_errcode := r.1; p_dest := p_dest st;
              p_writes := p_writes st |}
           r.2).

(** [for (depth = first; depth < nrels; depth++)], with [n] iterations
    left. *)
Fixpoint slot_depth_loop (kresults : kern_resultbuf) (gid rbuffer : Z)
         (n : nat) (depth : Z) : kstep unit :=
  match n with
  | O => ret tt
  | S n' =>
      slot_depth kresults gid rbuffer depth ;;;
      slot_depth_loop kresults gid rbuffer n' (depth + 1)
  end.

Definition kern_gpuhashjoin_projection_slot (kresults : kern_resultbuf)
           (gid : Z) : kstep unit :=
  let nrels := cl_int (kr_nrels kresults) in
  kds_dest <- read_dest ;;
  when_ (nitems_overflow kresults kds_dest)
        (set_error StromError_DataStoreNoSpace ;;; goto_out) ;;;
  when_ (gid =? 0) (write_nitems gid (kr_nitems kresults)) ;;;
  when_ (kr_nitems kresults <=? gid) goto_out ;;;
  kds_dest <- read_dest ;;
  when_ (negb (source_is_row kds) ||
         negb (bool_decide (kds_format_ kds_dest = KDS_FORMAT_TUPSLOT)))
        (set_error StromError_DataStoreCorruption ;;; goto_out) ;;;
  let rbuffer := size_t (nrels * gid) in
  slot_depth_loop kresults gid rbuffer (Z.to_nat nrels) 0.

End Kernels.

End Projection.

(** ** The request region: parameters, result header, row map *)

Module Layout.

Section Layout.

(** Modelled from the spec: [STROMALIGN] is declared in another header.
    "All multi-byte structures use a fixed alignment quantum; every
    offset embedded in the layout is computed with this alignment
    applied": rounding up to a multiple of the quantum
    [STROMALIGN_LEN]. *)
Variable STROMALIGN_LEN : Z.

Definition STROMALIGN (len : Z) : Z := TYPEALIGN STROMALIGN_LEN len.

(** [offsetof(kern_resultbuf, results[0])], [offsetof(kern_row_map,
    rindex[0])] and the size of an element of [rindex]; both structures
    are declared in another header. *)
Variable offsetof_results : Z.
Variable offsetof_rindex : Z.
Variable sizeof_rindex : Z.

(** The macros take [khashjoin]; what they read through it is the
    [length] field of the parameter buffer and [nvalids] of the row map,
    which are arguments here. *)
Definition KERN_HASHJOIN_PARAMBUF (khashjoin : Z) : Z := khashjoin.

Definition KERN_HASHJOIN_PARAMBUF_LENGTH (length : Z) : Z :=
  STROMALIGN length.

Definition KERN_HASHJOIN_RESULTBUF (khashjoin length : Z) : Z :=
  KERN_HASHJOIN_PARAMBUF khashjoin + KERN_HASHJOIN_PARAMBUF_LENGTH length.

Definition KERN_HASHJOIN_RESULTBUF_LENGTH : Z :=
  STROMALIGN offsetof_results.

Definition KERN_HASHJOIN_ROWMAP (khashjoin length : Z) : Z :=
  KERN_HASHJOIN_RESULTBUF khashjoin length + KERN_HASHJOIN_RESULTBUF_LENGTH.

Definition KERN_HASHJOIN_ROWMAP_LENGTH (nvalids : Z) : Z :=
  if nvalids <? 0
  then STROMALIGN offsetof_rindex
  else STROMALIGN (offsetof_rindex + sizeof_rindex * nvalids).

Definition KERN_HASHJOIN_DMA_SENDPTR (khashjoin : Z) : Z :=
  KERN_HASHJOIN_PARAMBUF khashjoin.

Definition KERN_HASHJOIN_DMA_SENDOFS : Z := 0.

Definition KERN_HASHJOIN_DMA_SENDLEN (khashjoin length : Z) : Z :=
  KERN_HASHJOIN_ROWMAP khashjoin length - KERN_HASHJOIN_PARAMBUF khashjoin.

Definition KERN_HASHJOIN_DMA_RECVPTR (khashjoin length : Z) : Z :=
  KERN_HASHJOIN_RESULTBUF khashjoin length.

Definition KERN_HASHJOIN_DMA_RECVOFS (length : Z) : Z :=
  KERN_HASHJOIN_PARAMBUF_LENGTH length.

Definition KERN_HASHJOIN_DMA_RECVLEN : Z :=
  KERN_HASHJOIN_RESULTBUF_LENGTH.

End Layout.

End Layout.

(** ** Hash keys *)

Module HashKey.

Import HashRef.

(** [INIT_CRC32] and [FIN_CRC32], on the value of [crc]. *)
Definition INIT_CRC32 : Z := 0xFFFFFFFF.
Definition FIN_CRC32 (crc : Z) : Z := Z.lxor crc 0xFFFFFFFF.

(** The two statements both templates run for a byte:
    [__index = ((hash >> 24) ^ data) & 0xff;
     hash = crc32_table[__index] ^ (hash << 8)].
    [data] is the whole [__data] in the first template and the
    [cl_char] read in the second. *)
Definition crc32_step (crc32_table : Z -> Z) (hash data : Z) : Z :=
  let index := Z.land (Z.lxor (Z.shiftr hash 24) data) 0xff in
  Z.lxor (cl_uint (crc32_table index)) (cl_uint (Z.shiftl hash 8)).

(** [pg_NAME_t] of a template instance whose [BASE] is an integer
    type. *)
Record pg_simple_t : Type := {
  simple_value : Z;
  simple_isnull : bool
}.

(** The loop of [STROMCL_SIMPLE_HASHKEY_TEMPLATE], with [len]
    iterations left. *)
Fixpoint simple_hashkey_loop (crc32_table : Z -> Z) (len : nat)
         (hash data : Z) : Z :=
  match len with
  | O => hash
  | S len' =>
      simple_hashkey_loop crc32_table len'
                          (crc32_step crc32_table hash data)
                          (Z.shiftr data 8)
  end.

(** [pg_NAME_hashkey] of [STROMCL_SIMPLE_HASHKEY_TEMPLATE(NAME,BASE)];
    [sizeof_BASE] is [sizeof(BASE)]. *)
Definition pg_simple_hashkey (sizeof_BASE : Z) (kmhash : kern_multihash)
           (hash : Z) (datum : pg_simple_t) : Z :=
  if negb (simple_isnull datum)
  then simple_hashkey_loop (pg_crc32_table kmhash) (Z.to_nat sizeof_BASE)
                           hash (simple_value datum)
  else hash.

(** Device global memory read one [cl_char] at a time: the byte stored
    at an address, as a signed value. *)
Definition cmem : Type := Z -> Z.

Definition load_cl_char (m : cmem) (p : Z) : Z :=
  let u := m p mod 256 in
  if u <? 128 then u else u - 256.

(** The loop of [STROMCL_VARLENA_HASHKEY_TEMPLATE], with [len]
    iterations left and [__data] at [data]. *)
Fixpoint varlena_hashkey_loop (crc32_table : Z -> Z) (m : cmem) (len : nat)
         (hash data : Z) : Z :=
  match len with
  | O => hash
  | S len' =>
      varlena_hashkey_loop crc32_table m len'
                           (crc32_step crc32_table hash (load_cl_char m data))
                           (data + 1)
  end.

Section Varlena.

(** Declared in another header: the address of the payload of a varlena
    and its length without the header. *)
Variable VARDATA_ANY : cmem -> Z -> Z.
Variable VARSIZE_ANY_EXHDR : cmem -> Z -> Z.

(** [pg_NAME_hashkey] of [STROMCL_VARLENA_HASHKEY_TEMPLATE(NAME)].  A
    datum that is not null carries its address; the length is a
    [cl_uint]. *)
Definition pg_varlena_hashkey (m : cmem) (kmhash : kern_multihash)
           (hash : Z) (datum : pg_varlena_t) : Z :=
  match isnull datum, value datum with
  | false, Some vl_ptr =>
      varlena_hashkey_loop (pg_crc32_table kmhash) m
        (Z.to_nat (cl_uint (VARSIZE_ANY_EXHDR m vl_ptr)))
        hash (VARDATA_ANY m vl_ptr)
  | _, _ => hash
  end.

End Varlena.

(** The bytes of [data], least significant first, as the first template
    consumes them. *)
Fixpoint le_bytes (len : nat) (data : Z) : list Z :=
  match len with
  | O => []
  | S len' => Z.land data 0xff :: le_bytes len' (Z.shiftr data 8)
  end.

(** The bytes of memory from [data] on, as the second template consumes
    them. *)
Fixpoint mem_bytes (m : cmem) (len : nat) (data : Z) : list Z :=
  match len with
  | O => []
  | S len' => m data mod 256 :: mem_bytes m len' (data + 1)
  end.

(** The checksum of a byte string continued from [hash]. *)
Definition crc32_bytes (crc32_table : Z -> Z) (hash : Z) (bytes : list Z)
  : Z :=
  foldl (crc32_step crc32_table) hash bytes.

End HashKey.

(** ** Sample inputs

    The concrete stores, buffers and generated functions the properties
    below are instantiated at. *)

Module Samples.

Import Exec Projection.

(** A table at address 1000 with two columns and four slots; bucket 2
    holds the entry at offset 64, which ends its chain. *)
Definition sample_table : gmem :=
  fun p =>
    if p =? 1000 then 2
    else if p =? 1004 then 4
    else if p =? 1040 then 64
    else 0.

(** The same table with its slot width zeroed. *)
Definition empty_width_table : gmem :=
  fun p => if p =? 1000 then 2 else 0.

(** Column 0 of the tuple is an uncompressed varlena, column 1 a
    compressed one, column 2 is null; the tests read the low bits of the
    first header byte. *)
Definition sample_datum_tuple : gmem -> Z -> Z -> Z -> option Z :=
  fun _ _ htup colidx =>
    if colidx =? 0 then Some (htup + 8)
    else if colidx =? 1 then Some (htup + 24)
    else None.

Definition sample_is_4b_u : gmem -> Z -> bool :=
  fun m p => Z.land (m p) 3 =? 0.

Definition sample_is_1b : gmem -> Z -> bool :=
  fun m p => Z.land (m p) 1 =? 1.

Definition sample_tuple_memory : gmem :=
  fun p => if p =? 2024 then 64 else if p =? 2040 then 2 else 0.

(** A probe that finds [idx + 1] matches for row [idx] and, when
    emitting, stores the row number and a running offset for each. *)
Definition sample_probe :
  StromError -> unit -> kern_multihash ->
  kern_data_store -> kern_data_store -> Z -> option Z -> exec_result :=
  fun e _ _ _ _ idx rbuffer =>
    {| x_errcode := e;
       x_n_matches := idx + 1;
       x_stores :=
         match rbuffer with
         | None => []
         | Some _ =>
             flat_map (fun k => [(2 * k, idx + 1); (2 * k + 1, 64 * k + 64)])
                      (seqZ 0 (idx + 1))
         end |}.

Definition sample_multihash : kern_multihash :=
  {| kmhash_addr := 4096; hostptr := 0; pg_crc32_table := fun _ => 0;
     ntables := 1; htable_offset := fun d => 1040 * d |}.

(** An outer store of three rows. *)
Definition sample_outer : kern_data_store :=
  {| kds_format_ := KDS_FORMAT_ROW; kds_length := 0; kds_usage := 0;
     kds_ncols := 1; kds_nitems := 3; kds_nrooms := 3;
     kds_rowitem := fun _ => 0; kds_arena := fun _ => 0;
     kds_values := fun _ _ => 0; kds_isnull := fun _ _ => false |}.

Definition sample_results (nrels nrooms : Z) : kern_resultbuf :=
  {| kr_nrels := nrels; kr_nrooms := nrooms; kr_nitems := 0;
     kr_errcode := StromError_Success; kr_results := fun _ => 0 |}.

Definition sample_main_group :=
  kern_gpuhashjoin_main_group unit sample_probe tt sample_multihash
                              sample_outer sample_outer None.

(** A probe that finds 4294967294 matches for outer row 0 and is
    [sample_probe] on the other rows. *)
Definition sample_wide_probe :
  StromError -> unit -> kern_multihash ->
  kern_data_store -> kern_data_store -> Z -> option Z -> exec_result :=
  fun e kparams kmhash kds ktoast idx rbuffer =>
    if idx =? 0
    then {| x_errcode := e; x_n_matches := 4294967294;
            x_stores :=
              match rbuffer with
              | None => []
              | Some _ =>
                  flat_map (fun k => [(2 * k, 1); (2 * k + 1, 64 * k + 64)])
                           (seqZ 0 4294967294)
              end |}
    else sample_probe e kparams kmhash kds ktoast idx rbuffer.

Definition sample_main :=
  kern_gpuhashjoin_main unit sample_probe tt sample_multihash
                        sample_outer sample_outer None.

(** A destination of the given format and capacity. *)
Definition sample_dest (format : kds_format) (nrooms : Z) : kern_data_store :=
  {| kds_format_ := format; kds_length := 4096; kds_usage := 0;
     kds_ncols := 2; kds_nitems := 0; kds_nrooms := nrooms;
     kds_rowitem := fun _ => 0; kds_arena := fun _ => 0;
     kds_values := fun _ _ => 0; kds_isnull := fun _ _ => false |}.

(** A successful result buffer of [n] combinations of two relations:
    combination [i] joins outer row [i] with the entry at offset
    [64 * i + 64]. *)
Definition sample_joined (n : Z) : kern_resultbuf :=
  {| kr_nrels := 2; kr_nrooms := 8; kr_nitems := n;
     kr_errcode := StromError_Success;
     kr_results := fun i =>
       if i mod 2 =? 0 then i / 2 + 1 else 64 * (i / 2) + 64 |}.

Definition sample_assemble : Z -> Z -> kstep unit :=
  fun gid rbuffer => write_nitems gid (rbuffer + 1000).

Definition sample_tuple_rs : kern_data_store -> Z -> option Z :=
  fun _ rowidx => Some (8192 + 128 * rowidx).

Definition sample_extract :
  StromError -> Z -> tuple_source -> option Z ->
  StromError * list (Z * Z * bool) :=
  fun e depth _ htup => (e, [(depth, default (-1) htup, false)]).

Definition sample_row_kernel :=
  kern_gpuhashjoin_projection_row sample_outer sample_assemble.

Definition sample_slot_kernel :=
  kern_gpuhashjoin_projection_slot sample_multihash
    sample_outer sample_tuple_rs sample_tuple_rs sample_extract.

(** A lookup table for the hash-key functions (an affine map, so that
    distinct bytes give distinct words), and a multihash that carries it. *)

Definition sample_crc32_table : Z -> Z := fun i => 16777619 * i + 2166136261.

Definition sample_crc_multihash : kern_multihash :=
  {| kmhash_addr := 4096; hostptr := 0;
     pg_crc32_table := sample_crc32_table;
     ntables := 1; htable_offset := fun d => 1040 * d |}.

End Samples.

(** * Properties *)

(** ** Machine integers and error codes *)

Lemma cl_uint_range z : 0 <= cl_uint z < 2 ^ 32.
Proof. unfold cl_uint. apply Z.mod_pos_bound. lia. Qed.

Lemma cl_uint_small z : 0 <= z < 2 ^ 32 -> cl_uint z = z.
Proof. intros H. unfold cl_uint. apply Z.mod_small. exact H. Qed.

Lemma size_t_range z : 0 <= size_t z < 2 ^ 64.
Proof. unfold size_t. apply Z.mod_pos_bound. lia. Qed.

Lemma size_t_small z : 0 <= z < 2 ^ 64 -> size_t z = z.
Proof. intros H. unfold size_t. apply Z.mod_small. exact H. Qed.

Lemma size_t_negative z : - 2 ^ 31 <= z < 0 -> size_t z = 2 ^ 64 + z.
Proof.
  intros H. unfold size_t.
  symmetry. apply (Z.mod_unique_pos _ _ (-1)); lia.
Qed.

Lemma load_cl_uint_range m p : 0 <= load_cl_uint m p < 2 ^ 32.
Proof. apply cl_uint_range. Qed.

Lemma umod_defined a b :
  1 <= b -> umod a b = Defined_ (a mod b) /\ 0 <= a mod b < b.
Proof.
  intros Hb. unfold umod.
  destruct (Z.eqb_spec b 0) as [->|_]; [lia|].
  split; [reflexivity|]. apply Z.mod_pos_bound. lia.
Qed.

Lemma STROM_SET_ERROR_Success_l e : STROM_SET_ERROR StromError_Success e = e.
Proof. reflexivity. Qed.

Lemma STROM_SET_ERROR_Success_r e : STROM_SET_ERROR e StromError_Success = e.
Proof. destruct e; reflexivity. Qed.

Lemma STROM_SET_ERROR_keeps old e :
  old <> StromError_Success -> STROM_SET_ERROR old e = old.
Proof. destruct old; simpl; congruence. Qed.

Lemma STROM_SET_ERROR_significant old e :
  e <> StromError_Success -> STROM_SET_ERROR old e <> StromError_Success.
Proof. destruct old; simpl; congruence. Qed.

Lemma STROM_SET_ERROR_assoc a b c :
  STROM_SET_ERROR (STROM_SET_ERROR a b) c =
  STROM_SET_ERROR a (STROM_SET_ERROR b c).
Proof. destruct a; reflexivity. Qed.

Lemma STROM_SET_ERROR_idem a e :
  STROM_SET_ERROR (STROM_SET_ERROR a e) e = STROM_SET_ERROR a e.
Proof. destruct a, e; reflexivity. Qed.

(** ** Hash table addressing *)

Module HashTableFacts.

Import Samples.

Section Facts.

Variable sizeof_kern_colmeta : Z.

Lemma first_entry_unfold m khtable hash :
  1 <= load_cl_uint m (khtable + kern_hashtable_nslots) ->
  KERN_HASH_FIRST_ENTRY sizeof_kern_colmeta m khtable hash =
  let index := hash mod load_cl_uint m (khtable + kern_hashtable_nslots) in
  if hash_slot sizeof_kern_colmeta m khtable index =? 0
  then Defined_ None
  else Defined_
         (Some (khtable + hash_slot sizeof_kern_colmeta m khtable index)).
Proof.
  intros Hn. unfold KERN_HASH_FIRST_ENTRY.
  destruct (umod_defined hash _ Hn) as [-> _]. reflexivity.
Qed.

(** C8.  In a table whose slot width [nslots] is at least 1, for every
    hash value: the bucket index is [hash mod nslots] and lies in
    [0, nslots); [KERN_HASH_FIRST_ENTRY] returns no entry exactly when
    [slot[hash mod nslots]] is 0 and otherwise the entry at that byte
    offset from the table's base; [KERN_HASH_NEXT_ENTRY] returns no entry
    exactly when the [next] field of the current entry is 0 and otherwise
    the entry at offset [next] from the table's base. *)
Theorem hash_entry_addressing (m : gmem) (khtable hash khentry : Z) :
  1 <= load_cl_uint m (khtable + kern_hashtable_nslots) ->
  let nslots := load_cl_uint m (khtable + kern_hashtable_nslots) in
  let index := hash mod nslots in
  let first := hash_slot sizeof_kern_colmeta m khtable index in
  let next := load_cl_uint m (khentry + kern_hashentry_next) in
  umod hash nslots = Defined_ index /\
  0 <= index < nslots /\
  (KERN_HASH_FIRST_ENTRY sizeof_kern_colmeta m khtable hash = Defined_ None
   <-> first = 0) /\
  (first <> 0 ->
   KERN_HASH_FIRST_ENTRY sizeof_kern_colmeta m khtable hash =
   Defined_ (Some (khtable + first))) /\
  (KERN_HASH_NEXT_ENTRY m khtable khentry = None <-> next = 0) /\
  (next <> 0 ->
   KERN_HASH_NEXT_ENTRY m khtable khentry = Some (khtable + next)).
Proof.
  intros Hn nslots index first next.
  destruct (umod_defined hash nslots Hn) as [Hmod Hidx].
  rewrite (first_entry_unfold m khtable hash Hn). cbv zeta.
  fold nslots. fold index. fold first.
  unfold KERN_HASH_NEXT_ENTRY. fold next.
  repeat split; try (exact Hmod); try lia.
  - destruct (Z.eqb_spec first 0); [trivial | discriminate].
  - intros ->. reflexivity.
  - intros Hf. destruct (Z.eqb_spec first 0); [contradiction | reflexivity].
  - destruct (Z.eqb_spec next 0); [trivial | discriminate].
  - intros ->. reflexivity.
  - intros Hx. destruct (Z.eqb_spec next 0); [contradiction | reflexivity].
Qed.

(** C10.  The bucket index is computed as [hash % nslots] with no test
    on [nslots]: [KERN_HASH_FIRST_ENTRY] yields a result exactly when
    [nslots >= 1], in which case the index lies in [0, nslots); for
    [nslots = 0] it divides by zero. *)
Theorem first_entry_defined_iff (m : gmem) (khtable hash : Z) :
  let nslots := load_cl_uint m (khtable + kern_hashtable_nslots) in
  ((exists r,
       KERN_HASH_FIRST_ENTRY sizeof_kern_colmeta m khtable hash = Defined_ r)
   <-> 1 <= nslots) /\
  (1 <= nslots ->
   umod hash nslots = Defined_ (hash mod nslots) /\
   0 <= hash mod nslots < nslots) /\
  (nslots = 0 ->
   KERN_HASH_FIRST_ENTRY sizeof_kern_colmeta m khtable hash = DivideByZero).
Proof.
  intros nslots.
  assert (Hzero : nslots = 0 ->
            KERN_HASH_FIRST_ENTRY sizeof_kern_colmeta m khtable hash
            = DivideByZero).
  { intros H0. unfold KERN_HASH_FIRST_ENTRY. fold nslots. rewrite H0.
    reflexivity. }
  split; [|split].
  - split.
    + intros [r Hr].
      pose proof (load_cl_uint_range m (khtable + kern_hashtable_nslots)) as Hb.
      fold nslots in Hb.
      destruct (Z.eq_dec nslots 0) as [H0|H0]; [|lia].
      rewrite (Hzero H0) in Hr. discriminate.
    + intros Hn. rewrite (first_entry_unfold m khtable hash Hn). cbv zeta.
      destruct (_ =? 0); eauto.
  - intros Hn. apply umod_defined. exact Hn.
  - exact Hzero.
Qed.

End Facts.

Lemma hash_entry_addressing_witness :
  1 <= load_cl_uint sample_table (1000 + kern_hashtable_nslots) /\
  KERN_HASH_FIRST_ENTRY 8 sample_table 1000 6 = Defined_ (Some 1064) /\
  KERN_HASH_NEXT_ENTRY sample_table 1000 1064 = None.
Proof.
  assert (Hn : 1 <= load_cl_uint sample_table (1000 + kern_hashtable_nslots))
    by (vm_compute; discriminate).
  destruct (hash_entry_addressing 8 sample_table 1000 6 1064 Hn)
    as (_ & _ & _ & Hfirst & Hnext & _).
  split; [exact Hn|]. split.
  - apply Hfirst. vm_compute. discriminate.
  - apply Hnext. reflexivity.
Defined.

Lemma first_entry_defined_iff_witness :
  load_cl_uint empty_width_table (1000 + kern_hashtable_nslots) = 0 /\
  KERN_HASH_FIRST_ENTRY 8 empty_width_table 1000 6 = DivideByZero /\
  (1 <= load_cl_uint sample_table (1000 + kern_hashtable_nslots) /\
   exists r, KERN_HASH_FIRST_ENTRY 8 sample_table 1000 6 = Defined_ r).
Proof.
  split; [reflexivity|]. split.
  - apply (first_entry_defined_iff 8 empty_width_table 1000 6). reflexivity.
  - assert (Hn : 1 <= load_cl_uint sample_table (1000 + kern_hashtable_nslots))
      by (vm_compute; discriminate).
    split; [exact Hn|].
    apply (first_entry_defined_iff 8 sample_table 1000 6). exact Hn.
Defined.

End HashTableFacts.

(** ** Variable-length references into a hash entry *)

Module HashRefFacts.

Import HashRef Samples.

Section Facts.

Variable kern_get_datum_tuple : gmem -> Z -> Z -> Z -> option Z.
Variable VARATT_IS_4B_U : gmem -> Z -> bool.
Variable VARATT_IS_1B : gmem -> Z -> bool.

Abbreviation hashref :=
  (pg_varlena_hashref kern_get_datum_tuple VARATT_IS_4B_U VARATT_IS_1B).

(** C9.  With [datum] the address [kern_get_datum_tuple] finds for the
    column in the tuple embedded in the entry: [pg_varlena_hashref]
    returns [isnull = false] exactly when the datum is present and is an
    uncompressed 4-byte-header or a 1-byte-header varlena, and then
    returns its address and leaves the error code alone; for a present
    datum of any other encoding it returns [isnull = true] and records
    [StromError_CpuReCheck] with [STROM_SET_ERROR] (so the code is
    [StromError_CpuReCheck] when none was recorded before, and never
    [StromError_Success]); for an absent datum it returns
    [isnull = true] and leaves the error code alone. *)
Theorem pg_varlena_hashref_cases (m : gmem) (khtable kentry : Z)
        (p_errcode : StromError) (colidx : Z) :
  let datum := kern_get_datum_tuple m (khtable + kern_hashtable_colmeta)
                                    (kentry + kern_hashentry_htup) colidx in
  let r := hashref m khtable kentry p_errcode colidx in
  (isnull r.1 = false <->
   exists vl_ptr, datum = Some vl_ptr /\
     (VARATT_IS_4B_U m vl_ptr = true \/ VARATT_IS_1B m vl_ptr = true)) /\
  (forall vl_ptr, datum = Some vl_ptr ->
     VARATT_IS_4B_U m vl_ptr = true \/ VARATT_IS_1B m vl_ptr = true ->
     r = ({| value := Some vl_ptr; isnull := false |}, p_errcode)) /\
  (forall vl_ptr, datum = Some vl_ptr ->
     VARATT_IS_4B_U m vl_ptr = false -> VARATT_IS_1B m vl_ptr = false ->
     isnull r.1 = true /\
     r.2 = STROM_SET_ERROR p_errcode StromError_CpuReCheck /\
     r.2 <> StromError_Success /\
     (p_errcode = StromError_Success -> r.2 = StromError_CpuReCheck)) /\
  (datum = None -> isnull r.1 = true /\ r.2 = p_errcode).
Proof.
  cbv zeta. unfold pg_varlena_hashref.
  destruct (kern_get_datum_tuple m _ _ colidx) as [vl_ptr|]; simpl.
  - destruct (VARATT_IS_4B_U m vl_ptr || VARATT_IS_1B m vl_ptr) eqn:Hv; simpl.
    + apply orb_true_iff in Hv. split; [|split; [|split]].
      * split; [intros _; exists vl_ptr; auto | reflexivity].
      * intros vl [= <-] _. reflexivity.
      * intros vl [= <-] H4 H1. destruct Hv; congruence.
      * discriminate.
    + apply orb_false_iff in Hv as [H4 H1]. split; [|split; [|split]].
      * split; [discriminate|].
        intros [vl [[= <-] [Hx|Hx]]]; congruence.
      * intros vl [= <-] [Hx|Hx]; congruence.
      * intros vl [= <-] _ _. repeat split.
        -- apply STROM_SET_ERROR_significant. discriminate.
        -- intros ->. reflexivity.
      * discriminate.
  - split; [|split; [|split]].
    + split; [discriminate|]. intros [vl [Hx _]]. discriminate.
    + discriminate.
    + discriminate.
    + auto.
Qed.

End Facts.

Lemma pg_varlena_hashref_cases_witness :
  pg_varlena_hashref sample_datum_tuple sample_is_4b_u sample_is_1b
    sample_tuple_memory 1000 2000 StromError_Success 0
  = ({| value := Some 2024; isnull := false |}, StromError_Success) /\
  (pg_varlena_hashref sample_datum_tuple sample_is_4b_u sample_is_1b
     sample_tuple_memory 1000 2000 StromError_Success 1).2
  = StromError_CpuReCheck /\
  (pg_varlena_hashref sample_datum_tuple sample_is_4b_u sample_is_1b
     sample_tuple_memory 1000 2000 StromError_Success 2).2
  = StromError_Success.
Proof.
  split; [|split].
  - destruct (pg_varlena_hashref_cases sample_datum_tuple sample_is_4b_u
                sample_is_1b sample_tuple_memory 1000 2000
                StromError_Success 0) as (_ & Hpresent & _).
    apply Hpresent; [reflexivity | left; reflexivity].
  - destruct (pg_varlena_hashref_cases sample_datum_tuple sample_is_4b_u
                sample_is_1b sample_tuple_memory 1000 2000
                StromError_Success 1) as (_ & _ & Hother & _).
    apply (Hother 2040); reflexivity.
  - destruct (pg_varlena_hashref_cases sample_datum_tuple sample_is_4b_u
                sample_is_1b sample_tuple_memory 1000 2000
                StromError_Success 2) as (_ & _ & _ & Habsent).
    apply Habsent. reflexivity.
Defined.

End HashRefFacts.

(** ** Status write-back *)

Lemma foldl_set_error_const {A} (a c : StromError) (l : list A) :
  l <> [] ->
  foldl STROM_SET_ERROR a ((fun _ => c) <$> l) = STROM_SET_ERROR a c.
Proof.
  intros Hl. destruct l as [|x l]; [congruence|]. clear Hl. simpl.
  induction l as [|y l IH]; simpl; [reflexivity|].
  rewrite STROM_SET_ERROR_idem. exact IH.
Qed.

Lemma group_errcode_const {A} (c : StromError) (l : list A) :
  l <> [] -> group_errcode ((fun _ => c) <$> l) = c.
Proof.
  intros Hl. unfold group_errcode.
  rewrite (foldl_set_error_const _ c l Hl). reflexivity.
Qed.

Lemma writeback_frame kresults errcodes :
  kern_writeback_error_status kresults errcodes =
  kr_set_errcode
    (STROM_SET_ERROR (kr_errcode kresults) (group_errcode errcodes))
    kresults.
Proof. reflexivity. Qed.

Lemma set_error_is_success a b :
  STROM_SET_ERROR a b = StromError_Success -> a = StromError_Success.
Proof. destruct a; simpl; congruence. Qed.

Lemma kr_set_errcode_twice e1 e2 kr :
  kr_set_errcode e2 (kr_set_errcode e1 kr) = kr_set_errcode e2 kr.
Proof. reflexivity. Qed.

Lemma kr_set_errcode_same kr : kr_set_errcode (kr_errcode kr) kr = kr.
Proof. destruct kr; reflexivity. Qed.

Lemma stairlike_total_range_aux acc counts :
  0 <= acc < 2 ^ 32 ->
  0 <= foldl (fun a n => cl_uint (a + n)) acc counts < 2 ^ 32.
Proof.
  revert acc. induction counts as [|n counts IH]; intros acc Hacc; simpl.
  - exact Hacc.
  - apply IH. apply cl_uint_range.
Qed.

Lemma stairlike_total_range counts : 0 <= stairlike_total counts < 2 ^ 32.
Proof. apply stairlike_total_range_aux. lia. Qed.

(** ** The execution kernel *)

Module ExecFacts.

Import Exec Samples.

Section Facts.

Variable kern_parambuf : Type.
Variable gpuhashjoin_execute :
  StromError -> kern_parambuf -> kern_multihash ->
  kern_data_store -> kern_data_store -> Z -> option Z -> exec_result.
Variable kparams : kern_parambuf.
Variable kmhash : kern_multihash.
Variable kds : kern_data_store.
Variable ktoast : kern_data_store.
Variable krowmap : option kern_row_map.

Abbreviation select := (select_kds_index kds krowmap).
Abbreviation counting_call := (Exec.counting_call kds krowmap).
Abbreviation call_in_range := (Exec.call_in_range kds krowmap).
Abbreviation count :=
  (count_stage kern_parambuf gpuhashjoin_execute kparams kmhash kds ktoast
               krowmap).
Abbreviation emit :=
  (emit_stage kern_parambuf gpuhashjoin_execute kparams kmhash kds ktoast).
Abbreviation main_group :=
  (kern_gpuhashjoin_main_group kern_parambuf gpuhashjoin_execute kparams
                               kmhash kds ktoast krowmap).
Abbreviation main :=
  (kern_gpuhashjoin_main kern_parambuf gpuhashjoin_execute kparams
                         kmhash kds ktoast krowmap).
Abbreviation total_of :=
  (group_total kern_parambuf gpuhashjoin_execute kparams kmhash kds ktoast
               krowmap).

Lemma count_stage_worker gid :
  w_gid (count gid).1 = gid /\ w_kds_index (count gid).1 = select gid.
Proof.
  unfold count_stage. destruct (_ <? _); simpl; auto.
Qed.

Lemma count_stage_events gid : Forall counting_call (count gid).2.
Proof.
  unfold count_stage.
  destruct (Z.ltb_spec (select gid) (kds_nitems kds)); simpl.
  - repeat constructor. assumption.
  - constructor.
Qed.

Lemma count_stage_out_of_range gid :
  ~ select gid < kds_nitems kds ->
  count gid =
  ({| w_gid := gid; w_errcode := StromError_Success;
      w_kds_index := select gid; w_n_matches := 0 |}, []).
Proof.
  intros Hout. unfold count_stage.
  destruct (Z.ltb_spec (select gid) (kds_nitems kds)); [lia | reflexivity].
Qed.

Lemma counted_events wg :
  Forall counting_call (concat (snd <$> (count <$> wg))).
Proof.
  induction wg as [|gid wg IH]; simpl; [constructor|].
  apply Forall_app. split; [apply count_stage_events | exact IH].
Qed.

Lemma counting_call_in_range ev : counting_call ev -> call_in_range ev.
Proof. destruct ev as [g idx [r|]| |]; simpl; tauto. Qed.

Lemma counting_call_not_store ev : counting_call ev -> is_store ev = false.
Proof. destruct ev as [g idx [r|]| |]; simpl; tauto. Qed.

Lemma emit_stage_events kresults base offset w :
  w_kds_index w = select (w_gid w) ->
  Forall call_in_range (emit kresults base offset w).2.
Proof.
  intros Hw. unfold emit_stage.
  destruct (0 <? w_n_matches w); simpl; [|constructor].
  destruct (Z.ltb_spec (w_kds_index w) (kds_nitems kds)); simpl;
    [|constructor].
  constructor; [simpl; auto|].
  apply Forall_fmap. apply Forall_true. intros s. exact I.
Qed.

Lemma emitted_events kresults base offsets wg :
  Forall call_in_range
    (concat (snd <$> zip_with (emit kresults base) offsets
                              (fst <$> (count <$> wg)))).
Proof.
  revert offsets. induction wg as [|gid wg IH]; intros [|o offsets]; simpl;
    try constructor.
  apply Forall_app. split; [|apply IH].
  apply emit_stage_events.
  destruct (count_stage_worker gid) as [-> ->]. reflexivity.
Qed.

(** Every call of the probe in a group's trace is for a row below
    [kds->nitems]. *)
Lemma group_trace_in_range wg kresults :
  Forall call_in_range (g_trace (main_group wg kresults)).
Proof.
  unfold kern_gpuhashjoin_main_group.
  destruct (nrels_mismatch kmhash kresults); simpl; [constructor|].
  assert (Hc : Forall call_in_range (concat (snd <$> (count <$> wg)))).
  { eapply List.Forall_impl;
      [apply counting_call_in_range | apply counted_events]. }
  assert (Hr : forall n, Forall call_in_range (reserve kresults n).2).
  { intros n. unfold reserve. destruct (0 <? n); simpl; repeat constructor. }
  destruct (_ <? _); simpl.
  - apply Forall_app. split; [exact Hc | apply Hr].
  - apply Forall_app. split; [exact Hc|].
    apply Forall_app. split; [apply Hr | apply emitted_events].
Qed.

Lemma nrels_mismatch_true kresults :
  kr_nrels kresults <> cl_uint (ntables kmhash + 1) ->
  nrels_mismatch kmhash kresults = true.
Proof.
  intros Hne. unfold nrels_mismatch.
  destruct (Z.eqb_spec (kr_nrels kresults) (cl_uint (ntables kmhash + 1)));
    [contradiction | reflexivity].
Qed.

Lemma main_group_mismatch wg kresults :
  nrels_mismatch kmhash kresults = true ->
  wg <> [] ->
  main_group wg kresults =
  {| g_kresults :=
       kr_set_errcode
         (STROM_SET_ERROR (kr_errcode kresults)
                          StromError_DataStoreCorruption) kresults;
     g_errcodes := (fun _ => StromError_DataStoreCorruption) <$> wg;
     g_trace := [] |}.
Proof.
  intros Hm Hwg. unfold kern_gpuhashjoin_main_group. rewrite Hm.
  rewrite writeback_frame, (group_errcode_const _ wg Hwg). reflexivity.
Qed.

Lemma main_mismatch_launch groups kresults trace :
  nrels_mismatch kmhash kresults = true ->
  Forall (fun wg => wg <> []) groups ->
  groups <> [] ->
  foldl (fun acc wg =>
           let out := main_group wg acc.1 in
           (g_kresults out, acc.2 ++ g_trace out))
        (kresults, trace) groups =
  (kr_set_errcode
     (STROM_SET_ERROR (kr_errcode kresults) StromError_DataStoreCorruption)
     kresults, trace).
Proof.
  revert kresults.
  induction groups as [|wg gs IH]; intros kresults Hm Hall Hne;
    [congruence|].
  inversion Hall as [|? ? Hwg Hgs]; subst. simpl.
  rewrite (main_group_mismatch wg kresults Hm Hwg). simpl.
  rewrite app_nil_r.
  destruct gs as [|wg' gs']; [reflexivity|].
  rewrite IH; [|exact Hm|exact Hgs|discriminate].
  simpl. rewrite STROM_SET_ERROR_idem. reflexivity.
Qed.

(** C4.  When [kresults->nrels] differs from [kmhash->ntables + 1], a
    work-group leaves the kernel with [StromError_DataStoreCorruption] in
    every work-item and an empty trace: the probe is never called, the
    counter [nitems] is not added to and nothing is stored in [results];
    the buffer differs from the one on entry in [errcode] only, which
    receives the code by the write-back.  The same holds for the whole
    launch. *)
Theorem nrels_mismatch_corruption (wg : list Z) (groups : list (list Z))
        (kresults : kern_resultbuf) :
  kr_nrels kresults <> cl_uint (ntables kmhash + 1) ->
  wg <> [] ->
  groups <> [] ->
  Forall (fun g => g <> []) groups ->
  let corrupted :=
    kr_set_errcode
      (STROM_SET_ERROR (kr_errcode kresults) StromError_DataStoreCorruption)
      kresults in
  main_group wg kresults =
  {| g_kresults := corrupted;
     g_errcodes := (fun _ => StromError_DataStoreCorruption) <$> wg;
     g_trace := [] |} /\
  main groups kresults = (corrupted, []) /\
  kr_nitems corrupted = kr_nitems kresults /\
  kr_results corrupted = kr_results kresults /\
  (kr_errcode kresults = StromError_Success ->
   kr_errcode corrupted = StromError_DataStoreCorruption).
Proof.
  intros Hne Hwg Hgs Hall corrupted.
  pose proof (nrels_mismatch_true kresults Hne) as Hm.
  split; [|split; [|split; [|split]]].
  - apply main_group_mismatch; assumption.
  - unfold kern_gpuhashjoin_main.
    apply main_mismatch_launch; assumption.
  - reflexivity.
  - reflexivity.
  - intros He. subst corrupted. simpl. rewrite He. reflexivity.
Qed.

(** C6.  Row selection.  Without a row map a work-item is mapped to its
    global id.  With a row map of [nvalids >= 0] entries, a work-item
    below [nvalids] is mapped to [rindex[gid]] (converted to [size_t],
    which changes nothing for an entry that is not negative) and any
    other to [kds->nitems].  A work-item whose row is not below
    [kds->nitems] counts zero matches without calling the probe, makes no
    call in the second stage either, and no call of the probe in the
    trace of its group is made for it, whatever the row map holds. *)
Theorem row_selection (gid : Z) :
  (krowmap = None -> select gid = gid) /\
  (forall rm, krowmap = Some rm -> 0 <= nvalids rm < 2 ^ 31 ->
     (gid < nvalids rm ->
      select gid = size_t (rindex rm gid) /\
      (0 <= rindex rm gid < 2 ^ 31 -> select gid = rindex rm gid)) /\
     (nvalids rm <= gid -> select gid = kds_nitems kds)) /\
  (~ select gid < kds_nitems kds ->
     w_n_matches (count gid).1 = 0 /\
     (count gid).2 = [] /\
     (forall kresults base offset,
        (emit kresults base offset (count gid).1).2 = []) /\
     (forall wg kresults,
        Forall (fun ev => executes_for gid ev = false)
               (g_trace (main_group wg kresults)))).
Proof.
  split; [|split].
  - intros Hk. unfold select_kds_index. rewrite Hk. reflexivity.
  - intros rm Hk Hn. unfold select_kds_index. rewrite Hk.
    rewrite (size_t_small (nvalids rm)) by lia.
    split.
    + intros Hlt. destruct (Z.ltb_spec gid (nvalids rm)); [|lia].
      split; [reflexivity|]. intros Hr. apply size_t_small. lia.
    + intros Hge. destruct (Z.ltb_spec gid (nvalids rm)); [lia|reflexivity].
  - intros Hout. rewrite (count_stage_out_of_range gid Hout). simpl.
    split; [reflexivity|]. split; [reflexivity|]. split.
    + intros kresults base offset. unfold emit_stage. simpl.
      reflexivity.
    + intros wg kresults.
      eapply List.Forall_impl; [|apply group_trace_in_range].
      intros [g idx r| |]; simpl; try reflexivity.
      intros [-> Hlt]. apply bool_decide_eq_false. intros ->. lia.
Qed.

Lemma scan_total wg :
  (arithmetic_stairlike_add
     (w_n_matches <$> (fst <$> (count <$> wg)))).2 = total_of wg.
Proof.
  unfold group_total, group_counts.
  rewrite <- !list_fmap_compose. reflexivity.
Qed.

Lemma total_of_range wg : 0 <= total_of wg < 2 ^ 32.
Proof. unfold group_total. simpl. apply stairlike_total_range. Qed.

Lemma reserve_base kresults n :
  (reserve kresults n).1.1 = if 0 <? n then kr_nitems kresults else 0.
Proof. unfold reserve. destruct (0 <? n); reflexivity. Qed.

Lemma reserve_buffer kresults n :
  (reserve kresults n).1.2 =
  if 0 <? n
  then kr_set_nitems (cl_uint (kr_nitems kresults + n)) kresults
  else kresults.
Proof. unfold reserve. destruct (0 <? n); reflexivity. Qed.

Lemma reserve_frame kresults n :
  kr_nrooms (reserve kresults n).1.2 = kr_nrooms kresults /\
  kr_nrels (reserve kresults n).1.2 = kr_nrels kresults /\
  kr_errcode (reserve kresults n).1.2 = kr_errcode kresults /\
  kr_results (reserve kresults n).1.2 = kr_results kresults.
Proof. unfold reserve. destruct (0 <? n); simpl; auto. Qed.

Lemma reserve_events kresults n :
  Forall (fun ev => is_store ev = false /\ is_execute ev = false)
         (reserve kresults n).2.
Proof. unfold reserve. destruct (0 <? n); simpl; repeat constructor. Qed.

(** The group's outcome when the capacity check fails. *)
Lemma main_group_no_space wg kresults :
  nrels_mismatch kmhash kresults = false ->
  kr_nrooms kresults <
  cl_uint ((reserve kresults (total_of wg)).1.1 + total_of wg) ->
  main_group wg kresults =
  {| g_kresults :=
       kern_writeback_error_status
         (reserve kresults (total_of wg)).1.2
         ((fun _ => StromError_DataStoreNoSpace) <$> wg);
     g_errcodes := (fun _ => StromError_DataStoreNoSpace) <$> wg;
     g_trace := concat (snd <$> (count <$> wg)) ++
                (reserve kresults (total_of wg)).2 |}.
Proof.
  intros Hm Hover. unfold kern_gpuhashjoin_main_group. rewrite Hm.
  cbv zeta. rewrite scan_total.
  destruct (reserve_frame kresults (total_of wg)) as (-> & _).
  destruct (Z.ltb_spec (kr_nrooms kresults)
              (cl_uint ((reserve kresults (total_of wg)).1.1 + total_of wg)));
    [reflexivity | lia].
Qed.

(** The counter after a group that passed the capacity check. *)
Lemma main_group_within_capacity wg kresults :
  nrels_mismatch kmhash kresults = false ->
  ~ kr_nrooms kresults <
    cl_uint ((reserve kresults (total_of wg)).1.1 + total_of wg) ->
  kr_nitems (g_kresults (main_group wg kresults)) =
  kr_nitems (reserve kresults (total_of wg)).1.2 /\
  kr_nrooms (g_kresults (main_group wg kresults)) = kr_nrooms kresults /\
  exists e,
    kr_errcode (g_kresults (main_group wg kresults)) =
    STROM_SET_ERROR (kr_errcode kresults) e.
Proof.
  intros Hm Hfit. unfold kern_gpuhashjoin_main_group. rewrite Hm.
  cbv zeta. rewrite scan_total.
  destruct (reserve_frame kresults (total_of wg)) as (Hrooms & _ & Herr & _).
  rewrite Hrooms.
  destruct (Z.ltb_spec (kr_nrooms kresults)
              (cl_uint ((reserve kresults (total_of wg)).1.1 + total_of wg)));
    [lia|].
  simpl. rewrite Hrooms, Herr. split; [reflexivity|]. split; [reflexivity|].
  eexists. reflexivity.
Qed.

(** After any group, either an error is recorded or the counter is
    within the capacity. *)
Lemma main_group_counter_valid wg kresults :
  wg <> [] ->
  (kr_errcode kresults = StromError_Success ->
   kr_nitems kresults <= kr_nrooms kresults) ->
  kr_errcode (g_kresults (main_group wg kresults)) = StromError_Success ->
  kr_nitems (g_kresults (main_group wg kresults)) <=
  kr_nrooms (g_kresults (main_group wg kresults)).
Proof.
  intros Hwg Hinv.
  destruct (nrels_mismatch kmhash kresults) eqn:Hm.
  - rewrite (main_group_mismatch wg kresults Hm Hwg). simpl.
    intros He. exfalso. revert He.
    apply STROM_SET_ERROR_significant. discriminate.
  - destruct (Z.lt_decidable (kr_nrooms kresults)
                (cl_uint ((reserve kresults (total_of wg)).1.1 + total_of wg)))
      as [Hover|Hfit].
    + rewrite (main_group_no_space wg kresults Hm Hover). simpl.
      rewrite (group_errcode_const _ wg Hwg).
      intros He. exfalso. revert He.
      apply STROM_SET_ERROR_significant. discriminate.
    + destruct (main_group_within_capacity wg kresults Hm Hfit)
        as (-> & -> & e & ->).
      intros He. apply set_error_is_success in He.
      revert Hfit. rewrite reserve_base, reserve_buffer.
      destruct (0 <? total_of wg); simpl; intros Hfit; [lia | auto].
Qed.

Lemma main_launch_counter_valid groups kresults trace :
  Forall (fun wg => wg <> []) groups ->
  (kr_errcode kresults = StromError_Success ->
   kr_nitems kresults <= kr_nrooms kresults) ->
  let final :=
    (foldl (fun acc wg =>
              let out := main_group wg acc.1 in
              (g_kresults out, acc.2 ++ g_trace out))
           (kresults, trace) groups).1 in
  kr_errcode final = StromError_Success ->
  kr_nitems final <= kr_nrooms final.
Proof.
  revert kresults trace.
  induction groups as [|wg gs IH]; intros kresults trace Hall Hinv; simpl.
  - exact Hinv.
  - inversion Hall as [|? ? Hwg Hgs]; subst.
    apply IH; [exact Hgs|].
    apply main_group_counter_valid; assumption.
Qed.

Abbreviation contract :=
  (probe_stores_counted kern_parambuf gpuhashjoin_execute kparams kmhash kds
                        ktoast).
Abbreviation counts_of :=
  (group_counts kern_parambuf gpuhashjoin_execute kparams kmhash kds ktoast
                krowmap).

Lemma count_stage_matches_range gid :
  0 <= w_n_matches (count gid).1 < 2 ^ 32.
Proof.
  unfold count_stage. destruct (_ <? _); simpl; [apply cl_uint_range | lia].
Qed.

Lemma count_stage_matches gid :
  w_kds_index (count gid).1 < kds_nitems kds ->
  w_n_matches (count gid).1 =
  cl_uint (x_n_matches
             (gpuhashjoin_execute StromError_Success kparams kmhash kds
                                  ktoast (w_kds_index (count gid).1) None)).
Proof.
  unfold count_stage.
  destruct (Z.ltb_spec (select gid) (kds_nitems kds)); simpl;
    [reflexivity | lia].
Qed.

Lemma counts_of_nonneg wg : 0 <= foldr Z.add 0 (counts_of wg).
Proof.
  induction wg as [|gid wg IH]; simpl; [lia|].
  pose proof (count_stage_matches_range gid). lia.
Qed.

Lemma stairlike_total_exact_aux acc counts :
  0 <= acc ->
  Forall (fun n => 0 <= n) counts ->
  acc + foldr Z.add 0 counts < 2 ^ 32 ->
  foldl (fun a n => cl_uint (a + n)) acc counts =
  acc + foldr Z.add 0 counts.
Proof.
  revert acc. induction counts as [|n counts IH]; intros acc Hacc Hall Hsum;
    simpl in *; [lia|].
  inversion Hall as [|? ? Hn Hrest]; subst.
  assert (0 <= foldr Z.add 0 counts).
  { clear -Hrest. induction Hrest; simpl; lia. }
  rewrite (cl_uint_small (acc + n)) by lia.
  rewrite IH by (auto; lia). lia.
Qed.

Lemma total_of_exact wg :
  foldr Z.add 0 (counts_of wg) < 2 ^ 32 ->
  total_of wg = foldr Z.add 0 (counts_of wg).
Proof.
  intros Hsum. unfold group_total. simpl. unfold stairlike_total.
  rewrite stairlike_total_exact_aux; [lia | lia | | lia].
  unfold group_counts. apply Forall_fmap. apply Forall_true.
  intros gid. apply count_stage_matches_range.
Qed.

Lemma emit_stage_in_bounds kresults kr1 base acc gid :
  kr_nrels kr1 = kr_nrels kresults ->
  0 <= kr_nrels kresults ->
  kr_nrels kresults * kr_nrooms kresults < 2 ^ 32 ->
  contract (kr_nrels kresults) ->
  0 <= base -> 0 <= acc ->
  base + acc + w_n_matches (count gid).1 <= kr_nrooms kresults ->
  Forall (store_in_bounds kresults) (emit kr1 base acc (count gid).1).2.
Proof.
  intros Hrels Hpos Hsize Hprobe Hbase Hacc Hfit.
  pose proof (count_stage_matches_range gid) as Hn.
  unfold emit_stage.
  destruct (Z.ltb_spec 0 (w_n_matches (count gid).1)) as [Hgt|];
    simpl; [|constructor].
  destruct (Z.ltb_spec (w_kds_index (count gid).1) (kds_nitems kds))
    as [Hin|]; simpl; [|constructor].
  constructor; [exact I|].
  apply Forall_fmap.
  eapply List.Forall_impl; [|apply (Hprobe _ _ _ Hin)].
  intros [o v]. simpl. rewrite <- (count_stage_matches gid Hin).
  intros Ho. rewrite Hrels.
  assert (Hrooms : base + acc <= kr_nrooms kresults) by lia.
  assert (Hmul : kr_nrels kresults * (base + acc) <=
                 kr_nrels kresults * kr_nrooms kresults) by nia.
  assert (Hmul' : kr_nrels kresults * (base + acc + w_n_matches (count gid).1)
                  <= kr_nrels kresults * kr_nrooms kresults) by nia.
  assert (Hsmall : 0 <= base + acc < 2 ^ 32) by nia.
  rewrite (cl_uint_small (base + acc)) by exact Hsmall.
  rewrite cl_uint_small by nia.
  nia.
Qed.

Lemma emitted_in_bounds kresults kr1 base wg acc :
  kr_nrels kr1 = kr_nrels kresults ->
  0 <= kr_nrels kresults ->
  kr_nrooms kresults < 2 ^ 32 ->
  kr_nrels kresults * kr_nrooms kresults < 2 ^ 32 ->
  contract (kr_nrels kresults) ->
  0 <= base -> 0 <= acc ->
  base + acc + foldr Z.add 0 (counts_of wg) <= kr_nrooms kresults ->
  Forall (store_in_bounds kresults)
    (concat (snd <$> zip_with (emit kr1 base)
                       (stairlike_offsets acc
                          (w_n_matches <$> (fst <$> (count <$> wg))))
                       (fst <$> (count <$> wg)))).
Proof.
  intros Hrels Hpos Hrooms Hsize Hprobe Hbase.
  revert acc. induction wg as [|gid wg IH]; intros acc Hacc Hfit.
  - constructor.
  - pose proof (count_stage_matches_range gid) as Hn.
    pose proof (counts_of_nonneg wg) as Hrest.
    change (counts_of (gid :: wg))
      with (w_n_matches (count gid).1 :: counts_of wg) in Hfit.
    simpl in Hfit. csimpl.
    apply Forall_app. split.
    + apply (emit_stage_in_bounds kresults kr1 base acc gid); auto. lia.
    + rewrite cl_uint_small by lia. apply IH; lia.
Qed.

(** With a probe that keeps to the matches it counted and counters that
    do not wrap, every store of a group lands inside [results]. *)
Lemma main_group_stores_in_bounds wg kresults :
  kr_wf kresults ->
  contract (kr_nrels kresults) ->
  kr_nitems kresults + foldr Z.add 0 (counts_of wg) < 2 ^ 32 ->
  kr_nrels kresults * kr_nrooms kresults < 2 ^ 32 ->
  Forall (store_in_bounds kresults) (g_trace (main_group wg kresults)).
Proof.
  intros (Hrels & Hrooms & Hitems) Hprobe Hsum Hsize.
  pose proof (counts_of_nonneg wg) as Hnn.
  assert (Hc : Forall (store_in_bounds kresults)
                      (concat (snd <$> (count <$> wg)))).
  { eapply List.Forall_impl; [|apply counted_events].
    intros [g idx [r|]| |]; simpl; tauto. }
  assert (Hr : forall n, Forall (store_in_bounds kresults)
                                (reserve kresults n).2).
  { intros n. unfold reserve. destruct (0 <? n); simpl; repeat constructor. }
  unfold kern_gpuhashjoin_main_group.
  destruct (nrels_mismatch kmhash kresults); [constructor|].
  cbv zeta. rewrite (scan_total wg).
  destruct (reserve_frame kresults (total_of wg)) as (Hro & Hre & _).
  rewrite Hro.
  destruct (Z.ltb_spec (kr_nrooms kresults)
              (cl_uint ((reserve kresults (total_of wg)).1.1 + total_of wg)))
    as [|Hfit]; cbn [g_trace].
  - apply Forall_app. split; [exact Hc | apply Hr].
  - apply Forall_app. split; [exact Hc|].
    apply Forall_app. split; [apply Hr|].
    unfold arithmetic_stairlike_add. cbn [fst].
    rewrite reserve_base in *.
    rewrite (total_of_exact wg) in * by lia.
    apply emitted_in_bounds; try assumption; try lia.
    + destruct (0 <? _); lia.
    + destruct (Z.ltb_spec 0 (foldr Z.add 0 (counts_of wg))).
      * rewrite cl_uint_small in Hfit by lia. lia.
      * lia.
Qed.

(** X15.  Let [total] be the sum of the match counts of a work-group and
    [base] the value the leader's [atomic_add] on [kresults->nitems]
    returned.  When [base + total] (a [cl_uint] sum, as in the source)
    exceeds [nrooms], every work-item of the group leaves with
    [StromError_DataStoreNoSpace], the trace of the group holds the
    counting calls and the one [atomic_add] only, so no entry of
    [results] is stored and the probe is not called to emit; [results]
    is the array on entry; the counter has been advanced already, and
    unless the sum wrapped it now exceeds [nrooms]; the write-back
    records the error.  For a whole launch: if the buffer starts without
    an error and with its counter within [nrooms], and ends without an
    error, then its counter is within [nrooms].  For any group, whether
    the check fails or not: when the probe stores only inside the slots
    of the matches it counted and neither the counter nor the size of
    [results] wraps, no store lands at or beyond index
    [nrooms * nrels]. *)
Theorem capacity_check_no_space :
  (forall (wg : list Z) (kresults : kern_resultbuf),
     wg <> [] ->
     kr_wf kresults ->
     kr_nrels kresults = cl_uint (ntables kmhash + 1) ->
     let total := total_of wg in
     let base := if 0 <? total then kr_nitems kresults else 0 in
     kr_nrooms kresults < cl_uint (base + total) ->
     let out := main_group wg kresults in
     g_errcodes out = (fun _ => StromError_DataStoreNoSpace) <$> wg /\
     g_trace out = concat (snd <$> (count <$> wg)) ++ [EvAtomicAdd total] /\
     Forall (fun ev => is_store ev = false) (g_trace out) /\
     Forall (fun ev => match ev with
                       | EvExecute _ _ (Some _) => False
                       | _ => True
                       end) (g_trace out) /\
     kr_results (g_kresults out) = kr_results kresults /\
     kr_nitems (g_kresults out) = cl_uint (kr_nitems kresults + total) /\
     (kr_nitems kresults + total < 2 ^ 32 ->
      kr_nrooms (g_kresults out) < kr_nitems (g_kresults out)) /\
     kr_errcode (g_kresults out) =
     STROM_SET_ERROR (kr_errcode kresults) StromError_DataStoreNoSpace /\
     kr_errcode (g_kresults out) <> StromError_Success) /\
  (forall (groups : list (list Z)) (kresults : kern_resultbuf),
     Forall (fun wg => wg <> []) groups ->
     kr_errcode kresults = StromError_Success ->
     kr_nitems kresults <= kr_nrooms kresults ->
     kr_errcode (main groups kresults).1 = StromError_Success ->
     kr_nitems (main groups kresults).1 <= kr_nrooms (main groups kresults).1)
  /\
  (forall (wg : list Z) (kresults : kern_resultbuf),
     kr_wf kresults ->
     contract (kr_nrels kresults) ->
     kr_nitems kresults + foldr Z.add 0 (counts_of wg) < 2 ^ 32 ->
     kr_nrels kresults * kr_nrooms kresults < 2 ^ 32 ->
     Forall (store_in_bounds kresults) (g_trace (main_group wg kresults))).
Proof.
  split; [|split; [|apply main_group_stores_in_bounds]].
  - intros wg kresults Hwg (Hrels & Hrooms & Hitems) Heq total base Hover out.
    subst out base total.
    assert (Hm : nrels_mismatch kmhash kresults = false).
    { unfold nrels_mismatch. rewrite Heq, Z.eqb_refl. reflexivity. }
    pose proof (total_of_range wg) as Htot.
    assert (Hb : (0 <? total_of wg) = true).
    { destruct (Z.ltb_spec 0 (total_of wg)) as [|Hz]; [reflexivity|].
      exfalso. assert (E : total_of wg = 0) by lia.
      rewrite E in Hover. change (cl_uint (0 + 0)) with 0 in Hover. lia. }
    assert (Hover' : kr_nrooms kresults <
                     cl_uint ((reserve kresults (total_of wg)).1.1
                              + total_of wg)).
    { rewrite reserve_base. exact Hover. }
    rewrite (main_group_no_space wg kresults Hm Hover').
    simpl.
    rewrite (group_errcode_const _ wg Hwg).
    unfold reserve. rewrite Hb. simpl.
    rewrite Hb in Hover.
    repeat split.
    + apply Forall_app. split.
      * eapply List.Forall_impl;
          [apply counting_call_not_store | apply counted_events].
      * repeat constructor.
    + apply Forall_app. split.
      * eapply List.Forall_impl; [|apply counted_events].
        intros [g idx [r|]| |]; simpl; tauto.
      * repeat constructor.
    + intros Hnowrap. rewrite cl_uint_small by lia.
      rewrite cl_uint_small in Hover by lia. exact Hover.
    + apply STROM_SET_ERROR_significant. discriminate.
  - intros groups kresults Hall He Hle.
    unfold kern_gpuhashjoin_main.
    apply (main_launch_counter_valid groups kresults [] Hall).
    intros _. exact Hle.
Qed.

End Facts.

Lemma nrels_mismatch_corruption_witness :
  kr_nrels (sample_results 3 8) <> cl_uint (ntables sample_multihash + 1) /\
  sample_main_group [0; 1; 2; 3] (sample_results 3 8) =
  {| g_kresults :=
       kr_set_errcode StromError_DataStoreCorruption (sample_results 3 8);
     g_errcodes := [StromError_DataStoreCorruption;
                    StromError_DataStoreCorruption;
                    StromError_DataStoreCorruption;
                    StromError_DataStoreCorruption];
     g_trace := [] |} /\
  sample_main [[0; 1]; [2; 3]] (sample_results 3 8) =
  (kr_set_errcode StromError_DataStoreCorruption (sample_results 3 8), []).
Proof.
  assert (Hne : kr_nrels (sample_results 3 8) <>
                cl_uint (ntables sample_multihash + 1))
    by (vm_compute; discriminate).
  destruct (nrels_mismatch_corruption unit sample_probe tt sample_multihash
              sample_outer sample_outer None [0; 1; 2; 3] [[0; 1]; [2; 3]]
              (sample_results 3 8) Hne)
    as (Hgroup & Hlaunch & _).
  - discriminate.
  - discriminate.
  - repeat constructor; discriminate.
  - split; [exact Hne|]. split; [exact Hgroup | exact Hlaunch].
Defined.

Lemma row_selection_witness :
  select_kds_index sample_outer
    (Some {| nvalids := 2; rindex := fun i => 2 - i |}) 1 = 1 /\
  select_kds_index sample_outer
    (Some {| nvalids := 2; rindex := fun i => 2 - i |}) 2 = 3 /\
  (count_stage unit sample_probe tt sample_multihash sample_outer
     sample_outer (Some {| nvalids := 2; rindex := fun i => 2 - i |}) 2).2
  = [].
Proof.
  pose (rm := {| nvalids := 2; rindex := fun i => 2 - i |}).
  split; [|split].
  - destruct (row_selection unit sample_probe tt sample_multihash
                sample_outer sample_outer (Some rm) 1) as (_ & Hmap & _).
    destruct (Hmap rm eq_refl) as [Hin _]; [simpl; lia|].
    destruct Hin as [_ Hval]; [simpl; lia|].
    apply Hval. simpl. lia.
  - destruct (row_selection unit sample_probe tt sample_multihash
                sample_outer sample_outer (Some rm) 2) as (_ & Hmap & _).
    destruct (Hmap rm eq_refl) as [_ Hout]; [simpl; lia|].
    apply Hout. simpl. lia.
  - destruct (row_selection unit sample_probe tt sample_multihash
                sample_outer sample_outer (Some rm) 2) as (_ & _ & Hzero).
    apply Hzero. vm_compute. discriminate.
Defined.

Lemma sample_probe_contract :
  probe_stores_counted unit sample_probe tt sample_multihash sample_outer
                       sample_outer 2.
Proof.
  intros e idx r Hidx. simpl in Hidx.
  destruct (Z.lt_ge_cases idx 0).
  - unfold sample_probe. cbn [x_stores]. rewrite seqZ_nil by lia.
    constructor.
  - assert (idx = 0 \/ idx = 1 \/ idx = 2) as [-> | [-> | ->]] by lia;
      repeat (constructor; [vm_compute; split; congruence|]); constructor.
Qed.

(** C3, on the code.  A buffer of 8 combinations of 2 slots whose
    counter holds 4294967294, and a work-group of the one work-item 2,
    which counts 3 matches: the [atomic_add] returns 4294967294, so
    [base + total] is 4294967297 and exceeds [nrooms], but the [cl_uint]
    sum the kernel compares is 1.  The work-item leaves with success,
    the counter ends at 1, and the second stage stores at the indices
    4294967292 to 4294967297 of [results], far beyond
    [nrooms * nrels = 16].  The same stores are made by the second
    work-group of a launch that starts from a counter of 0, after a
    first work-group whose 4294967294 matches did not fit has advanced
    the counter. *)
Theorem capacity_check_wraps :
  let kresults :=
    {| kr_nrels := 2; kr_nrooms := 8; kr_nitems := 4294967294;
       kr_errcode := StromError_Success; kr_results := fun _ => 0 |} in
  let out := sample_main_group [2] kresults in
  let stores :=
    [EvExecute 2 2 (Some 4294967292);
     EvStore 4294967292 3; EvStore 4294967293 64;
     EvStore 4294967294 3; EvStore 4294967295 128;
     EvStore 4294967296 3; EvStore 4294967297 192] in
  let launched :=
    kern_gpuhashjoin_main unit sample_wide_probe tt sample_multihash
                          sample_outer sample_outer None
                          [[0]; [2]] (sample_results 2 8) in
  (g_trace out = [EvExecute 2 2 None; EvAtomicAdd 3] ++ stores /\
   g_errcodes out = [StromError_Success] /\
   kr_errcode (g_kresults out) = StromError_Success /\
   kr_nitems (g_kresults out) = 1 /\
   kr_results (g_kresults out) 4294967292 = 3 /\
   kr_nrels kresults * kr_nrooms kresults = 16) /\
  (launched.2 =
   [EvExecute 0 0 None; EvAtomicAdd 4294967294;
    EvExecute 2 2 None; EvAtomicAdd 3] ++ stores /\
   kr_errcode launched.1 = StromError_DataStoreNoSpace /\
   kr_nitems launched.1 = 1).
Proof.
  cbv zeta. split; repeat split; vm_compute; reflexivity.
Qed.

Lemma capacity_check_no_space_witness :
  g_errcodes (sample_main_group [0; 1; 2; 3] (sample_results 2 5)) =
  [StromError_DataStoreNoSpace; StromError_DataStoreNoSpace;
   StromError_DataStoreNoSpace; StromError_DataStoreNoSpace] /\
  kr_nitems (g_kresults (sample_main_group [0; 1; 2; 3] (sample_results 2 5)))
  = 6 /\
  kr_nitems (sample_main [[0; 1]; [2; 3]] (sample_results 2 8)).1 <= 8 /\
  Forall (store_in_bounds (sample_results 2 6))
         (g_trace (sample_main_group [0; 1; 2; 3] (sample_results 2 6))).
Proof.
  destruct (capacity_check_no_space unit sample_probe tt sample_multihash
              sample_outer sample_outer None) as (Hgroup & Hlaunch & Hstores).
  split; [|split; [|split]].
  - apply (Hgroup [0; 1; 2; 3] (sample_results 2 5)).
    + discriminate.
    + vm_compute. intuition discriminate.
    + reflexivity.
    + vm_compute. reflexivity.
  - apply (Hgroup [0; 1; 2; 3] (sample_results 2 5)).
    + discriminate.
    + vm_compute. intuition discriminate.
    + reflexivity.
    + vm_compute. reflexivity.
  - apply (Hlaunch [[0; 1]; [2; 3]] (sample_results 2 8)).
    + repeat constructor; discriminate.
    + reflexivity.
    + vm_compute. discriminate.
    + reflexivity.
  - apply (Hstores [0; 1; 2; 3] (sample_results 2 6)).
    + vm_compute. intuition discriminate.
    + exact sample_probe_contract.
    + vm_compute. reflexivity.
    + vm_compute. reflexivity.
Defined.

End ExecFacts.

(** ** Running a projection kernel *)

Module LaunchFacts.

Import Projection.

Lemma foldl_set_error_shift a l :
  foldl STROM_SET_ERROR a l =
  STROM_SET_ERROR a (foldl STROM_SET_ERROR StromError_Success l).
Proof.
  revert a. induction l as [|e l IH]; intros a; simpl.
  - symmetry. apply STROM_SET_ERROR_Success_r.
  - rewrite (IH (STROM_SET_ERROR a e)), (IH e).
    apply STROM_SET_ERROR_assoc.
Qed.

Lemma writeback_foldl kresults errcodes :
  kern_writeback_error_status kresults errcodes =
  kr_set_errcode (foldl STROM_SET_ERROR (kr_errcode kresults) errcodes)
                 kresults.
Proof.
  unfold kern_writeback_error_status, group_errcode.
  rewrite <- foldl_set_error_shift. reflexivity.
Qed.

Lemma foldl_set_error_all_success {A} (code : A -> StromError) e l :
  Forall (fun g => code g = StromError_Success) l ->
  foldl STROM_SET_ERROR e (code <$> l) = e.
Proof.
  revert e. induction l as [|g l IH]; intros e Hall; simpl; [reflexivity|].
  inversion Hall as [|? ? Hg Hl]; subst.
  rewrite Hg, STROM_SET_ERROR_Success_r. apply IH. exact Hl.
Qed.

Lemma foldl_set_error_some {A} (code : A -> StromError) c e l :
  Forall (fun g => code g = StromError_Success \/ code g = c) l ->
  Exists (fun g => code g = c) l ->
  foldl STROM_SET_ERROR e (code <$> l) = STROM_SET_ERROR e c.
Proof.
  revert e. induction l as [|g l IH]; intros e Hall Hex; simpl.
  - inversion Hex.
  - inversion Hall as [|? ? Hg Hl]; subst.
    destruct (decide (Exists (fun g => code g = c) l)) as [Hex'|Hno].
    + rewrite (IH _ Hl Hex').
      destruct Hg as [-> | ->].
      * rewrite STROM_SET_ERROR_Success_r. reflexivity.
      * apply STROM_SET_ERROR_idem.
    + apply Exists_cons in Hex as [Hc|Hc]; [|contradiction].
      rewrite Hc.
      apply foldl_set_error_all_success.
      apply Forall_forall. intros x Hx.
      destruct (proj1 (Forall_forall _ _) Hl x Hx) as [Hs|Hcx]; [exact Hs|].
      exfalso. apply Hno. apply Exists_exists. eauto.
Qed.

Lemma worker_dest_idem upd n g1 g2 d :
  g1 = 0 ->
  worker_dest upd n g2 (worker_dest upd n g1 d) = worker_dest upd n g1 d.
Proof.
  intros ->. unfold worker_dest.
  destruct upd; simpl; [|reflexivity].
  destruct (g2 =? 0); reflexivity.
Qed.

Lemma foldl_worker_dest_absent upd n l d :
  0 ∉ l -> foldl (fun acc g => worker_dest upd n g acc) d l = d.
Proof.
  revert d. induction l as [|g l IH]; intros d Hl; simpl; [reflexivity|].
  apply not_elem_of_cons in Hl as [Hg Hl].
  unfold worker_dest at 2.
  destruct (Z.eqb_spec g 0); [congruence|].
  rewrite andb_false_r. apply IH. exact Hl.
Qed.

Lemma foldl_worker_dest upd n l d :
  NoDup l -> 0 ∈ l ->
  foldl (fun acc g => worker_dest upd n g acc) d l =
  if upd then kds_set_nitems n d else d.
Proof.
  revert d. induction l as [|g l IH]; intros d Hnd Hin; simpl.
  - inversion Hin.
  - pose proof (NoDup_cons_1_1 _ _ Hnd) as Hg.
    apply NoDup_cons_1_2 in Hnd.
    destruct (decide (g = 0)) as [->|Hne].
    + rewrite foldl_worker_dest_absent by exact Hg.
      unfold worker_dest. simpl. rewrite andb_true_r. reflexivity.
    + apply elem_of_cons in Hin as [Heq|Hin]; [congruence|].
      rewrite (IH _ Hnd Hin). unfold worker_dest.
      destruct (Z.eqb_spec g 0); [congruence|].
      rewrite andb_false_r. reflexivity.
Qed.

Lemma worker_writes_absent upd n l :
  0 ∉ l -> concat (worker_writes upd n <$> l) = [].
Proof.
  induction l as [|g l IH]; intros Hl; csimpl; [reflexivity|].
  apply not_elem_of_cons in Hl as [Hg Hl].
  rewrite (IH Hl). unfold worker_writes.
  destruct (Z.eqb_spec g 0); [congruence|].
  rewrite andb_false_r. reflexivity.
Qed.

Lemma concat_worker_writes upd n l :
  NoDup l -> 0 ∈ l ->
  concat (worker_writes upd n <$> l) =
  if upd then [WrNitems 0 n] else [].
Proof.
  induction l as [|g l IH]; intros Hnd Hin; csimpl.
  - inversion Hin.
  - pose proof (NoDup_cons_1_1 _ _ Hnd) as Hg.
    apply NoDup_cons_1_2 in Hnd.
    destruct (decide (g = 0)) as [->|Hne].
    + rewrite worker_writes_absent by exact Hg.
      unfold worker_writes. simpl. rewrite andb_true_r.
      destruct upd; reflexivity.
    + apply elem_of_cons in Hin as [Heq|Hin]; [congruence|].
      rewrite (IH Hnd Hin). unfold worker_writes.
      destruct (Z.eqb_spec g 0); [congruence|].
      rewrite andb_false_r. reflexivity.
Qed.

Section Uniform.

Variable body : kern_resultbuf -> Z -> kstep unit.
Variable InvK : kern_resultbuf -> Prop.
Variable InvD : kern_data_store -> Prop.
Variable code : Z -> StromError.
Variable upd : bool.
Variable n : Z.

Hypothesis InvK_errcode : forall kr e, InvK kr -> InvK (kr_set_errcode e kr).
Hypothesis InvD_nitems : forall d, InvD d -> InvD (kds_set_nitems n d).
Hypothesis worker_outcome : forall kr gid d,
  InvK kr -> InvD d ->
  run_worker (body kr) gid d =
  (code gid, worker_dest upd n gid d, worker_writes upd n gid).

Lemma InvD_worker_dest gid d : InvD d -> InvD (worker_dest upd n gid d).
Proof.
  intros Hd. unfold worker_dest. destruct (upd && (gid =? 0)); auto.
Qed.

Lemma run_workers_uniform kr wg d :
  InvK kr -> InvD d ->
  run_workers (body kr) wg d =
  (code <$> wg,
   foldl (fun acc g => worker_dest upd n g acc) d wg,
   concat (worker_writes upd n <$> wg)).
Proof.
  intros Hk. revert d. induction wg as [|gid wg IH]; intros d Hd.
  - reflexivity.
  - cbn [run_workers]. rewrite (worker_outcome kr gid d Hk Hd).
    cbn [fst snd]. rewrite (IH _ (InvD_worker_dest gid d Hd)). reflexivity.
Qed.

Lemma run_group_uniform wg ks :
  InvK (k_results ks) -> InvD (k_dest ks) ->
  run_group body wg ks =
  {| k_results :=
       kr_set_errcode
         (foldl STROM_SET_ERROR (kr_errcode (k_results ks)) (code <$> wg))
         (k_results ks);
     k_dest := foldl (fun acc g => worker_dest upd n g acc) (k_dest ks) wg;
     k_writes := k_writes ks ++ concat (worker_writes upd n <$> wg) |}.
Proof.
  intros Hk Hd. unfold run_group.
  rewrite (run_workers_uniform _ wg _ Hk Hd). cbn [fst snd].
  rewrite writeback_foldl. reflexivity.
Qed.

Lemma InvD_foldl wg d :
  InvD d -> InvD (foldl (fun acc g => worker_dest upd n g acc) d wg).
Proof.
  revert d. induction wg as [|g wg IH]; intros d Hd; simpl; [exact Hd|].
  apply IH. apply InvD_worker_dest. exact Hd.
Qed.

Lemma run_kernel_uniform groups ks :
  InvK (k_results ks) -> InvD (k_dest ks) ->
  run_kernel body groups ks =
  {| k_results :=
       kr_set_errcode
         (foldl STROM_SET_ERROR (kr_errcode (k_results ks))
                (code <$> concat groups))
         (k_results ks);
     k_dest := foldl (fun acc g => worker_dest upd n g acc) (k_dest ks)
                     (concat groups);
     k_writes := k_writes ks ++ concat (worker_writes upd n <$> concat groups)
  |}.
Proof.
  revert ks. induction groups as [|wg gs IH]; intros ks Hk Hd.
  - cbn. rewrite kr_set_errcode_same, app_nil_r. destruct ks; reflexivity.
  - change (run_kernel body (wg :: gs) ks)
      with (run_kernel body gs (run_group body wg ks)).
    rewrite (run_group_uniform wg ks Hk Hd).
    rewrite IH; cbn [k_results k_dest k_writes].
    + cbn [concat]. rewrite !fmap_app, !foldl_app, concat_app, app_assoc.
      reflexivity.
    + apply InvK_errcode. exact Hk.
    + apply InvD_foldl. exact Hd.
Qed.

End Uniform.

End LaunchFacts.

(** ** The projection kernels *)

Module ProjectionFacts.

Import Projection LaunchFacts Samples.

Lemma launch_uniform (body : kern_resultbuf -> Z -> kstep unit)
      (InvK : kern_resultbuf -> Prop) (InvD : kern_data_store -> Prop)
      (code : Z -> StromError) (upd : bool) (n : Z)
      (groups : list (list Z)) kresults kds_dest :
  (forall kr e, InvK kr -> InvK (kr_set_errcode e kr)) ->
  (forall d, InvD d -> InvD (kds_set_nitems n d)) ->
  (forall kr gid d, InvK kr -> InvD d ->
     run_worker (body kr) gid d =
     (code gid, worker_dest upd n gid d, worker_writes upd n gid)) ->
  ndrange_ok groups ->
  InvK kresults -> InvD kds_dest ->
  run_kernel body groups (launch kresults kds_dest) =
  {| k_results :=
       kr_set_errcode
         (foldl STROM_SET_ERROR (kr_errcode kresults)
                (code <$> concat groups)) kresults;
     k_dest := if upd then kds_set_nitems n kds_dest else kds_dest;
     k_writes := if upd then [WrNitems 0 n] else [] |}.
Proof.
  intros HK HD Hw (Hnd & H0 & _) Hk Hd.
  rewrite (run_kernel_uniform body InvK InvD code upd n HK HD Hw);
    [|exact Hk|exact Hd].
  cbn [launch k_results k_dest k_writes app].
  rewrite (foldl_worker_dest upd n _ _ Hnd H0).
  rewrite (concat_worker_writes upd n _ Hnd H0). reflexivity.
Qed.

Lemma ndrange_nonempty groups : ndrange_ok groups -> concat groups <> [].
Proof.
  intros (_ & H0 & _) E. rewrite E in H0. inversion H0.
Qed.

Section Facts.

Variable kmhash : kern_multihash.
Variable kds : kern_data_store.
Variable kern_get_tuple_rs : kern_data_store -> Z -> option Z.
Variable kern_get_tuple_rsflat : kern_data_store -> Z -> option Z.
Variable projection_row_assemble : Z -> Z -> kstep unit.
Variable slot_extract_tuple :
  StromError -> Z -> tuple_source -> option Z ->
  StromError * list (Z * Z * bool).

Abbreviation row_kernel :=
  (kern_gpuhashjoin_projection_row kds projection_row_assemble).
Abbreviation slot_kernel :=
  (kern_gpuhashjoin_projection_slot kmhash kds kern_get_tuple_rs
                                    kern_get_tuple_rsflat slot_extract_tuple).
Abbreviation slot_loop :=
  (slot_depth_loop kmhash kds kern_get_tuple_rs kern_get_tuple_rsflat
                   slot_extract_tuple).
Abbreviation slot_step :=
  (slot_depth kmhash kds kern_get_tuple_rs kern_get_tuple_rsflat
              slot_extract_tuple).

(** *** One work-item of the row kernel *)

Lemma row_worker_corruption kresults gid d :
  negb (source_is_row kds) ||
  negb (bool_decide (kds_format_ d = KDS_FORMAT_ROW_FLAT)) = true ->
  run_worker (row_kernel kresults) gid d =
  (StromError_DataStoreCorruption, d, []).
Proof.
  intros Hbad.
  unfold run_worker, kern_gpuhashjoin_projection_row, bind, read_dest, when_.
  cbn [p_dest]. rewrite Hbad. reflexivity.
Qed.

Lemma row_worker_no_space kresults gid d :
  negb (source_is_row kds) ||
  negb (bool_decide (kds_format_ d = KDS_FORMAT_ROW_FLAT)) = false ->
  nitems_overflow kresults d = true ->
  run_worker (row_kernel kresults) gid d =
  (StromError_DataStoreNoSpace, d, []).
Proof.
  intros Hfmt Hover.
  unfold run_worker, kern_gpuhashjoin_projection_row, bind, read_dest, when_.
  cbn [p_dest]. rewrite Hfmt. cbn [ret]. rewrite Hover. reflexivity.
Qed.

Lemma row_worker_exit kresults gid d :
  negb (source_is_row kds) ||
  negb (bool_decide (kds_format_ d = KDS_FORMAT_ROW_FLAT)) = false ->
  nitems_overflow kresults d = false ->
  run_worker (row_kernel kresults) gid d =
  (StromError_Success,
   worker_dest true (kr_nitems kresults) gid d,
   worker_writes true (kr_nitems kresults) gid).
Proof.
  intros Hfmt Hover.
  unfold run_worker, kern_gpuhashjoin_projection_row, bind, read_dest, when_.
  cbn [p_dest]. rewrite Hfmt. cbn [ret]. rewrite Hover. cbn [ret].
  unfold worker_dest, worker_writes. cbn [andb].
  destruct (gid =? 0); reflexivity.
Qed.

(** *** A launch of the row kernel *)

Lemma same_counts_errcode kresults kr e :
  same_counts kresults kr -> same_counts kresults (kr_set_errcode e kr).
Proof. intros H. exact H. Qed.

Lemma same_counts_refl kresults : same_counts kresults kresults.
Proof. split; reflexivity. Qed.

Lemma nitems_overflow_same kresults kr d d' :
  same_counts kresults kr -> kds_nrooms d' = kds_nrooms d ->
  nitems_overflow kr d' = nitems_overflow kresults d.
Proof.
  intros [Hi Hr] Hd. unfold nitems_overflow. rewrite Hi, Hr, Hd. reflexivity.
Qed.

Lemma row_launch_corruption groups kresults kds_dest :
  ndrange_ok groups ->
  negb (source_is_row kds) ||
  negb (bool_decide (kds_format_ kds_dest = KDS_FORMAT_ROW_FLAT)) = true ->
  run_kernel row_kernel groups (launch kresults kds_dest) =
  {| k_results :=
       kr_set_errcode
         (STROM_SET_ERROR (kr_errcode kresults)
                          StromError_DataStoreCorruption) kresults;
     k_dest := kds_dest;
     k_writes := [] |}.
Proof.
  intros Hnd Hbad.
  rewrite (launch_uniform row_kernel (fun _ => True)
             (fun d => kds_format_ d = kds_format_ kds_dest)
             (fun _ => StromError_DataStoreCorruption) false 0);
    try done.
  - rewrite (foldl_set_error_const _ _ _ (ndrange_nonempty _ Hnd)).
    reflexivity.
  - intros kr gid d _ Hd. apply (row_worker_corruption kr gid d).
    rewrite Hd. exact Hbad.
Qed.

Lemma row_launch_no_space groups kresults kds_dest :
  ndrange_ok groups ->
  negb (source_is_row kds) ||
  negb (bool_decide (kds_format_ kds_dest = KDS_FORMAT_ROW_FLAT)) = false ->
  nitems_overflow kresults kds_dest = true ->
  run_kernel row_kernel groups (launch kresults kds_dest) =
  {| k_results :=
       kr_set_errcode
         (STROM_SET_ERROR (kr_errcode kresults)
                          StromError_DataStoreNoSpace) kresults;
     k_dest := kds_dest;
     k_writes := [] |}.
Proof.
  intros Hnd Hfmt Hover.
  rewrite (launch_uniform row_kernel (same_counts kresults)
             (fun d => kds_format_ d = kds_format_ kds_dest /\
                       kds_nrooms d = kds_nrooms kds_dest)
             (fun _ => StromError_DataStoreNoSpace) false 0);
    try done.
  - rewrite (foldl_set_error_const _ _ _ (ndrange_nonempty _ Hnd)).
    reflexivity.
  - intros kr gid d Hk [Hf Hr]. apply (row_worker_no_space kr gid d).
    + rewrite Hf. exact Hfmt.
    + rewrite (nitems_overflow_same kresults kr kds_dest d Hk Hr).
      exact Hover.
Qed.

Lemma row_launch_exit groups kresults kds_dest :
  ndrange_ok groups ->
  negb (source_is_row kds) ||
  negb (bool_decide (kds_format_ kds_dest = KDS_FORMAT_ROW_FLAT)) = false ->
  nitems_overflow kresults kds_dest = false ->
  run_kernel row_kernel groups (launch kresults kds_dest) =
  {| k_results := kresults;
     k_dest := kds_set_nitems (kr_nitems kresults) kds_dest;
     k_writes := [WrNitems 0 (kr_nitems kresults)] |}.
Proof.
  intros Hnd Hfmt Hover.
  rewrite (launch_uniform row_kernel (same_counts kresults)
             (fun d => kds_format_ d = kds_format_ kds_dest /\
                       kds_nrooms d = kds_nrooms kds_dest)
             (fun _ => StromError_Success) true (kr_nitems kresults));
    try done.
  - rewrite foldl_set_error_all_success by (apply Forall_true; done).
    rewrite kr_set_errcode_same. reflexivity.
  - intros kr gid d Hk [Hf Hr].
    destruct Hk as [Hi Hro]. rewrite <- Hi.
    apply (row_worker_exit kr gid d).
    + rewrite Hf. exact Hfmt.
    + rewrite (nitems_overflow_same kresults kr kds_dest d (conj Hi Hro) Hr).
      exact Hover.
Qed.

Lemma format_test_passes d :
  source_is_row kds = true ->
  kds_format_ d = KDS_FORMAT_ROW_FLAT ->
  negb (source_is_row kds) ||
  negb (bool_decide (kds_format_ d = KDS_FORMAT_ROW_FLAT)) = false.
Proof.
  intros -> Hd. rewrite bool_decide_eq_true_2 by exact Hd. reflexivity.
Qed.

Lemma capacity_test_passes kresults d :
  kr_nitems kresults <= kr_nrooms kresults ->
  kr_nitems kresults <= kds_nrooms d ->
  nitems_overflow kresults d = false.
Proof.
  intros H1 H2. unfold nitems_overflow.
  apply orb_false_iff. split; apply Z.ltb_ge; assumption.
Qed.

(** C2.  A launch of the row kernel whose stores have the formats it
    asks for and whose [kresults->nitems] is within both capacities:
    every work-item leaves at the [goto out] that follows the update of
    the item count, whatever the statements after it would do.  The only
    write to the destination is [kds_dest->nitems = kresults->nitems],
    made once, by work-item 0; [usage], the row items and the arena are
    those on entry, and the result buffer, its error code included, is
    the one on entry. *)
Theorem row_projection_exits_early (groups : list (list Z))
        (kresults : kern_resultbuf) (kds_dest : kern_data_store) :
  ndrange_ok groups ->
  source_is_row kds = true ->
  kds_format_ kds_dest = KDS_FORMAT_ROW_FLAT ->
  kr_nitems kresults <= kr_nrooms kresults ->
  kr_nitems kresults <= kds_nrooms kds_dest ->
  let final := run_kernel row_kernel groups (launch kresults kds_dest) in
  k_writes final = [WrNitems 0 (kr_nitems kresults)] /\
  k_dest final = kds_set_nitems (kr_nitems kresults) kds_dest /\
  kds_usage (k_dest final) = kds_usage kds_dest /\
  kds_rowitem (k_dest final) = kds_rowitem kds_dest /\
  kds_arena (k_dest final) = kds_arena kds_dest /\
  k_results final = kresults /\
  (kr_errcode kresults = StromError_Success ->
   kr_errcode (k_results final) = StromError_Success).
Proof.
  intros Hnd Hsrc Hdst Hr Hd final. subst final.
  rewrite (row_launch_exit groups kresults kds_dest Hnd
             (format_test_passes kds_dest Hsrc Hdst)
             (capacity_test_passes kresults kds_dest Hr Hd)).
  cbn. repeat split; auto.
Qed.

(** *** One work-item of the slot kernel *)

Lemma slot_worker_no_space kresults gid d :
  nitems_overflow kresults d = true ->
  run_worker (slot_kernel kresults) gid d =
  (StromError_DataStoreNoSpace, d, []).
Proof.
  intros Hover.
  unfold run_worker, kern_gpuhashjoin_projection_slot, bind, read_dest, when_.
  cbn [p_dest]. rewrite Hover. reflexivity.
Qed.

Lemma slot_worker_corruption kresults gid d :
  nitems_overflow kresults d = false ->
  negb (source_is_row kds) ||
  negb (bool_decide (kds_format_ d = KDS_FORMAT_TUPSLOT)) = true ->
  run_worker (slot_kernel kresults) gid d =
  (if kr_nitems kresults <=? gid
   then StromError_Success else StromError_DataStoreCorruption,
   worker_dest true (kr_nitems kresults) gid d,
   worker_writes true (kr_nitems kresults) gid).
Proof.
  intros Hover Hbad.
  unfold run_worker, kern_gpuhashjoin_projection_slot, bind, read_dest, when_.
  cbn [p_dest]. rewrite Hover. cbn [ret].
  unfold worker_dest, worker_writes. cbn [andb].
  destruct (gid =? 0); cbn [write_nitems ret p_dest p_errcode p_writes];
    destruct (kr_nitems kresults <=? gid);
    cbn [goto_out ret p_dest p_errcode p_writes snd kds_set_nitems kds_format_];
    try reflexivity; rewrite Hbad; reflexivity.
Qed.

Lemma slot_frame_refl st : slot_frame st st.
Proof. repeat split. Qed.

Lemma slot_frame_trans st1 st2 st3 :
  slot_frame st1 st2 -> slot_frame st2 st3 -> slot_frame st1 st3.
Proof.
  intros (A1 & A2 & A3 & A4 & A5) (B1 & B2 & B3 & B4 & B5).
  repeat split; congruence.
Qed.

Lemma write_slot_frame gid s st : slot_frame st (write_slot gid s st).
Proof.
  unfold slot_frame, write_slot. cbn.
  rewrite List.filter_app. cbn. rewrite app_nil_r. repeat split.
Qed.

Lemma write_slots_frame gid stores st :
  slot_frame st (foldl (fun acc s => write_slot gid s acc) st stores).
Proof.
  revert st. induction stores as [|s stores IH]; intros st; simpl.
  - apply slot_frame_refl.
  - eapply slot_frame_trans; [apply write_slot_frame | apply IH].
Qed.

Lemma slot_step_frame kresults gid rbuffer depth st :
  (slot_step kresults gid rbuffer depth st).1 = Next tt /\
  slot_frame st (slot_step kresults gid rbuffer depth st).2.
Proof.
  unfold slot_depth. cbn [fst snd]. split; [reflexivity|].
  eapply slot_frame_trans; [|apply write_slots_frame].
  repeat split.
Qed.

Lemma slot_loop_frame kresults gid rbuffer n depth st :
  (slot_loop kresults gid rbuffer n depth st).1 = Next tt /\
  slot_frame st (slot_loop kresults gid rbuffer n depth st).2.
Proof.
  revert depth st. induction n as [|n IH]; intros depth st.
  - split; [reflexivity | apply slot_frame_refl].
  - cbn [slot_depth_loop]. unfold bind.
    destruct (slot_step_frame kresults gid rbuffer depth st) as [Hn Hf].
    destruct (slot_step kresults gid rbuffer depth st) as [[[]|] st1];
      cbn [fst snd] in *; [|discriminate].
    destruct (IH (depth + 1) st1) as [Hn' Hf'].
    split; [exact Hn' | eapply slot_frame_trans; eassumption].
Qed.

(** The loop runs the depths from [depth] on, one after the other. *)
Lemma slot_loop_unroll kresults gid rbuffer n depth st :
  slot_loop kresults gid rbuffer n depth st =
  (Next tt,
   foldl (fun acc d => (slot_step kresults gid rbuffer d acc).2) st
         (seqZ depth (Z.of_nat n))).
Proof.
  revert depth st. induction n as [|n IH]; intros depth st.
  - reflexivity.
  - rewrite seqZ_cons by lia. cbn [slot_depth_loop foldl]. unfold bind.
    destruct (slot_step_frame kresults gid rbuffer depth st) as [Hn _].
    destruct (slot_step kresults gid rbuffer depth st) as [[[]|] st1];
      cbn [fst snd] in *; [|discriminate].
    rewrite IH. replace (Z.pred (Z.of_nat (S n))) with (Z.of_nat n) by lia.
    replace (Z.succ depth) with (depth + 1) by lia. reflexivity.
Qed.

(** Whatever the formats and the extraction do, a work-item that passes
    the capacity test writes the item count if it is work-item 0, and
    never otherwise. *)
Lemma slot_worker_nitems kresults gid d :
  nitems_overflow kresults d = false ->
  let r := run_worker (slot_kernel kresults) gid d in
  List.filter is_nitems_write r.2 =
  worker_writes true (kr_nitems kresults) gid /\
  kds_nitems r.1.2 =
  (if gid =? 0 then kr_nitems kresults else kds_nitems d) /\
  kds_nrooms r.1.2 = kds_nrooms d.
Proof.
  intros Hover.
  unfold run_worker, kern_gpuhashjoin_projection_slot, bind, read_dest, when_.
  cbn [p_dest]. rewrite Hover. cbn [ret].
  unfold worker_writes. cbn [andb].
  destruct (gid =? 0); cbn [write_nitems ret p_dest p_errcode p_writes];
    destruct (kr_nitems kresults <=? gid);
    cbn [goto_out ret p_dest p_errcode p_writes snd fst];
    try (repeat split; reflexivity).
  all: match goal with
       | |- context [if ?c then _ else _] => destruct c
       end;
    cbn [set_error goto_out ret p_dest p_errcode p_writes snd fst];
    try (repeat split; reflexivity).
  all: match goal with
       | |- context [slot_loop ?k ?g ?rb ?n ?dp ?st] =>
           destruct (slot_loop_frame k g rb n dp st)
             as (_ & F1 & F2 & F3 & _);
           cbn [p_dest p_writes] in F1, F2, F3
       end.
  all: rewrite F1, F2, F3; repeat split; reflexivity.
Qed.

(** *** A launch of the slot kernel *)

Lemma slot_launch_no_space groups kresults kds_dest :
  ndrange_ok groups ->
  nitems_overflow kresults kds_dest = true ->
  run_kernel slot_kernel groups (launch kresults kds_dest) =
  {| k_results :=
       kr_set_errcode
         (STROM_SET_ERROR (kr_errcode kresults)
                          StromError_DataStoreNoSpace) kresults;
     k_dest := kds_dest;
     k_writes := [] |}.
Proof.
  intros Hnd Hover.
  rewrite (launch_uniform slot_kernel (same_counts kresults)
             (fun d => kds_nrooms d = kds_nrooms kds_dest)
             (fun _ => StromError_DataStoreNoSpace) false 0);
    try done.
  - rewrite (foldl_set_error_const _ _ _ (ndrange_nonempty _ Hnd)).
    reflexivity.
  - intros kr gid d Hk Hr. apply (slot_worker_no_space kr gid d).
    rewrite (nitems_overflow_same kresults kr kds_dest d Hk Hr).
    exact Hover.
Qed.

Lemma slot_launch_corruption groups kresults kds_dest :
  ndrange_ok groups ->
  nitems_overflow kresults kds_dest = false ->
  negb (source_is_row kds) ||
  negb (bool_decide (kds_format_ kds_dest = KDS_FORMAT_TUPSLOT)) = true ->
  run_kernel slot_kernel groups (launch kresults kds_dest) =
  {| k_results :=
       if 0 <? kr_nitems kresults
       then kr_set_errcode
              (STROM_SET_ERROR (kr_errcode kresults)
                               StromError_DataStoreCorruption) kresults
       else kresults;
     k_dest := kds_set_nitems (kr_nitems kresults) kds_dest;
     k_writes := [WrNitems 0 (kr_nitems kresults)] |}.
Proof.
  intros Hnd Hover Hbad.
  rewrite (launch_uniform slot_kernel (same_counts kresults)
             (fun d => kds_format_ d = kds_format_ kds_dest /\
                       kds_nrooms d = kds_nrooms kds_dest)
             (fun gid => if kr_nitems kresults <=? gid
                         then StromError_Success
                         else StromError_DataStoreCorruption)
             true (kr_nitems kresults));
    try done.
  - destruct Hnd as (_ & H0 & Hpos). f_equal.
    destruct (Z.ltb_spec 0 (kr_nitems kresults)) as [Hn|Hn].
    + rewrite (foldl_set_error_some _ StromError_DataStoreCorruption).
      * reflexivity.
      * apply Forall_true. intros g. destruct (_ <=? g); auto.
      * apply Exists_exists. exists 0.
        split; [apply list_elem_of_In; exact H0|].
        destruct (Z.leb_spec (kr_nitems kresults) 0); [lia|reflexivity].
    + rewrite foldl_set_error_all_success.
      * apply kr_set_errcode_same.
      * eapply List.Forall_impl; [|exact Hpos]. intros g Hg. simpl in Hg.
        destruct (Z.leb_spec (kr_nitems kresults) g); [reflexivity|lia].
  - intros kr gid d Hk [Hf Hr].
    destruct Hk as [Hi Hro]. rewrite <- Hi.
    apply (slot_worker_corruption kr gid d).
    + rewrite (nitems_overflow_same kresults kr kds_dest d (conj Hi Hro) Hr).
      exact Hover.
    + rewrite Hf. exact Hbad.
Qed.

Lemma foldl_nitems_absent (n a : Z) l :
  0 ∉ l -> foldl (fun acc g => if g =? 0 then n else acc) a l = a.
Proof.
  revert a. induction l as [|g l IH]; intros a Hl; simpl; [reflexivity|].
  apply not_elem_of_cons in Hl as [Hg Hl].
  destruct (Z.eqb_spec g 0); [congruence|]. apply IH. exact Hl.
Qed.

Lemma foldl_nitems_present (n a : Z) l :
  0 ∈ l -> foldl (fun acc g => if g =? 0 then n else acc) a l = n.
Proof.
  revert a. induction l as [|g l IH]; intros a Hl; simpl.
  - inversion Hl.
  - destruct (decide (0 ∈ l)) as [Hin|Hout]; [apply IH; exact Hin|].
    apply elem_of_cons in Hl as [<-|Hl]; [|contradiction].
    simpl. apply foldl_nitems_absent. exact Hout.
Qed.

Lemma slot_workers_nitems kresults wg d :
  nitems_overflow kresults d = false ->
  let r := run_workers (slot_kernel kresults) wg d in
  List.filter is_nitems_write r.2 =
  concat (worker_writes true (kr_nitems kresults) <$> wg) /\
  kds_nitems r.1.2 =
  foldl (fun acc g => if g =? 0 then kr_nitems kresults else acc)
        (kds_nitems d) wg /\
  kds_nrooms r.1.2 = kds_nrooms d.
Proof.
  revert d. induction wg as [|gid wg IH]; intros d Hover.
  - repeat split.
  - cbn [run_workers]. cbv zeta.
    destruct (slot_worker_nitems kresults gid d Hover) as (W1 & W2 & W3).
    destruct (IH (run_worker (slot_kernel kresults) gid d).1.2)
      as (R1 & R2 & R3).
    { rewrite <- Hover. apply nitems_overflow_same;
        [apply same_counts_refl | exact W3]. }
    cbn [fst snd]. rewrite List.filter_app, W1, R1, R2, R3, W2, W3.
    repeat split.
Qed.

Lemma slot_kernel_nitems groups ks :
  nitems_overflow (k_results ks) (k_dest ks) = false ->
  let final := run_kernel slot_kernel groups ks in
  List.filter is_nitems_write (k_writes final) =
  List.filter is_nitems_write (k_writes ks) ++
  concat (worker_writes true (kr_nitems (k_results ks)) <$> concat groups) /\
  kds_nitems (k_dest final) =
  foldl (fun acc g => if g =? 0 then kr_nitems (k_results ks) else acc)
        (kds_nitems (k_dest ks)) (concat groups) /\
  kds_nrooms (k_dest final) = kds_nrooms (k_dest ks).
Proof.
  revert ks. induction groups as [|wg gs IH]; intros ks Hover.
  - cbn. rewrite app_nil_r. repeat split.
  - change (run_kernel slot_kernel (wg :: gs) ks)
      with (run_kernel slot_kernel gs (run_group slot_kernel wg ks)).
    destruct (slot_workers_nitems (k_results ks) wg (k_dest ks) Hover)
      as (W1 & W2 & W3).
    destruct (IH (run_group slot_kernel wg ks)) as (R1 & R2 & R3).
    { unfold run_group. cbn [k_results k_dest].
      rewrite <- Hover. apply nitems_overflow_same;
        [split; reflexivity | exact W3]. }
    cbv zeta. rewrite R1, R2, R3. unfold run_group.
    cbn [k_results k_dest k_writes concat].
    rewrite List.filter_app, W1, W2, W3.
    rewrite fmap_app, concat_app, foldl_app, app_assoc.
    repeat split.
Qed.

Lemma slot_launch_nitems groups kresults kds_dest :
  ndrange_ok groups ->
  nitems_overflow kresults kds_dest = false ->
  let final := run_kernel slot_kernel groups (launch kresults kds_dest) in
  List.filter is_nitems_write (k_writes final) =
  [WrNitems 0 (kr_nitems kresults)] /\
  kds_nitems (k_dest final) = kr_nitems kresults.
Proof.
  intros (Hnd & H0 & _) Hover.
  destruct (slot_kernel_nitems groups (launch kresults kds_dest) Hover)
    as (R1 & R2 & _).
  cbv zeta. rewrite R1, R2. cbn [launch k_results k_dest k_writes].
  rewrite (concat_worker_writes true _ _ Hnd H0).
  rewrite (foldl_nitems_present _ _ _ H0). split; reflexivity.
Qed.

(** *** The tests, as propositions *)

Lemma format_test_spec (required : kds_format) d :
  negb (source_is_row kds) ||
  negb (bool_decide (kds_format_ d = required)) = true <->
  source_is_row kds = false \/ kds_format_ d <> required.
Proof.
  rewrite orb_true_iff, !negb_true_iff, bool_decide_eq_false. reflexivity.
Qed.

Lemma format_test_false (required : kds_format) d :
  ~ (source_is_row kds = false \/ kds_format_ d <> required) ->
  negb (source_is_row kds) ||
  negb (bool_decide (kds_format_ d = required)) = false.
Proof.
  intros Hok. apply not_true_is_false. intros Hbad.
  apply Hok. apply format_test_spec. exact Hbad.
Qed.

Lemma nitems_overflow_spec kresults d :
  nitems_overflow kresults d = true <->
  kr_nrooms kresults < kr_nitems kresults \/
  kds_nrooms d < kr_nitems kresults.
Proof.
  unfold nitems_overflow. rewrite orb_true_iff, !Z.ltb_lt. reflexivity.
Qed.

Lemma nitems_overflow_false kresults d :
  ~ (kr_nrooms kresults < kr_nitems kresults \/
     kds_nrooms d < kr_nitems kresults) ->
  nitems_overflow kresults d = false.
Proof.
  intros Hok. apply not_true_is_false. intros Hover.
  apply Hok. apply nitems_overflow_spec. exact Hover.
Qed.

(** C5, as the kernels have it.  The row kernel tests the formats
    first: a source that is not row-oriented or a destination that is not
    flat-row is signalled as [StromError_DataStoreCorruption] with no
    write to the destination; with the formats right,
    [kresults->nitems] above either capacity is signalled as
    [StromError_DataStoreNoSpace] with no write to the destination; with
    both tests passed the item count is written once, by work-item 0.
    The slot kernel tests the capacity first: [kresults->nitems] above
    either capacity is signalled as [StromError_DataStoreNoSpace] with no
    write to the destination, whatever the formats; otherwise the item
    count is written once, by work-item 0, whatever the formats; the
    formats are tested after that and only by the work-items below
    [kresults->nitems], so a source that is not row-oriented or a
    destination that is not slot-array is signalled as
    [StromError_DataStoreCorruption] when [kresults->nitems] is positive
    and is not signalled when it is zero. *)
Theorem projection_preconditions (groups : list (list Z))
        (kresults : kern_resultbuf) (kds_dest : kern_data_store) :
  ndrange_ok groups ->
  let n := kr_nitems kresults in
  let signalled := fun e =>
    kr_set_errcode (STROM_SET_ERROR (kr_errcode kresults) e) kresults in
  let over := kr_nrooms kresults < n \/ kds_nrooms kds_dest < n in
  let row_bad :=
    source_is_row kds = false \/
    kds_format_ kds_dest <> KDS_FORMAT_ROW_FLAT in
  let slot_bad :=
    source_is_row kds = false \/
    kds_format_ kds_dest <> KDS_FORMAT_TUPSLOT in
  let row := run_kernel row_kernel groups (launch kresults kds_dest) in
  let slot := run_kernel slot_kernel groups (launch kresults kds_dest) in
  (row_bad ->
   row = {| k_results := signalled StromError_DataStoreCorruption;
            k_dest := kds_dest; k_writes := [] |}) /\
  (~ row_bad -> over ->
   row = {| k_results := signalled StromError_DataStoreNoSpace;
            k_dest := kds_dest; k_writes := [] |}) /\
  (~ row_bad -> ~ over ->
   row = {| k_results := kresults;
            k_dest := kds_set_nitems n kds_dest;
            k_writes := [WrNitems 0 n] |}) /\
  (over ->
   slot = {| k_results := signalled StromError_DataStoreNoSpace;
             k_dest := kds_dest; k_writes := [] |}) /\
  (~ over ->
   List.filter is_nitems_write (k_writes slot) = [WrNitems 0 n] /\
   kds_nitems (k_dest slot) = n) /\
  (~ over -> slot_bad ->
   slot = {| k_results :=
               if 0 <? n
               then signalled StromError_DataStoreCorruption
               else kresults;
             k_dest := kds_set_nitems n kds_dest;
             k_writes := [WrNitems 0 n] |}).
Proof.
  intros Hnd n signalled over row_bad slot_bad row slot.
  subst n signalled over row_bad slot_bad row slot.
  repeat apply conj.
  - intros Hbad. apply row_launch_corruption; [exact Hnd|].
    apply format_test_spec. exact Hbad.
  - intros Hok Hover. apply row_launch_no_space; [exact Hnd| |].
    + apply format_test_false. exact Hok.
    + apply nitems_overflow_spec. exact Hover.
  - intros Hok Hfit. apply row_launch_exit; [exact Hnd| |].
    + apply format_test_false. exact Hok.
    + apply nitems_overflow_false. exact Hfit.
  - intros Hover. apply slot_launch_no_space; [exact Hnd|].
    apply nitems_overflow_spec. exact Hover.
  - intros Hfit. apply slot_launch_nitems; [exact Hnd|].
    apply nitems_overflow_false. exact Hfit.
  - intros Hfit Hbad. apply slot_launch_corruption; [exact Hnd| |].
    + apply nitems_overflow_false. exact Hfit.
    + apply format_test_spec. exact Hbad.
Qed.

(** *** The slots of a combination *)

Lemma cl_int_small z : 0 <= z < 2 ^ 31 -> cl_int z = z.
Proof.
  intros Hz. unfold cl_int. rewrite Z.mod_small by lia.
  destruct (Z.ltb_spec z (2 ^ 31)); [reflexivity | lia].
Qed.

(** A work-item below [kresults->nitems] that passes the tests extracts
    the tuples of the depths [0 .. nrels - 1] in order, reading the
    combination that starts at [results[nrels * gid]]. *)
Lemma slot_worker_projects kresults gid d :
  nitems_overflow kresults d = false ->
  negb (source_is_row kds) ||
  negb (bool_decide (kds_format_ d = KDS_FORMAT_TUPSLOT)) = false ->
  0 <= gid < kr_nitems kresults ->
  0 <= kr_nrels kresults < 2 ^ 31 ->
  kr_nrels kresults * gid < 2 ^ 64 ->
  run_worker (slot_kernel kresults) gid d =
  let st :=
    foldl (fun acc depth =>
             (slot_step kresults gid (kr_nrels kresults * gid) depth acc).2)
          {| p_errcode := StromError_Success;
             p_dest := worker_dest true (kr_nitems kresults) gid d;
             p_writes := worker_writes true (kr_nitems kresults) gid |}
          (seqZ 0 (kr_nrels kresults)) in
  (p_errcode st, p_dest st, p_writes st).
Proof.
  intros Hover Hfmt Hgid Hrels Hmul.
  unfold run_worker, kern_gpuhashjoin_projection_slot, bind, read_dest, when_.
  cbn [p_dest]. rewrite Hover. cbn [ret].
  rewrite (cl_int_small _ Hrels), size_t_small by lia.
  unfold worker_dest, worker_writes. cbn [andb].
  destruct (Z.leb_spec (kr_nitems kresults) gid); [lia|].
  destruct (gid =? 0);
    cbn [write_nitems ret p_dest p_errcode p_writes snd fst
         kds_set_nitems kds_format_];
    rewrite Hfmt; cbn [ret]; rewrite slot_loop_unroll;
    rewrite Z2Nat.id by lia; reflexivity.
Qed.

(** X16.  What the slot kernel reads.  A work-item [gid] below
    [kresults->nitems] that passes both tests goes through the depths
    [0 .. nrels - 1] in order on the [nrels] contiguous slots that start
    at [results[nrels * gid]].  At depth 0 it reads slot 0 as the outer
    row index plus one and looks the outer tuple up at that slot minus
    one, with the accessor of the layout of [kds]; at a depth [d >= 1]
    it reads slot [d] as the byte offset of the entry from
    [KERN_HASHTABLE(kmhash, d)] and takes the tuple at the [htup] field
    of that entry.  At each depth it hands the depth, this source and
    this tuple to the extraction, with the [errcode] the depth before
    left, and stores what the extraction returns into its own row. *)
Theorem slot_kernel_reads_combination (kresults : kern_resultbuf)
        (gid : Z) (d : kern_data_store) :
  kr_nitems kresults <= kr_nrooms kresults ->
  kr_nitems kresults <= kds_nrooms d ->
  kds_format_ kds = KDS_FORMAT_ROW \/ kds_format_ kds = KDS_FORMAT_ROW_FLAT ->
  kds_format_ d = KDS_FORMAT_TUPSLOT ->
  0 <= gid < kr_nitems kresults ->
  0 <= kr_nrels kresults < 2 ^ 31 ->
  kr_nrels kresults * gid < 2 ^ 64 ->
  let slot_of := fun i => kr_results kresults (kr_nrels kresults * gid + i) in
  let source_of := fun depth =>
    if depth =? 0
    then SrcOuterRow (slot_of 0 - 1)
    else SrcHashEntry (KERN_HASHTABLE kmhash depth)
                      (KERN_HASHTABLE kmhash depth + slot_of depth) in
  let htup_of := fun depth =>
    if depth =? 0
    then if bool_decide (kds_format_ kds = KDS_FORMAT_ROW)
         then kern_get_tuple_rs kds (slot_of 0 - 1)
         else kern_get_tuple_rsflat kds (slot_of 0 - 1)
    else Some (KERN_HASHTABLE kmhash depth + slot_of depth +
               kern_hashentry_htup) in
  let extract := fun st depth =>
    let r := slot_extract_tuple (p_errcode st) depth (source_of depth)
                                (htup_of depth) in
    foldl (fun acc s => write_slot gid s acc)
          {| p_errcode := r.1; p_dest := p_dest st;
             p_writes := p_writes st |}
          r.2 in
  let st :=
    foldl extract
          {| p_errcode := StromError_Success;
             p_dest := if gid =? 0
                       then kds_set_nitems (kr_nitems kresults) d else d;
             p_writes := if gid =? 0
                         then [WrNitems gid (kr_nitems kresults)] else [] |}
          (seqZ 0 (kr_nrels kresults)) in
  run_worker (slot_kernel kresults) gid d =
  (p_errcode st, p_dest st, p_writes st).
Proof.
  intros Hrooms Hdest Hsrc Hfmt Hgid Hrels Hmul. cbv zeta.
  rewrite slot_worker_projects; try assumption.
  - cbv zeta. unfold worker_dest, worker_writes. cbn [andb].
    set (init := {| p_errcode := StromError_Success |}).
    generalize init. clear init.
    induction (seqZ 0 (kr_nrels kresults)) as [|depth depths IH];
      intros st; [reflexivity|].
    cbn [foldl]. rewrite IH. do 3 f_equal.
    all: unfold slot_depth, slot_source, slot_htup; cbn [snd];
      destruct (depth =? 0); reflexivity.
  - apply capacity_test_passes; assumption.
  - assert (Hrow : source_is_row kds = true).
    { unfold source_is_row. apply orb_true_iff.
      destruct Hsrc as [H|H]; [left | right];
        apply bool_decide_eq_true_2; exact H. }
    rewrite Hrow, bool_decide_eq_true_2 by exact Hfmt. reflexivity.
Qed.

(** C7, on the code.  The row kernel at the input of C1, now with any
    two contents of the result slots: the combination would have the
    outer tuple looked up at [rbuffer[0] - 1] and the entry at
    [KERN_HASHTABLE(kmhash, 1) + rbuffer[1]], but the kernel leaves at
    its [goto out] before the statements that read the slots; whatever
    they would do, the launch writes the item count and nothing else,
    and its destination and its writes are the same for both
    contents. *)
Theorem row_projection_ignores_results
        (assemble : Z -> Z -> kstep unit) (results results' : Z -> Z) :
  let kresults := fun slots =>
    {| kr_nrels := 2; kr_nrooms := 4; kr_nitems := 1;
       kr_errcode := StromError_Success; kr_results := slots |} in
  let source :=
    {| kds_format_ := KDS_FORMAT_ROW; kds_length := 4096; kds_usage := 0;
       kds_ncols := 1; kds_nitems := 1; kds_nrooms := 1;
       kds_rowitem := fun _ => 0; kds_arena := fun _ => 0;
       kds_values := fun _ _ => 0; kds_isnull := fun _ _ => false |} in
  let kds_dest :=
    {| kds_format_ := KDS_FORMAT_ROW_FLAT; kds_length := 4096;
       kds_usage := 0; kds_ncols := 2; kds_nitems := 0; kds_nrooms := 4;
       kds_rowitem := fun _ => 0; kds_arena := fun _ => 0;
       kds_values := fun _ _ => 0; kds_isnull := fun _ _ => false |} in
  let final := fun slots =>
    run_kernel (kern_gpuhashjoin_projection_row source assemble) [[0]]
               (launch (kresults slots) kds_dest) in
  k_writes (final results) = [WrNitems 0 1] /\
  k_dest (final results) = kds_set_nitems 1 kds_dest /\
  k_results (final results) = kresults results /\
  k_writes (final results') = k_writes (final results) /\
  k_dest (final results') = k_dest (final results).
Proof.
  cbv zeta. repeat split.
Qed.

(** C1, on the code.  One joined row, stores of the right formats and
    room to spare: the assembly of the tuple would have to advance
    [usage] and store a row item, but the row kernel leaves at its
    [goto out] first; whatever the statements of steps 1 to 3 do, the
    launch writes the item count and nothing else. *)
Theorem row_projection_skips_assembly
        (assemble : Z -> Z -> kstep unit) :
  let kresults :=
    {| kr_nrels := 2; kr_nrooms := 4; kr_nitems := 1;
       kr_errcode := StromError_Success;
       kr_results := fun i => if i =? 0 then 1 else 64 |} in
  let source :=
    {| kds_format_ := KDS_FORMAT_ROW; kds_length := 4096; kds_usage := 0;
       kds_ncols := 1; kds_nitems := 1; kds_nrooms := 1;
       kds_rowitem := fun _ => 0; kds_arena := fun _ => 0;
       kds_values := fun _ _ => 0; kds_isnull := fun _ _ => false |} in
  let kds_dest :=
    {| kds_format_ := KDS_FORMAT_ROW_FLAT; kds_length := 4096;
       kds_usage := 0; kds_ncols := 2; kds_nitems := 0; kds_nrooms := 4;
       kds_rowitem := fun _ => 0; kds_arena := fun _ => 0;
       kds_values := fun _ _ => 0; kds_isnull := fun _ _ => false |} in
  let final :=
    run_kernel (kern_gpuhashjoin_projection_row source assemble) [[0]]
               (launch kresults kds_dest) in
  k_writes final = [WrNitems 0 1] /\
  k_dest final = kds_set_nitems 1 kds_dest /\
  kds_usage (k_dest final) = 0 /\
  kr_errcode (k_results final) = StromError_Success.
Proof.
  cbv zeta. repeat split.
Qed.

End Facts.

Lemma sample_ndrange : ndrange_ok [[0; 1]; [2; 3]].
Proof.
  split; [|split].
  - apply (bool_decide_unpack _). vm_compute. exact I.
  - apply (bool_decide_unpack _). vm_compute. exact I.
  - repeat constructor; discriminate.
Qed.

Lemma row_projection_exits_early_witness :
  ndrange_ok [[0; 1]; [2; 3]] /\
  k_writes (run_kernel sample_row_kernel [[0; 1]; [2; 3]]
              (launch (sample_joined 3) (sample_dest KDS_FORMAT_ROW_FLAT 8)))
  = [WrNitems 0 3] /\
  k_results (run_kernel sample_row_kernel [[0; 1]; [2; 3]]
               (launch (sample_joined 3) (sample_dest KDS_FORMAT_ROW_FLAT 8)))
  = sample_joined 3.
Proof.
  split; [exact sample_ndrange|].
  destruct (row_projection_exits_early Samples.sample_outer sample_assemble
              [[0; 1]; [2; 3]] (sample_joined 3)
              (sample_dest KDS_FORMAT_ROW_FLAT 8) sample_ndrange)
    as (Hw & _ & _ & _ & _ & Hr & _).
  - reflexivity.
  - reflexivity.
  - vm_compute. discriminate.
  - vm_compute. discriminate.
  - split; [exact Hw | exact Hr].
Defined.

(** The slot kernel, handed a flat-row destination and an empty join:
    the format is never tested and no error is signalled.  With one
    joined row and a destination of an unknown format, the slot kernel
    has written the item count before it signals the corruption, which
    the row kernel signals without writing. *)
Lemma slot_projection_format_unsignalled :
  kds_format_ (sample_dest KDS_FORMAT_ROW_FLAT 8) <> KDS_FORMAT_TUPSLOT /\
  kr_errcode
    (k_results (run_kernel sample_slot_kernel [[0; 1]; [2; 3]]
                  (launch (sample_joined 0)
                          (sample_dest KDS_FORMAT_ROW_FLAT 8))))
  = StromError_Success /\
  k_writes (run_kernel sample_slot_kernel [[0; 1]; [2; 3]]
              (launch (sample_joined 1) (sample_dest (KDS_FORMAT_OTHER 0) 8)))
  = [WrNitems 0 1] /\
  k_writes (run_kernel sample_row_kernel [[0; 1]; [2; 3]]
              (launch (sample_joined 1) (sample_dest (KDS_FORMAT_OTHER 0) 8)))
  = [].
Proof.
  split; [discriminate|]. repeat split.
Qed.

Lemma projection_preconditions_witness :
  ndrange_ok [[0; 1]; [2; 3]] /\
  run_kernel sample_slot_kernel [[0; 1]; [2; 3]]
    (launch (sample_joined 0) (sample_dest KDS_FORMAT_ROW_FLAT 8)) =
  {| k_results := sample_joined 0;
     k_dest := kds_set_nitems 0 (sample_dest KDS_FORMAT_ROW_FLAT 8);
     k_writes := [WrNitems 0 0] |} /\
  run_kernel sample_row_kernel [[0; 1]; [2; 3]]
    (launch (sample_joined 9) (sample_dest KDS_FORMAT_ROW_FLAT 8)) =
  {| k_results :=
       kr_set_errcode StromError_DataStoreNoSpace (sample_joined 9);
     k_dest := sample_dest KDS_FORMAT_ROW_FLAT 8;
     k_writes := [] |}.
Proof.
  split; [exact sample_ndrange|]. split.
  - destruct (projection_preconditions Samples.sample_multihash
                Samples.sample_outer sample_tuple_rs sample_tuple_rs
                sample_assemble sample_extract [[0; 1]; [2; 3]]
                (sample_joined 0) (sample_dest KDS_FORMAT_ROW_FLAT 8)
                sample_ndrange) as (_ & _ & _ & _ & _ & Hslot).
    apply Hslot.
    + cbn. lia.
    + right. discriminate.
  - destruct (projection_preconditions Samples.sample_multihash
                Samples.sample_outer sample_tuple_rs sample_tuple_rs
                sample_assemble sample_extract [[0; 1]; [2; 3]]
                (sample_joined 9) (sample_dest KDS_FORMAT_ROW_FLAT 8)
                sample_ndrange) as (_ & Hrow & _).
    apply Hrow.
    + intros [Hsrc|Hdst]; [discriminate Hsrc | apply Hdst; reflexivity].
    + left. cbn. lia.
Defined.

Lemma slot_kernel_reads_combination_witness :
  run_worker (sample_slot_kernel (sample_joined 3)) 1
             (sample_dest KDS_FORMAT_TUPSLOT 8) =
  (StromError_Success,
   kds_set_slot 1 1 5280 false
     (kds_set_slot 1 0 8320 false (sample_dest KDS_FORMAT_TUPSLOT 8)),
   [WrSlot 1 0 8320 false; WrSlot 1 1 5280 false]).
Proof.
  unfold sample_slot_kernel.
  rewrite (slot_kernel_reads_combination Samples.sample_multihash
             Samples.sample_outer sample_tuple_rs sample_tuple_rs
             sample_extract (sample_joined 3) 1
             (sample_dest KDS_FORMAT_TUPSLOT 8)).
  - reflexivity.
  - cbn. lia.
  - cbn. lia.
  - left. reflexivity.
  - reflexivity.
  - cbn. lia.
  - cbn. lia.
  - cbn. lia.
Defined.

End ProjectionFacts.

(** ** Alignment *)

Module AlignFacts.

Lemma TYPEALIGN_pow2 k len :
  0 <= k -> TYPEALIGN (2 ^ k) len = (len + (2 ^ k - 1)) / 2 ^ k * 2 ^ k.
Proof.
  intros Hk. unfold TYPEALIGN.
  replace (2 ^ k - 1) with (Z.ones k) by (rewrite Z.ones_equiv; lia).
  rewrite <- Z.ldiff_land, Z.ldiff_ones_r by exact Hk.
  rewrite Z.shiftr_div_pow2, Z.shiftl_mul_pow2 by exact Hk. reflexivity.
Qed.

Lemma TYPEALIGN_bounds k len :
  0 <= k ->
  len <= TYPEALIGN (2 ^ k) len < len + 2 ^ k /\
  TYPEALIGN (2 ^ k) len mod 2 ^ k = 0.
Proof.
  intros Hk. rewrite (TYPEALIGN_pow2 k len Hk).
  assert (Hpos : 0 < 2 ^ k) by (apply Z.pow_pos_nonneg; lia).
  pose proof (Z.div_mod (len + (2 ^ k - 1)) (2 ^ k)) as Hdm.
  pose proof (Z.mod_pos_bound (len + (2 ^ k - 1)) (2 ^ k) Hpos) as Hr.
  split; [lia|]. apply Z.mod_mul. lia.
Qed.

Lemma TYPEALIGN_aligned k len :
  0 <= k -> len mod 2 ^ k = 0 -> TYPEALIGN (2 ^ k) len = len.
Proof.
  intros Hk Hlen.
  assert (Hpos : 0 < 2 ^ k) by (apply Z.pow_pos_nonneg; lia).
  rewrite (TYPEALIGN_pow2 k len Hk).
  pose proof (Z.div_mod len (2 ^ k)) as Hdm. rewrite Hlen in Hdm.
  assert (Hq : (len + (2 ^ k - 1)) / 2 ^ k = len / 2 ^ k).
  { symmetry. apply (Z.div_unique_pos _ _ _ (2 ^ k - 1)); lia. }
  rewrite Hq. lia.
Qed.

Lemma TYPEALIGN_mono k len len' :
  0 <= k -> len <= len' -> TYPEALIGN (2 ^ k) len <= TYPEALIGN (2 ^ k) len'.
Proof.
  intros Hk Hle.
  assert (Hpos : 0 < 2 ^ k) by (apply Z.pow_pos_nonneg; lia).
  rewrite !TYPEALIGN_pow2 by exact Hk.
  apply Z.mul_le_mono_nonneg_r; [lia|].
  apply Z.div_le_mono; lia.
Qed.

Lemma TYPEALIGN_add_aligned k base len :
  0 <= k -> base mod 2 ^ k = 0 ->
  TYPEALIGN (2 ^ k) (base + len) = base + TYPEALIGN (2 ^ k) len.
Proof.
  intros Hk Hbase.
  assert (Hpos : 0 < 2 ^ k) by (apply Z.pow_pos_nonneg; lia).
  rewrite !TYPEALIGN_pow2 by exact Hk.
  pose proof (Z.div_mod base (2 ^ k)) as Hdm. rewrite Hbase in Hdm.
  replace (base + len + (2 ^ k - 1))
    with ((len + (2 ^ k - 1)) + base / 2 ^ k * 2 ^ k) by lia.
  rewrite Z.div_add by lia. lia.
Qed.

Lemma LONGALIGN_bounds len :
  len <= LONGALIGN len < len + 8 /\ LONGALIGN len mod 8 = 0.
Proof. apply (TYPEALIGN_bounds 3 len). lia. Qed.

End AlignFacts.

(** ** The layout of a hash table *)

Module TableLayoutFacts.

Import AlignFacts Samples.

(** X1.  The slot array of a table begins at an offset from the table that
    is a multiple of 8 and lies past the [ncols] column descriptors,
    with less than 8 bytes of padding; the size of an entry is a
    multiple of 8 that covers its four header words and the [t_len]
    bytes of its tuple, with less than 8 bytes of padding. *)
Theorem table_layout_aligned (sizeof_kern_colmeta : Z) (m : gmem)
        (khtable khentry : Z) :
  let colmeta_end :=
    kern_hashtable_colmeta +
    sizeof_kern_colmeta * load_cl_uint m (khtable + kern_hashtable_ncols) in
  let tuple_end :=
    kern_hashentry_htup + load_cl_uint m (khentry + kern_hashentry_t_len) in
  let slot_offset := KERN_HASHTABLE_SLOT sizeof_kern_colmeta m khtable
                     - khtable in
  (colmeta_end <= slot_offset < colmeta_end + 8 /\ slot_offset mod 8 = 0) /\
  (tuple_end <= KERN_HASHENTRY_SIZE m khentry < tuple_end + 8 /\
   KERN_HASHENTRY_SIZE m khentry mod 8 = 0 /\
   16 <= KERN_HASHENTRY_SIZE m khentry).
Proof.
  cbv zeta. unfold KERN_HASHTABLE_SLOT, KERN_HASHENTRY_SIZE.
  split.
  - match goal with
    | |- context [LONGALIGN ?x] => pose proof (LONGALIGN_bounds x)
    end.
    replace (khtable + LONGALIGN
               (kern_hashtable_colmeta +
                sizeof_kern_colmeta *
                load_cl_uint m (khtable + kern_hashtable_ncols)) - khtable)
      with (LONGALIGN
              (kern_hashtable_colmeta +
               sizeof_kern_colmeta *
               load_cl_uint m (khtable + kern_hashtable_ncols))) by lia.
    tauto.
  - match goal with
    | |- context [LONGALIGN ?x] => pose proof (LONGALIGN_bounds x)
    end.
    pose proof (load_cl_uint_range m (khentry + kern_hashentry_t_len)).
    unfold kern_hashentry_htup in *. repeat split; lia.
Qed.

(** X2.  Hash values that fall into the same bucket start the same chain,
    and an entry found in a chain lies above the base of its table and
    less than 2^32 bytes from it, so it is never the table itself. *)
Theorem chain_entries_inside_table (sizeof_kern_colmeta : Z) (m : gmem)
        (khtable hash hash' khentry entry : Z) :
  let nslots := load_cl_uint m (khtable + kern_hashtable_nslots) in
  (hash mod nslots = hash' mod nslots ->
   KERN_HASH_FIRST_ENTRY sizeof_kern_colmeta m khtable hash =
   KERN_HASH_FIRST_ENTRY sizeof_kern_colmeta m khtable hash') /\
  (KERN_HASH_FIRST_ENTRY sizeof_kern_colmeta m khtable hash =
   Defined_ (Some entry) ->
   khtable < entry < khtable + 2 ^ 32) /\
  (KERN_HASH_NEXT_ENTRY m khtable khentry = Some entry ->
   khtable < entry < khtable + 2 ^ 32).
Proof.
  cbv zeta. split; [|split].
  - intros Hmod. unfold KERN_HASH_FIRST_ENTRY, umod.
    destruct (_ =? 0) eqn:Hz; [reflexivity|]. simpl. rewrite Hmod.
    reflexivity.
  - unfold KERN_HASH_FIRST_ENTRY, umod.
    destruct (_ =? 0); [discriminate|]. simpl.
    match goal with
    | |- context [hash_slot ?s ?mm ?t ?i] =>
        pose proof (load_cl_uint_range mm
                      (KERN_HASHTABLE_SLOT s mm t + 4 * i)) as Hr;
        fold (hash_slot s mm t i) in Hr;
        destruct (Z.eqb_spec (hash_slot s mm t i) 0)
    end; [discriminate|].
    intros [= <-]. lia.
  - unfold KERN_HASH_NEXT_ENTRY.
    pose proof (load_cl_uint_range m (khentry + kern_hashentry_next)) as Hr.
    destruct (Z.eqb_spec (load_cl_uint m (khentry + kern_hashentry_next)) 0);
      [discriminate|].
    intros [= <-]. lia.
Qed.

Lemma chain_entries_inside_table_witness :
  KERN_HASH_FIRST_ENTRY 8 sample_table 1000 6 =
  KERN_HASH_FIRST_ENTRY 8 sample_table 1000 2 /\
  1000 < 1064 < 1000 + 2 ^ 32.
Proof.
  destruct (chain_entries_inside_table 8 sample_table 1000 6 2 1064 1064)
    as (Hsame & Hfirst & _).
  split.
  - apply Hsame. reflexivity.
  - apply Hfirst. reflexivity.
Defined.

End TableLayoutFacts.

(** ** The request region *)

Module LayoutFacts.

Import Layout AlignFacts.

Section Facts.

Variable k : Z.
Hypothesis k_nonneg : 0 <= k.

Variable offsetof_results : Z.
Variable offsetof_rindex : Z.
Variable sizeof_rindex : Z.

Abbreviation quantum := (2 ^ k).
Abbreviation resultbuf := (KERN_HASHJOIN_RESULTBUF quantum).
Abbreviation rowmap := (KERN_HASHJOIN_ROWMAP quantum offsetof_results).
Abbreviation rowmap_length :=
  (KERN_HASHJOIN_ROWMAP_LENGTH quantum offsetof_rindex sizeof_rindex).
Abbreviation sendlen :=
  (KERN_HASHJOIN_DMA_SENDLEN quantum offsetof_results).
Abbreviation recvlen :=
  (KERN_HASHJOIN_DMA_RECVLEN quantum offsetof_results).

(** X3.  With an alignment quantum that is a power of two: the region that
    is read back from the device is the tail of the region that is sent
    to it (it starts [RECVOFS] bytes into the sent region and both end at
    the same byte), the row map starts where the sent region ends, the
    parameter buffer fits below the result header and the fixed fields of
    the result header fit in the region read back, and the result header
    and the row map start at multiples of the quantum from
    [khashjoin]. *)
Theorem dma_regions_nested (khashjoin length : Z) :
  KERN_HASHJOIN_DMA_RECVPTR quantum khashjoin length =
  KERN_HASHJOIN_DMA_SENDPTR khashjoin +
  KERN_HASHJOIN_DMA_RECVOFS quantum length /\
  KERN_HASHJOIN_DMA_SENDOFS + sendlen khashjoin length =
  KERN_HASHJOIN_DMA_RECVOFS quantum length + recvlen /\
  rowmap khashjoin length =
  KERN_HASHJOIN_DMA_SENDPTR khashjoin + sendlen khashjoin length /\
  length <= KERN_HASHJOIN_DMA_RECVOFS quantum length /\
  offsetof_results <= recvlen /\
  (resultbuf khashjoin length - khashjoin) mod quantum = 0 /\
  (rowmap khashjoin length - khashjoin) mod quantum = 0.
Proof.
  unfold KERN_HASHJOIN_DMA_RECVPTR, KERN_HASHJOIN_DMA_SENDPTR,
    KERN_HASHJOIN_DMA_RECVOFS, KERN_HASHJOIN_DMA_SENDOFS,
    KERN_HASHJOIN_DMA_SENDLEN, KERN_HASHJOIN_DMA_RECVLEN,
    KERN_HASHJOIN_ROWMAP, KERN_HASHJOIN_RESULTBUF,
    KERN_HASHJOIN_RESULTBUF_LENGTH, KERN_HASHJOIN_PARAMBUF_LENGTH,
    KERN_HASHJOIN_PARAMBUF, STROMALIGN.
  destruct (TYPEALIGN_bounds k length k_nonneg) as [Hl Hlm].
  destruct (TYPEALIGN_bounds k offsetof_results k_nonneg) as [Hr Hrm].
  assert (Hpos : 0 < 2 ^ k) by (apply Z.pow_pos_nonneg; lia).
  repeat split; try lia.
  - replace (khashjoin + TYPEALIGN (2 ^ k) length - khashjoin)
      with (TYPEALIGN (2 ^ k) length) by lia.
    exact Hlm.
  - replace (khashjoin + TYPEALIGN (2 ^ k) length +
             TYPEALIGN (2 ^ k) offsetof_results - khashjoin)
      with (TYPEALIGN (2 ^ k) length + TYPEALIGN (2 ^ k) offsetof_results)
      by lia.
    rewrite Z.add_mod, Hlm, Hrm by lia. reflexivity.
Qed.

(** X4.  The length of the row map block: a negative [nvalids] (no row map)
    leaves the header alone; for [nvalids >= 0] the block covers the
    header and all [nvalids] elements of [rindex] with less than one
    quantum of padding; the length is a multiple of the quantum and
    does not shrink when [nvalids] grows. *)
Theorem rowmap_length_covers (nvalids nvalids' : Z) :
  0 <= sizeof_rindex ->
  (nvalids < 0 ->
   rowmap_length nvalids = TYPEALIGN quantum offsetof_rindex) /\
  (0 <= nvalids ->
   offsetof_rindex + sizeof_rindex * nvalids <= rowmap_length nvalids
   < offsetof_rindex + sizeof_rindex * nvalids + quantum) /\
  rowmap_length nvalids mod quantum = 0 /\
  (nvalids <= nvalids' -> rowmap_length nvalids <= rowmap_length nvalids').
Proof.
  intros Hsz. unfold KERN_HASHJOIN_ROWMAP_LENGTH, STROMALIGN.
  repeat split.
  - destruct (Z.ltb_spec nvalids 0); [reflexivity | lia].
  - destruct (Z.ltb_spec nvalids 0); [lia|].
    apply (TYPEALIGN_bounds k _ k_nonneg).
  - destruct (Z.ltb_spec nvalids 0); [lia|].
    apply (TYPEALIGN_bounds k _ k_nonneg).
  - destruct (nvalids <? 0); apply (TYPEALIGN_bounds k _ k_nonneg).
  - intros Hle.
    destruct (Z.ltb_spec nvalids 0), (Z.ltb_spec nvalids' 0);
      try lia; apply (TYPEALIGN_mono k _ _ k_nonneg); nia.
Qed.

End Facts.

Lemma dma_regions_nested_witness :
  KERN_HASHJOIN_DMA_RECVPTR 16 4096 100 = 4096 + 112 /\
  KERN_HASHJOIN_ROWMAP 16 20 4096 100
  = 4096 + KERN_HASHJOIN_DMA_SENDLEN 16 20 4096 100.
Proof.
  destruct (dma_regions_nested 4 ltac:(lia) 20 4096 100)
    as (Hrecv & _ & Hmap & _).
  split; [exact Hrecv | exact Hmap].
Defined.

Lemma rowmap_length_covers_witness :
  KERN_HASHJOIN_ROWMAP_LENGTH 16 4 4 (-1) = 16 /\
  4 + 4 * 5 <= KERN_HASHJOIN_ROWMAP_LENGTH 16 4 4 5.
Proof.
  destruct (rowmap_length_covers 4 ltac:(lia) 4 4 (-1) 5 ltac:(lia))
    as (Hneg & _ & _ & _).
  destruct (rowmap_length_covers 4 ltac:(lia) 4 4 5 5 ltac:(lia))
    as (_ & Hpos & _ & _).
  split.
  - apply Hneg. lia.
  - apply Hpos. lia.
Defined.

End LayoutFacts.

(** ** Hash keys *)

Module HashKeyFacts.

Import HashRef HashKey Samples.

Lemma land_lxor_low_byte a d :
  Z.land (Z.lxor a d) 0xff = Z.land (Z.lxor a (Z.land d 0xff)) 0xff.
Proof.
  apply Z.bits_inj'. intros n Hn.
  rewrite !Z.land_spec, !Z.lxor_spec, Z.land_spec.
  destruct (Z.testbit 255 n); rewrite ?andb_false_r, ?andb_true_r;
    reflexivity.
Qed.

Lemma crc32_step_low_byte table hash data :
  crc32_step table hash data = crc32_step table hash (Z.land data 0xff).
Proof.
  unfold crc32_step. cbv zeta. rewrite land_lxor_low_byte. reflexivity.
Qed.

Lemma land_byte_mod data : Z.land data 0xff = data mod 256.
Proof. change 255 with (Z.ones 8). rewrite Z.land_ones by lia. reflexivity. Qed.

Lemma load_cl_char_byte m p : Z.land (load_cl_char m p) 0xff = m p mod 256.
Proof.
  rewrite land_byte_mod. unfold load_cl_char. cbv zeta.
  pose proof (Z.mod_pos_bound (m p) 256 ltac:(lia)) as Hu.
  destruct (Z.ltb_spec (m p mod 256) 128).
  - apply Z.mod_small. lia.
  - symmetry. apply (Z.mod_unique_pos _ _ (-1)); lia.
Qed.

Lemma lxor_mod_pow2 a b n :
  0 <= n -> Z.lxor a b mod 2 ^ n = Z.lxor (a mod 2 ^ n) (b mod 2 ^ n).
Proof.
  intros Hn. rewrite <- !Z.land_ones by exact Hn.
  apply Z.bits_inj'. intros i Hi.
  rewrite !Z.land_spec, !Z.lxor_spec, !Z.land_spec.
  destruct (Z.testbit (Z.ones n) i); rewrite ?andb_false_r, ?andb_true_r;
    reflexivity.
Qed.

Lemma lxor_cl_uint_range a b : 0 <= Z.lxor (cl_uint a) (cl_uint b) < 2 ^ 32.
Proof.
  unfold cl_uint. rewrite <- lxor_mod_pow2 by lia.
  apply Z.mod_pos_bound. lia.
Qed.

Lemma crc32_step_range table hash data :
  0 <= crc32_step table hash data < 2 ^ 32.
Proof. apply lxor_cl_uint_range. Qed.

Lemma crc32_bytes_range table hash bytes :
  0 <= hash < 2 ^ 32 -> 0 <= crc32_bytes table hash bytes < 2 ^ 32.
Proof.
  unfold crc32_bytes. revert hash.
  induction bytes as [|b bytes IH]; intros hash Hh; simpl; [exact Hh|].
  apply IH. apply crc32_step_range.
Qed.

Lemma simple_loop_bytes table len hash data :
  simple_hashkey_loop table len hash data =
  crc32_bytes table hash (le_bytes len data).
Proof.
  revert hash data. induction len as [|len IH]; intros hash data; simpl.
  - reflexivity.
  - rewrite IH, (crc32_step_low_byte table hash data). reflexivity.
Qed.

Lemma varlena_loop_bytes table m len hash data :
  varlena_hashkey_loop table m len hash data =
  crc32_bytes table hash (mem_bytes m len data).
Proof.
  revert hash data. induction len as [|len IH]; intros hash data; simpl.
  - reflexivity.
  - rewrite IH, (crc32_step_low_byte table hash (load_cl_char m data)).
    rewrite load_cl_char_byte. reflexivity.
Qed.

Lemma le_bytes_congruent len data data' :
  data mod 2 ^ (8 * Z.of_nat len) = data' mod 2 ^ (8 * Z.of_nat len) ->
  le_bytes len data = le_bytes len data'.
Proof.
  revert data data'. induction len as [|len IH]; intros data data' Hc.
  - reflexivity.
  - assert (Hpow : 2 ^ (8 * Z.of_nat (S len))
                   = 256 * 2 ^ (8 * Z.of_nat len)).
    { replace (8 * Z.of_nat (S len)) with (8 + 8 * Z.of_nat len) by lia.
      rewrite Z.pow_add_r by lia. reflexivity. }
    rewrite Hpow in Hc.
    assert (Hm : 0 < 2 ^ (8 * Z.of_nat len))
      by (apply Z.pow_pos_nonneg; lia).
    rewrite !Z.rem_mul_r in Hc by lia.
    pose proof (Z.mod_pos_bound data 256 ltac:(lia)).
    pose proof (Z.mod_pos_bound data' 256 ltac:(lia)).
    simpl. rewrite !land_byte_mod.
    rewrite !Z.shiftr_div_pow2 by lia. change (2 ^ 8) with 256.
    f_equal; [lia|]. apply IH. lia.
Qed.

Lemma le_bytes_length len data : length (le_bytes len data) = len.
Proof.
  revert data. induction len as [|len IH]; intros data; simpl;
    [reflexivity | rewrite IH; reflexivity].
Qed.

(** X5.  [FIN_CRC32] undoes itself; on a 32-bit value it is the complement
    [0xFFFFFFFF - crc], again a 32-bit value, so that finishing the
    value [INIT_CRC32] starts from gives 0. *)
Theorem fin_crc32_involution (crc : Z) :
  FIN_CRC32 (FIN_CRC32 crc) = crc /\
  FIN_CRC32 INIT_CRC32 = 0 /\
  (0 <= crc < 2 ^ 32 ->
   FIN_CRC32 crc = 0xFFFFFFFF - crc /\ 0 <= FIN_CRC32 crc < 2 ^ 32).
Proof.
  unfold FIN_CRC32. split; [|split].
  - rewrite Z.lxor_assoc, Z.lxor_nilpotent. apply Z.lxor_0_r.
  - reflexivity.
  - intros Hr.
    assert (Hhigh : forall n, 32 <= n -> Z.testbit crc n = false).
    { intros n Hn. rewrite <- (Z.mod_small crc (2 ^ 32)) by exact Hr.
      apply Z.mod_pow2_bits_high. lia. }
    assert (Heq : Z.lxor crc 0xFFFFFFFF = 0xFFFFFFFF - crc).
    { change 0xFFFFFFFF with (Z.ones 32).
      rewrite Z.sub_nocarry_ldiff.
      - apply Z.bits_inj'. intros n Hn.
        rewrite Z.lxor_spec, Z.ldiff_spec.
        destruct (Z.ltb_spec n 32).
        + rewrite Z.ones_spec_low by lia.
          destruct (Z.testbit crc n); reflexivity.
        + rewrite Z.ones_spec_high, Hhigh by lia. reflexivity.
      - apply Z.bits_inj'. intros n Hn.
        rewrite Z.ldiff_spec, Z.bits_0.
        destruct (Z.ltb_spec n 32).
        + rewrite Z.ones_spec_low by lia. apply andb_false_r.
        + rewrite Hhigh by lia. reflexivity. }
    rewrite Heq. lia.
Qed.

(** X6.  The first template hashes the [sizeof(BASE)] bytes of the value,
    least significant first: a null datum leaves the hash alone, and
    the key of a datum that is not null is the checksum of those bytes
    continued from [hash].  Only the low [8 * sizeof(BASE)] bits of the
    value enter the key, so values that agree on them (a negative
    number and its unsigned reading) get the same key. *)
Theorem simple_hashkey_bytes (sizeof_BASE : Z) (kmhash : kern_multihash)
        (hash : Z) (datum datum' : pg_simple_t) :
  (simple_isnull datum = true ->
   pg_simple_hashkey sizeof_BASE kmhash hash datum = hash) /\
  (simple_isnull datum = false ->
   pg_simple_hashkey sizeof_BASE kmhash hash datum =
   crc32_bytes (pg_crc32_table kmhash) hash
               (le_bytes (Z.to_nat sizeof_BASE) (simple_value datum))) /\
  (0 <= sizeof_BASE ->
   simple_isnull datum = false -> simple_isnull datum' = false ->
   simple_value datum mod 2 ^ (8 * sizeof_BASE) =
   simple_value datum' mod 2 ^ (8 * sizeof_BASE) ->
   pg_simple_hashkey sizeof_BASE kmhash hash datum =
   pg_simple_hashkey sizeof_BASE kmhash hash datum').
Proof.
  unfold pg_simple_hashkey. split; [|split].
  - intros ->. reflexivity.
  - intros ->. simpl. apply simple_loop_bytes.
  - intros Hsz -> -> Hc. simpl. rewrite !simple_loop_bytes.
    f_equal. apply le_bytes_congruent. rewrite Z2Nat.id by exact Hsz.
    exact Hc.
Qed.

(** X7.  Keys of several columns are chained by passing the key of one as
    the [hash] of the next.  The key of two integer columns is the
    checksum of the bytes of the first followed by the bytes of the
    second, a null column contributes nothing, and a key is a 32-bit
    value whatever [hash] it was continued from. *)
Theorem simple_hashkey_chain (size1 size2 : Z) (kmhash : kern_multihash)
        (hash : Z) (datum1 datum2 : pg_simple_t) :
  let bytes_of := fun size d =>
    if simple_isnull d then []
    else le_bytes (Z.to_nat size) (simple_value d) in
  pg_simple_hashkey size2 kmhash
    (pg_simple_hashkey size1 kmhash hash datum1) datum2 =
  crc32_bytes (pg_crc32_table kmhash) hash
              (bytes_of size1 datum1 ++ bytes_of size2 datum2) /\
  (0 <= hash < 2 ^ 32 ->
   0 <= pg_simple_hashkey size1 kmhash hash datum1 < 2 ^ 32).
Proof.
  cbv zeta. unfold pg_simple_hashkey. split.
  - unfold crc32_bytes. rewrite foldl_app.
    destruct (simple_isnull datum1), (simple_isnull datum2); simpl;
      rewrite ?simple_loop_bytes; reflexivity.
  - intros Hh. destruct (simple_isnull datum1); simpl; [exact Hh|].
    rewrite simple_loop_bytes. apply crc32_bytes_range. exact Hh.
Qed.

Section Varlena.

Variable VARDATA_ANY : cmem -> Z -> Z.
Variable VARSIZE_ANY_EXHDR : cmem -> Z -> Z.

Abbreviation varlena_hashkey :=
  (pg_varlena_hashkey VARDATA_ANY VARSIZE_ANY_EXHDR).

(** X8.  The second template hashes the payload of the varlena byte by byte
    from its first byte: a null datum leaves the hash alone; the key of
    a datum that is not null is the checksum of its
    [VARSIZE_ANY_EXHDR] payload bytes continued from [hash], so an empty
    payload leaves the hash alone; and when the payload holds the bytes
    of an integer, least significant first, the key is the one the
    first template gives that integer. *)
Theorem varlena_hashkey_bytes (m : cmem) (kmhash : kern_multihash)
        (hash vl_ptr : Z) (number : Z) :
  let datum := {| value := Some vl_ptr; isnull := false |} in
  let size := cl_uint (VARSIZE_ANY_EXHDR m vl_ptr) in
  (forall v, varlena_hashkey m kmhash hash {| value := v; isnull := true |}
             = hash) /\
  varlena_hashkey m kmhash hash datum =
  crc32_bytes (pg_crc32_table kmhash) hash
              (mem_bytes m (Z.to_nat size) (VARDATA_ANY m vl_ptr)) /\
  (size = 0 -> varlena_hashkey m kmhash hash datum = hash) /\
  (mem_bytes m (Z.to_nat size) (VARDATA_ANY m vl_ptr) =
   le_bytes (Z.to_nat size) number ->
   varlena_hashkey m kmhash hash datum =
   pg_simple_hashkey size kmhash hash
                     {| simple_value := number; simple_isnull := false |}).
Proof.
  cbv zeta. unfold pg_varlena_hashkey, pg_simple_hashkey. simpl.
  repeat split.
  - apply varlena_loop_bytes.
  - intros ->. reflexivity.
  - intros Hb. rewrite varlena_loop_bytes, simple_loop_bytes, Hb.
    reflexivity.
Qed.

End Varlena.

Lemma fin_crc32_involution_witness :
  FIN_CRC32 0x12345678 = 0xEDCBA987.
Proof.
  destruct (fin_crc32_involution 0x12345678) as (_ & _ & Hfin).
  destruct Hfin as [Heq _]; [lia|].
  etransitivity; [exact Heq | reflexivity].
Defined.

Lemma simple_hashkey_bytes_witness :
  pg_simple_hashkey 4 sample_crc_multihash 0xFFFFFFFF
    {| simple_value := -2; simple_isnull := false |} =
  pg_simple_hashkey 4 sample_crc_multihash 0xFFFFFFFF
    {| simple_value := 4294967294; simple_isnull := false |}.
Proof.
  destruct (simple_hashkey_bytes 4 sample_crc_multihash 0xFFFFFFFF
              {| simple_value := -2; simple_isnull := false |}
              {| simple_value := 4294967294; simple_isnull := false |})
    as (_ & _ & Hsame).
  apply Hsame; [lia | reflexivity | reflexivity | reflexivity].
Defined.

Lemma simple_hashkey_chain_witness :
  0 <= pg_simple_hashkey 2 sample_crc_multihash 0xFFFFFFFF
         {| simple_value := 513; simple_isnull := false |} < 2 ^ 32.
Proof.
  destruct (simple_hashkey_chain 2 4 sample_crc_multihash 0xFFFFFFFF
              {| simple_value := 513; simple_isnull := false |}
              {| simple_value := 7; simple_isnull := true |})
    as (_ & Hrange).
  apply Hrange. lia.
Defined.

Lemma varlena_hashkey_bytes_witness :
  pg_varlena_hashkey (fun _ p => p + 1) (fun _ _ => 2)
    (fun p => if p =? 201 then 1 else if p =? 202 then 2 else 0)
    sample_crc_multihash 0xFFFFFFFF {| value := Some 200; isnull := false |}
  = pg_simple_hashkey 2 sample_crc_multihash 0xFFFFFFFF
      {| simple_value := 513; simple_isnull := false |}.
Proof.
  destruct (varlena_hashkey_bytes (fun _ p => p + 1) (fun _ _ => 2)
              (fun p => if p =? 201 then 1 else if p =? 202 then 2 else 0)
              sample_crc_multihash 0xFFFFFFFF 200 513)
    as (_ & _ & _ & Hsame).
  apply Hsame. reflexivity.
Defined.

End HashKeyFacts.

(** ** The execution kernel: the counter and the reservations *)

Module ExecCounterFacts.

Import Exec Samples.

Section Facts.

Variable kern_parambuf : Type.
Variable gpuhashjoin_execute :
  StromError -> kern_parambuf -> kern_multihash ->
  kern_data_store -> kern_data_store -> Z -> option Z -> exec_result.
Variable kparams : kern_parambuf.
Variable kmhash : kern_multihash.
Variable kds : kern_data_store.
Variable ktoast : kern_data_store.
Variable krowmap : option kern_row_map.

Abbreviation count :=
  (count_stage kern_parambuf gpuhashjoin_execute kparams kmhash kds ktoast
               krowmap).
Abbreviation emit :=
  (emit_stage kern_parambuf gpuhashjoin_execute kparams kmhash kds ktoast).
Abbreviation main_group :=
  (kern_gpuhashjoin_main_group kern_parambuf gpuhashjoin_execute kparams
                               kmhash kds ktoast krowmap).
Abbreviation main :=
  (kern_gpuhashjoin_main kern_parambuf gpuhashjoin_execute kparams
                         kmhash kds ktoast krowmap).
Abbreviation total_of :=
  (group_total kern_parambuf gpuhashjoin_execute kparams kmhash kds ktoast
               krowmap).
Abbreviation counts_of :=
  (group_counts kern_parambuf gpuhashjoin_execute kparams kmhash kds ktoast
                krowmap).
Abbreviation contract :=
  (probe_stores_counted kern_parambuf gpuhashjoin_execute kparams kmhash kds
                        ktoast).

Lemma cl_uint_add_l a b : cl_uint (cl_uint a + b) = cl_uint (a + b).
Proof. unfold cl_uint. apply Zplus_mod_idemp_l. Qed.

Lemma cl_uint_add_r a b : cl_uint (a + cl_uint b) = cl_uint (a + b).
Proof. unfold cl_uint. apply Zplus_mod_idemp_r. Qed.

Lemma stairlike_total_wrap_aux acc counts :
  foldl (fun a n => cl_uint (a + n)) (cl_uint acc) counts =
  cl_uint (acc + foldr Z.add 0 counts).
Proof.
  revert acc. induction counts as [|n counts IH]; intros acc; simpl.
  - rewrite Z.add_0_r. reflexivity.
  - rewrite cl_uint_add_l, IH. f_equal. lia.
Qed.

Lemma total_of_wrap wg : total_of wg = cl_uint (foldr Z.add 0 (counts_of wg)).
Proof.
  unfold group_total. simpl. unfold stairlike_total.
  apply (stairlike_total_wrap_aux 0).
Qed.

Lemma foldr_add_app (l l' : list Z) :
  foldr Z.add 0 (l ++ l') = foldr Z.add 0 l + foldr Z.add 0 l'.
Proof. induction l as [|x l IH]; simpl; lia. Qed.

Lemma counts_of_app wg wg' :
  foldr Z.add 0 (counts_of (wg ++ wg')) =
  foldr Z.add 0 (counts_of wg) + foldr Z.add 0 (counts_of wg').
Proof. unfold group_counts. rewrite fmap_app. apply foldr_add_app. Qed.

Lemma main_group_frame wg kresults :
  kr_nrels (g_kresults (main_group wg kresults)) = kr_nrels kresults /\
  kr_nrooms (g_kresults (main_group wg kresults)) = kr_nrooms kresults.
Proof.
  unfold kern_gpuhashjoin_main_group.
  destruct (nrels_mismatch kmhash kresults); [split; reflexivity|].
  cbv zeta. unfold reserve.
  destruct (0 <? _); cbn [fst snd]; destruct (_ <? _); split; reflexivity.
Qed.

Lemma main_group_counter wg kresults :
  0 <= kr_nitems kresults < 2 ^ 32 ->
  nrels_mismatch kmhash kresults = false ->
  kr_nitems (g_kresults (main_group wg kresults)) =
  cl_uint (kr_nitems kresults + foldr Z.add 0 (counts_of wg)).
Proof.
  intros Hit Hm.
  assert (Hres : kr_nitems (reserve kresults (total_of wg)).1.2 =
                 cl_uint (kr_nitems kresults + foldr Z.add 0 (counts_of wg))).
  { rewrite ExecFacts.reserve_buffer.
    pose proof (ExecFacts.total_of_range _ gpuhashjoin_execute kparams kmhash
                  kds ktoast krowmap wg) as Hr.
    rewrite total_of_wrap in *.
    destruct (Z.ltb_spec 0 (cl_uint (foldr Z.add 0 (counts_of wg)))).
    - simpl. apply cl_uint_add_r.
    - rewrite <- cl_uint_add_r.
      replace (cl_uint (foldr Z.add 0 (counts_of wg))) with 0 by lia.
      rewrite Z.add_0_r, cl_uint_small by exact Hit. reflexivity. }
  destruct (Z.lt_decidable (kr_nrooms kresults)
              (cl_uint ((reserve kresults (total_of wg)).1.1 + total_of wg)))
    as [Hover|Hfit].
  - rewrite (ExecFacts.main_group_no_space _ _ _ _ _ _ _ wg kresults Hm Hover).
    simpl. exact Hres.
  - destruct (ExecFacts.main_group_within_capacity _ gpuhashjoin_execute
                kparams _ kds ktoast krowmap wg kresults Hm Hfit)
      as (-> & _).
    exact Hres.
Qed.

Lemma main_group_keeps_match wg kresults :
  nrels_mismatch kmhash (g_kresults (main_group wg kresults)) =
  nrels_mismatch kmhash kresults.
Proof.
  unfold nrels_mismatch.
  destruct (main_group_frame wg kresults) as [-> _]. reflexivity.
Qed.

Lemma main_launch_counter groups kresults trace :
  0 <= kr_nitems kresults < 2 ^ 32 ->
  nrels_mismatch kmhash kresults = false ->
  kr_nitems
    (foldl (fun acc wg =>
              let out := main_group wg acc.1 in
              (g_kresults out, acc.2 ++ g_trace out))
           (kresults, trace) groups).1 =
  cl_uint (kr_nitems kresults + foldr Z.add 0 (counts_of (concat groups))).
Proof.
  revert kresults trace.
  induction groups as [|wg gs IH]; intros kresults trace Hit Hm; simpl.
  - rewrite Z.add_0_r, cl_uint_small by exact Hit. reflexivity.
  - rewrite IH.
    + rewrite (main_group_counter wg kresults Hit Hm), counts_of_app.
      rewrite cl_uint_add_l. f_equal. lia.
    + rewrite (main_group_counter wg kresults Hit Hm). apply cl_uint_range.
    + rewrite main_group_keeps_match. exact Hm.
Qed.

Lemma main_launch_frame groups kresults trace :
  let final :=
    (foldl (fun acc wg =>
              let out := main_group wg acc.1 in
              (g_kresults out, acc.2 ++ g_trace out))
           (kresults, trace) groups).1 in
  kr_nrels final = kr_nrels kresults /\ kr_nrooms final = kr_nrooms kresults.
Proof.
  revert kresults trace.
  induction groups as [|wg gs IH]; intros kresults trace; simpl.
  - split; reflexivity.
  - destruct (IH (g_kresults (main_group wg kresults))
                 (trace ++ g_trace (main_group wg kresults))) as [H1 H2].
    destruct (main_group_frame wg kresults) as [H3 H4].
    cbv zeta in H1, H2. rewrite H1, H2, H3, H4. split; reflexivity.
Qed.

(** X9.  A launch never writes [nrels] or [nrooms].  When [nrels] matches the
    hash tables, [kresults->nitems] ends as its value on entry plus the
    number of matches all work-items counted, reduced modulo 2^32,
    whether or not a group ran out of room: a group that reports
    [StromError_DataStoreNoSpace] has still added its matches, so the
    counter tells how many rooms the join needs. *)
Theorem launch_counts_every_match (groups : list (list Z))
        (kresults : kern_resultbuf) :
  kr_wf kresults ->
  kr_nrels (main groups kresults).1 = kr_nrels kresults /\
  kr_nrooms (main groups kresults).1 = kr_nrooms kresults /\
  (kr_nrels kresults = cl_uint (ntables kmhash + 1) ->
   kr_nitems (main groups kresults).1 =
   cl_uint (kr_nitems kresults +
            foldr Z.add 0 (counts_of (concat groups))) /\
   (kr_nitems kresults + foldr Z.add 0 (counts_of (concat groups)) < 2 ^ 32 ->
    kr_nitems (main groups kresults).1 =
    kr_nitems kresults + foldr Z.add 0 (counts_of (concat groups)))).
Proof.
  intros (Hrels & Hrooms & Hitems).
  destruct (main_launch_frame groups kresults []) as [H1 H2].
  split; [exact H1|]. split; [exact H2|].
  intros Heq.
  assert (Hm : nrels_mismatch kmhash kresults = false).
  { unfold nrels_mismatch. rewrite Heq, Z.eqb_refl. reflexivity. }
  assert (Hc : kr_nitems (main groups kresults).1 =
               cl_uint (kr_nitems kresults +
                        foldr Z.add 0 (counts_of (concat groups)))).
  { apply (main_launch_counter groups kresults [] Hitems Hm). }
  split; [exact Hc|].
  intros Hsmall. rewrite Hc. apply cl_uint_small.
  pose proof (ExecFacts.counts_of_nonneg _ gpuhashjoin_execute kparams kmhash
                kds ktoast krowmap (concat groups)).
  lia.
Qed.

Lemma zip_offsets {B} (f : Z -> worker -> B) acc wg :
  0 <= acc ->
  acc + foldr Z.add 0 (counts_of wg) < 2 ^ 32 ->
  zip_with f
    (stairlike_offsets acc (w_n_matches <$> (fst <$> (count <$> wg))))
    (fst <$> (count <$> wg)) =
  imap (fun i gid =>
          f (acc + foldr Z.add 0 (counts_of (take i wg))) (count gid).1) wg.
Proof.
  revert acc. induction wg as [|gid wg IH]; intros acc Hacc Hsum.
  - reflexivity.
  - pose proof (ExecFacts.count_stage_matches_range _ gpuhashjoin_execute
                  kparams kmhash kds ktoast krowmap gid) as Hn.
    pose proof (ExecFacts.counts_of_nonneg _ gpuhashjoin_execute kparams
                  kmhash kds ktoast krowmap wg) as Hrest.
    change (counts_of (gid :: wg))
      with (w_n_matches (count gid).1 :: counts_of wg) in Hsum.
    simpl in Hsum. rewrite imap_cons. csimpl. f_equal.
    + rewrite Z.add_0_r. reflexivity.
    + rewrite cl_uint_small by lia. rewrite IH by lia.
      apply imap_ext. intros i g _. simpl. f_equal. lia.
Qed.

Lemma emit_stage_in_range kresults kr1 base off gid :
  kr_nrels kr1 = kr_nrels kresults ->
  0 <= kr_nrels kresults ->
  kr_nrooms kresults < 2 ^ 32 ->
  kr_nrels kresults * kr_nrooms kresults < 2 ^ 32 ->
  contract (kr_nrels kresults) ->
  0 <= base -> 0 <= off ->
  base + off + w_n_matches (count gid).1 <= kr_nrooms kresults ->
  Forall (in_reservation (kr_nrels kresults) (base + off)
                         (w_n_matches (count gid).1) gid)
         (emit kr1 base off (count gid).1).2.
Proof.
  intros Hrels Hpos Hlim Hsize Hprobe Hbase Hoff Hfit.
  pose proof (ExecFacts.count_stage_matches_range _ gpuhashjoin_execute
                kparams kmhash kds ktoast krowmap gid) as Hn.
  assert (Hmul : kr_nrels kresults * (base + off) <=
                 kr_nrels kresults * kr_nrooms kresults) by nia.
  assert (Hsmall : 0 <= base + off < 2 ^ 32) by lia.
  assert (Hrb : cl_uint (kr_nrels kr1 * cl_uint (base + off)) =
                kr_nrels kresults * (base + off)).
  { rewrite Hrels, (cl_uint_small (base + off)) by exact Hsmall.
    apply cl_uint_small. nia. }
  unfold emit_stage.
  destruct (Z.ltb_spec 0 (w_n_matches (count gid).1)) as [Hgt|];
    simpl; [|constructor].
  destruct (Z.ltb_spec (w_kds_index (count gid).1) (kds_nitems kds))
    as [Hin|]; simpl; [|constructor].
  rewrite Hrb. constructor.
  - simpl. split; [|reflexivity].
    apply (ExecFacts.count_stage_worker _ gpuhashjoin_execute kparams kmhash
             kds ktoast krowmap gid).
  - apply Forall_fmap.
    eapply List.Forall_impl; [|apply (Hprobe _ _ _ Hin)].
    intros [o v]. simpl.
    rewrite <- (ExecFacts.count_stage_matches _ gpuhashjoin_execute kparams
                  kmhash kds ktoast krowmap gid Hin).
    intros Ho. nia.
Qed.

(** X10.  A group that fits: with a probe that keeps to the matches it
    counted and [results] smaller than 2^32 entries, the trace of the
    group is its counting calls, one [atomic_add] of the group's total,
    and the second stage of its work-items in the order of their local
    ids.  The reservations are packed back to back from the counter's
    value on entry: the one of the first work-item starts there, each
    starts where the one before it ends, the last ends at the counter's
    new value, and a work-item emits at the start of its own reservation
    and stores nowhere outside it, so no two work-items store to the same
    entry. *)
Theorem reservations_packed (wg : list Z) (kresults : kern_resultbuf) :
  kr_wf kresults ->
  kr_nrels kresults = cl_uint (ntables kmhash + 1) ->
  contract (kr_nrels kresults) ->
  kr_nrels kresults * kr_nrooms kresults < 2 ^ 32 ->
  0 < foldr Z.add 0 (counts_of wg) ->
  kr_nitems kresults + foldr Z.add 0 (counts_of wg) <= kr_nrooms kresults ->
  let total := foldr Z.add 0 (counts_of wg) in
  let base := kr_nitems kresults in
  let offset := fun i => foldr Z.add 0 (counts_of (take i wg)) in
  let second_stage := fun i gid =>
    (emit (kr_set_nitems (base + total) kresults) base (offset i)
          (count gid).1).2 in
  g_trace (main_group wg kresults) =
  concat (snd <$> (count <$> wg)) ++ [EvAtomicAdd total] ++
  concat (imap second_stage wg) /\
  kr_nitems (g_kresults (main_group wg kresults)) = base + total /\
  offset O = 0 /\
  offset (length wg) = total /\
  (forall i gid,
     wg !! i = Some gid ->
     offset (S i) = offset i + w_n_matches (count gid).1 /\
     Forall (in_reservation (kr_nrels kresults) (base + offset i)
                            (w_n_matches (count gid).1) gid)
            (second_stage i gid)).
Proof.
  intros (Hrels & Hrooms & Hitems) Heq Hprobe Hsize Hpos Hfit.
  cbv zeta.
  assert (Hm : nrels_mismatch kmhash kresults = false).
  { unfold nrels_mismatch. rewrite Heq, Z.eqb_refl. reflexivity. }
  assert (Htot : total_of wg = foldr Z.add 0 (counts_of wg)).
  { apply ExecFacts.total_of_exact. lia. }
  assert (Hb : (0 <? foldr Z.add 0 (counts_of wg)) = true)
    by (apply Z.ltb_lt; exact Hpos).
  assert (Hwrap : cl_uint (kr_nitems kresults + foldr Z.add 0 (counts_of wg))
                  = kr_nitems kresults + foldr Z.add 0 (counts_of wg))
    by (apply cl_uint_small; lia).
  repeat apply conj.
  - unfold kern_gpuhashjoin_main_group. rewrite Hm. cbv zeta.
    rewrite (ExecFacts.scan_total _ gpuhashjoin_execute kparams kmhash kds
               ktoast krowmap wg), Htot.
    unfold reserve. rewrite Hb. cbn [fst snd kr_set_nitems kr_nrooms].
    rewrite Hwrap.
    destruct (Z.ltb_spec (kr_nrooms kresults)
                (kr_nitems kresults + foldr Z.add 0 (counts_of wg)));
      [lia|].
    cbn [g_trace]. unfold arithmetic_stairlike_add. cbn [fst].
    rewrite zip_offsets by lia. rewrite fmap_imap. reflexivity.
  - rewrite (main_group_counter wg kresults Hitems Hm). exact Hwrap.
  - reflexivity.
  - rewrite take_ge by lia. reflexivity.
  - intros i gid Hi. split.
    + rewrite (take_S_r _ _ _ Hi), counts_of_app. simpl. lia.
    + pose proof (take_drop_middle _ _ _ Hi) as Hsplit.
      assert (Hsum : foldr Z.add 0 (counts_of wg) =
                     foldr Z.add 0 (counts_of (take i wg)) +
                     (w_n_matches (count gid).1 +
                      foldr Z.add 0 (counts_of (drop (S i) wg)))).
      { rewrite <- Hsplit at 1. rewrite counts_of_app. reflexivity. }
      pose proof (ExecFacts.counts_of_nonneg _ gpuhashjoin_execute kparams
                    kmhash kds ktoast krowmap (take i wg)).
      pose proof (ExecFacts.counts_of_nonneg _ gpuhashjoin_execute kparams
                    kmhash kds ktoast krowmap (drop (S i) wg)).
      apply (emit_stage_in_range kresults); try assumption; try lia.
      reflexivity.
Qed.

Lemma foldr_add_perm (l l' : list Z) :
  l ≡ₚ l' -> foldr Z.add 0 l = foldr Z.add 0 l'.
Proof.
  induction 1 as [|x l l' _ IH|x y l|l l' l'' _ IH1 _ IH2]; simpl;
    [reflexivity | lia | lia | congruence].
Qed.

(** X11.  The item counter after a launch depends on the work-items that ran
    and on nothing else: two launches over the same work-items, split
    into work-groups in any way and with the work-groups run in any
    order, leave the same [kresults->nitems] (the positions of the
    reservations, and the error code, may differ). *)
Theorem counter_schedule_independent (groups groups' : list (list Z))
        (kresults : kern_resultbuf) :
  kr_wf kresults ->
  kr_nrels kresults = cl_uint (ntables kmhash + 1) ->
  concat groups ≡ₚ concat groups' ->
  kr_nitems (main groups kresults).1 = kr_nitems (main groups' kresults).1.
Proof.
  intros (_ & _ & Hit) Hrels Hperm.
  assert (Hm : nrels_mismatch kmhash kresults = false).
  { unfold nrels_mismatch. rewrite Hrels, Z.eqb_refl. reflexivity. }
  assert (Hc : forall gs,
             kr_nitems (main gs kresults).1 =
             cl_uint (kr_nitems kresults +
                      foldr Z.add 0 (counts_of (concat gs)))).
  { intros gs. apply (main_launch_counter gs kresults [] Hit Hm). }
  rewrite !Hc. do 2 f_equal. apply foldr_add_perm.
  unfold group_counts. apply fmap_Permutation. exact Hperm.
Qed.

Lemma stairlike_total_zero counts :
  Forall (fun n => n = 0) counts -> stairlike_total counts = 0.
Proof.
  unfold stairlike_total. induction 1 as [|n counts -> _ IH]; [reflexivity|].
  exact IH.
Qed.

Lemma emit_stage_skipped kresults base acc ws :
  Forall (fun w => w_n_matches w = 0) ws ->
  zip_with (emit kresults base)
           (stairlike_offsets acc (w_n_matches <$> ws)) ws =
  (fun w => (w_errcode w, [])) <$> ws.
Proof.
  intros Hz. revert acc. induction Hz as [|w ws Hw _ IH]; intros acc.
  - reflexivity.
  - csimpl. rewrite IH. f_equal.
    unfold emit_stage. rewrite Hw. reflexivity.
Qed.

Lemma concat_no_events {A} (ws : list A) (f : A -> StromError) :
  concat (snd <$> ((fun w => (f w, @nil event)) <$> ws)) = [].
Proof. induction ws as [|w ws IH]; [reflexivity | exact IH]. Qed.

Lemma Forall_concat_imap {A B} (P : B -> Prop) (f : nat -> A -> list B)
      (l : list A) :
  (forall i x, l !! i = Some x -> Forall P (f i x)) ->
  Forall P (concat (imap f l)).
Proof.
  revert f. induction l as [|a l IH]; intros f Hf; [constructor|].
  rewrite imap_cons. cbn [concat]. apply Forall_app. split.
  - apply (Hf 0%nat). reflexivity.
  - apply IH. intros i x Hi. apply (Hf (S i)). exact Hi.
Qed.

(** The stores of a work-group, whatever its outcome, land between the
    counter's value on entry and that value plus the group's matches. *)
Lemma main_group_window wg kresults :
  kr_wf kresults ->
  nrels_mismatch kmhash kresults = false ->
  contract (kr_nrels kresults) ->
  kr_nrels kresults * kr_nrooms kresults < 2 ^ 32 ->
  kr_nitems kresults + foldr Z.add 0 (counts_of wg) < 2 ^ 32 ->
  Forall (store_in_window (kr_nrels kresults) (kr_nitems kresults)
                          (foldr Z.add 0 (counts_of wg)))
         (g_trace (main_group wg kresults)).
Proof.
  intros (Hrels & Hrooms & Hitems) Hm Hprobe Hsize Hsum.
  pose proof (ExecFacts.counts_of_nonneg _ gpuhashjoin_execute kparams
                kmhash kds ktoast krowmap wg) as Hnn.
  assert (Htot : total_of wg = foldr Z.add 0 (counts_of wg)).
  { apply ExecFacts.total_of_exact. lia. }
  assert (Hcounted : Forall (store_in_window (kr_nrels kresults)
                               (kr_nitems kresults)
                               (foldr Z.add 0 (counts_of wg)))
                            (concat (snd <$> (count <$> wg)))).
  { eapply List.Forall_impl;
      [|apply (ExecFacts.counted_events _ gpuhashjoin_execute kparams kmhash
                 kds ktoast krowmap wg)].
    intros [g idx rb|delta|idx v]; simpl; tauto. }
  assert (Hres : Forall (store_in_window (kr_nrels kresults)
                           (kr_nitems kresults)
                           (foldr Z.add 0 (counts_of wg)))
                        (reserve kresults (foldr Z.add 0 (counts_of wg))).2).
  { unfold reserve. destruct (0 <? _); repeat constructor. }
  unfold kern_gpuhashjoin_main_group. rewrite Hm. cbv zeta.
  rewrite (ExecFacts.scan_total _ gpuhashjoin_execute kparams kmhash kds
             ktoast krowmap wg), Htot.
  destruct (ExecFacts.reserve_frame kresults (foldr Z.add 0 (counts_of wg)))
    as (Hfr_rooms & Hfr_rels & _).
  pose proof (ExecFacts.reserve_base kresults (foldr Z.add 0 (counts_of wg)))
    as Hbase.
  set (reserved := reserve kresults (foldr Z.add 0 (counts_of wg))) in *.
  assert (Hb : 0 <= reserved.1.1 /\
               reserved.1.1 + foldr Z.add 0 (counts_of wg) < 2 ^ 32 /\
               (reserved.1.1 = kr_nitems kresults \/
                reserved.1.1 = 0 /\ foldr Z.add 0 (counts_of wg) = 0)).
  { rewrite Hbase.
    destruct (Z.ltb_spec 0 (foldr Z.add 0 (counts_of wg))); lia. }
  destruct Hb as (Hb0 & Hb1 & Hb2).
  rewrite (cl_uint_small (reserved.1.1 + _)) by lia.
  rewrite Hfr_rooms.
  destruct (Z.ltb_spec (kr_nrooms kresults)
              (reserved.1.1 + foldr Z.add 0 (counts_of wg))) as [_|Hfit];
    cbn [g_trace].
  - apply Forall_app. split; [exact Hcounted | exact Hres].
  - apply Forall_app. split; [exact Hcounted|].
    apply Forall_app. split; [exact Hres|].
    unfold arithmetic_stairlike_add. cbn [fst].
    rewrite zip_offsets by lia. rewrite fmap_imap.
    apply Forall_concat_imap. intros i gid Hi. cbn.
    pose proof (take_drop_middle _ _ _ Hi) as Hsplit.
    assert (Hparts : foldr Z.add 0 (counts_of wg) =
                     foldr Z.add 0 (counts_of (take i wg)) +
                     (w_n_matches (count gid).1 +
                      foldr Z.add 0 (counts_of (drop (S i) wg)))).
    { rewrite <- Hsplit at 1. rewrite counts_of_app. reflexivity. }
    pose proof (ExecFacts.counts_of_nonneg _ gpuhashjoin_execute kparams
                  kmhash kds ktoast krowmap (take i wg)) as Hpre.
    pose proof (ExecFacts.counts_of_nonneg _ gpuhashjoin_execute kparams
                  kmhash kds ktoast krowmap (drop (S i) wg)) as Hpost.
    pose proof (ExecFacts.count_stage_matches_range _ gpuhashjoin_execute
                  kparams kmhash kds ktoast krowmap gid) as Hn.
    eapply List.Forall_impl;
      [|apply (emit_stage_in_range kresults reserved.1.2 reserved.1.1
                 (0 + foldr Z.add 0 (counts_of (take i wg))) gid);
        try assumption; lia].
    intros [g idx rb|delta|idx v]; simpl; [tauto | tauto |].
    intros Hin. destruct Hb2 as [Heq|[Heq Hzero]].
    + rewrite Heq in Hin. nia.
    + exfalso. rewrite Heq in Hin.
      assert (Hempty : 0 + foldr Z.add 0 (counts_of (take i wg)) = 0 /\
                       w_n_matches (count gid).1 = 0) by lia.
      destruct Hempty as [E1 E2]. rewrite E1, E2 in Hin. lia.
Qed.

(** X12.  Every work-group of a launch stores into a window of its
    own.  With a probe that keeps to the matches it counted, a result
    array of less than 2^32 entries and a counter that does not wrap: the
    work-group that runs after the groups [before] starts from the
    counter [nitems + matches of before], leaves it advanced by its own
    matches, and every store it makes, whether it ends with
    [StromError_DataStoreNoSpace] or not, lands in the [nrels]-wide
    entries between these two values; the windows of successive
    work-groups are therefore consecutive and disjoint. *)
Theorem launch_group_windows (before : list (list Z)) (wg : list Z)
        (kresults : kern_resultbuf) :
  kr_wf kresults ->
  kr_nrels kresults = cl_uint (ntables kmhash + 1) ->
  contract (kr_nrels kresults) ->
  kr_nrels kresults * kr_nrooms kresults < 2 ^ 32 ->
  kr_nitems kresults + foldr Z.add 0 (counts_of (concat before)) +
  foldr Z.add 0 (counts_of wg) < 2 ^ 32 ->
  let entry := (main before kresults).1 in
  let out := main_group wg entry in
  main (before ++ [wg]) kresults =
  (g_kresults out, (main before kresults).2 ++ g_trace out) /\
  kr_nitems entry =
  kr_nitems kresults + foldr Z.add 0 (counts_of (concat before)) /\
  kr_nitems (g_kresults out) =
  kr_nitems entry + foldr Z.add 0 (counts_of wg) /\
  Forall (store_in_window (kr_nrels kresults) (kr_nitems entry)
                          (foldr Z.add 0 (counts_of wg)))
         (g_trace out).
Proof.
  intros Hwf Heq Hprobe Hsize Hsum. cbv zeta.
  destruct Hwf as (Hrels & Hrooms & Hitems).
  pose proof (ExecFacts.counts_of_nonneg _ gpuhashjoin_execute kparams
                kmhash kds ktoast krowmap (concat before)) as Hpre.
  pose proof (ExecFacts.counts_of_nonneg _ gpuhashjoin_execute kparams
                kmhash kds ktoast krowmap wg) as Hown.
  assert (Hm : nrels_mismatch kmhash kresults = false).
  { unfold nrels_mismatch. rewrite Heq, Z.eqb_refl. reflexivity. }
  assert (Hentry : kr_nitems (main before kresults).1 =
                   kr_nitems kresults +
                   foldr Z.add 0 (counts_of (concat before))).
  { etransitivity; [apply (main_launch_counter before kresults [] Hitems Hm)|].
    apply cl_uint_small. lia. }
  destruct (main_launch_frame before kresults []) as [Hfr_rels Hfr_rooms].
  cbv zeta in Hfr_rels, Hfr_rooms.
  change (foldl _ (kresults, []) before) with (main before kresults)
    in Hfr_rels, Hfr_rooms.
  assert (Hm' : nrels_mismatch kmhash (main before kresults).1 = false).
  { unfold nrels_mismatch. rewrite Hfr_rels, Heq, Z.eqb_refl. reflexivity. }
  split; [|split; [exact Hentry|split]].
  - unfold kern_gpuhashjoin_main. rewrite foldl_app. reflexivity.
  - rewrite (main_group_counter wg _) by (rewrite ?Hentry; lia || exact Hm').
    apply cl_uint_small. rewrite Hentry. lia.
  - rewrite <- Hfr_rels. apply main_group_window.
    + unfold kr_wf. rewrite Hfr_rels, Hfr_rooms, Hentry. lia.
    + exact Hm'.
    + rewrite Hfr_rels. exact Hprobe.
    + rewrite Hfr_rels, Hfr_rooms. exact Hsize.
    + rewrite Hentry. lia.
Qed.

(** X13.  A work-group none of whose work-items counted a match, with a
    result buffer of the right width: the leader makes no atomic add and
    takes 0 as the base, so the capacity check passes whatever the item
    counter holds (also when earlier work-groups have pushed it past
    [nrooms]); the second stage calls nothing and stores nothing.  The
    trace holds the counting calls only, every work-item leaves with the
    code its counting call left (success when it made none), never with
    [DataStoreNoSpace] of its own, and the item counter and the result
    slots are as on entry. *)
Theorem group_without_match (wg : list Z) (kresults : kern_resultbuf) :
  nrels_mismatch kmhash kresults = false ->
  0 <= kr_nrooms kresults ->
  Forall (fun gid => w_n_matches (count gid).1 = 0) wg ->
  let out := main_group wg kresults in
  g_trace out = concat (snd <$> (count <$> wg)) /\
  Forall (counting_call kds krowmap) (g_trace out) /\
  g_errcodes out = (fun gid => w_errcode (count gid).1) <$> wg /\
  kr_nitems (g_kresults out) = kr_nitems kresults /\
  kr_results (g_kresults out) = kr_results kresults.
Proof.
  intros Hm Hrooms Hzero.
  assert (Hws : Forall (fun w => w_n_matches w = 0) (fst <$> (count <$> wg))).
  { rewrite <- list_fmap_compose. apply Forall_fmap.
    eapply List.Forall_impl; [|exact Hzero]. intros gid H. exact H. }
  assert (Htot : stairlike_total (w_n_matches <$> (fst <$> (count <$> wg)))
                 = 0).
  { apply stairlike_total_zero. apply Forall_fmap.
    eapply List.Forall_impl; [|exact Hws]. intros w H. exact H. }
  cbv zeta. unfold kern_gpuhashjoin_main_group. rewrite Hm. cbv zeta.
  unfold arithmetic_stairlike_add. cbn [fst snd]. rewrite Htot.
  unfold reserve. cbn [Z.ltb Z.compare fst snd app].
  change (cl_uint (0 + 0)) with 0.
  destruct (Z.ltb_spec (kr_nrooms kresults) 0) as [Hlt|_]; [lia|].
  rewrite emit_stage_skipped by exact Hws.
  rewrite concat_no_events, app_nil_r.
  cbn [g_trace g_errcodes g_kresults].
  split; [reflexivity|].
  split.
  { apply (ExecFacts.counted_events _ gpuhashjoin_execute kparams kmhash
             kds ktoast krowmap wg). }
  split.
  { rewrite <- !list_fmap_compose. reflexivity. }
  split; reflexivity.
Qed.

End Facts.

Lemma launch_counts_every_match_witness :
  kr_nitems (sample_main [[0; 1]; [2; 3]] (sample_results 2 5)).1 = 6 /\
  kr_errcode (sample_main [[0; 1]; [2; 3]] (sample_results 2 5)).1 =
  StromError_DataStoreNoSpace.
Proof.
  destruct (launch_counts_every_match unit sample_probe tt sample_multihash
              sample_outer sample_outer None [[0; 1]; [2; 3]]
              (sample_results 2 5))
    as (_ & _ & Hcount).
  - vm_compute. intuition discriminate.
  - destruct (Hcount eq_refl) as [Hwrap _].
    split; [exact Hwrap | reflexivity].
Defined.

Lemma counter_schedule_independent_witness :
  kr_nitems (sample_main [[0; 1]; [2; 3]] (sample_results 2 8)).1 =
  kr_nitems (sample_main [[2]; [3; 0; 1]] (sample_results 2 8)).1.
Proof.
  apply (counter_schedule_independent unit sample_probe tt sample_multihash
           sample_outer sample_outer None
           [[0; 1]; [2; 3]] [[2]; [3; 0; 1]] (sample_results 2 8)).
  - vm_compute. intuition discriminate.
  - reflexivity.
  - apply (Permutation_app_comm [0; 1] [2; 3]).
Defined.

Lemma launch_group_windows_witness :
  kr_nitems (sample_main [[0; 1]] (sample_results 2 8)).1 = 3 /\
  Forall (store_in_window 2 3 3)
         (g_trace (sample_main_group [2; 3]
                     (sample_main [[0; 1]] (sample_results 2 8)).1)).
Proof.
  destruct (launch_group_windows unit sample_probe tt sample_multihash
              sample_outer sample_outer None [[0; 1]] [2; 3]
              (sample_results 2 8))
    as (_ & Hentry & _ & Hwindow).
  - vm_compute. intuition discriminate.
  - reflexivity.
  - exact ExecFacts.sample_probe_contract.
  - vm_compute. reflexivity.
  - vm_compute. reflexivity.
  - split; [etransitivity; [exact Hentry | reflexivity] | exact Hwindow].
Defined.

Lemma group_without_match_witness :
  g_errcodes (sample_main_group [3; 4]
                (sample_main [[0; 1; 2]] (sample_results 2 5)).1) =
  [StromError_Success; StromError_Success] /\
  kr_nitems (g_kresults (sample_main_group [3; 4]
                (sample_main [[0; 1; 2]] (sample_results 2 5)).1)) = 6.
Proof.
  destruct (group_without_match unit sample_probe tt sample_multihash
              sample_outer sample_outer None [3; 4]
              (sample_main [[0; 1; 2]] (sample_results 2 5)).1)
    as (_ & _ & Hcodes & Hitems & _).
  - vm_compute. reflexivity.
  - vm_compute. discriminate.
  - repeat constructor.
  - split.
    + etransitivity; [exact Hcodes | reflexivity].
    + etransitivity; [exact Hitems | reflexivity].
Defined.

Lemma reservations_packed_witness :
  g_trace (sample_main_group [0; 1; 2; 3] (sample_results 2 6)) =
  [EvExecute 0 0 None; EvExecute 1 1 None; EvExecute 2 2 None;
   EvAtomicAdd 6;
   EvExecute 0 0 (Some 0); EvStore 0 1; EvStore 1 64;
   EvExecute 1 1 (Some 2); EvStore 2 2; EvStore 3 64;
   EvStore 4 2; EvStore 5 128;
   EvExecute 2 2 (Some 6); EvStore 6 3; EvStore 7 64;
   EvStore 8 3; EvStore 9 128; EvStore 10 3; EvStore 11 192].
Proof.
  destruct (reservations_packed unit sample_probe tt sample_multihash
              sample_outer sample_outer None [0; 1; 2; 3]
              (sample_results 2 6)) as (Htrace & _).
  - vm_compute. intuition discriminate.
  - reflexivity.
  - exact ExecFacts.sample_probe_contract.
  - vm_compute. reflexivity.
  - vm_compute. reflexivity.
  - vm_compute. discriminate.
  - etransitivity; [exact Htrace | reflexivity].
Defined.

End ExecCounterFacts.

(** ** The slot kernel: which rows it writes *)

Module SlotRowsFacts.

Import Projection LaunchFacts ProjectionFacts Samples.

Lemma same_outside_slots_refl d : same_outside_slots d d.
Proof. repeat split. Qed.

Lemma same_outside_slots_trans d1 d2 d3 :
  same_outside_slots d1 d2 -> same_outside_slots d2 d3 ->
  same_outside_slots d1 d3.
Proof.
  unfold same_outside_slots. intros H1 H2.
  repeat match goal with H : _ /\ _ |- _ => destruct H end.
  repeat split; congruence.
Qed.

Lemma same_rows_refl keep d : same_rows keep d d.
Proof. intros row col _. split; reflexivity. Qed.

Lemma same_rows_trans keep d1 d2 d3 :
  same_rows keep d1 d2 -> same_rows keep d2 d3 -> same_rows keep d1 d3.
Proof.
  intros H1 H2 row col Hk.
  destruct (H1 row col Hk) as [A1 A2], (H2 row col Hk) as [B1 B2].
  split; congruence.
Qed.

Lemma same_rows_weaken (keep keep' : Z -> Prop) d d' :
  (forall row, keep' row -> keep row) ->
  same_rows keep d d' -> same_rows keep' d d'.
Proof. intros Hk H row col Hr. apply H. apply Hk. exact Hr. Qed.

(** *** Statements that keep a relation *)

Section Keeps.

Context (R : pstate -> pstate -> Prop) `{!Reflexive R} `{!Transitive R}.

Lemma keeps_ret {A} (a : A) : keeps R (ret a).
Proof. intros st. reflexivity. Qed.

Lemma keeps_goto_out : keeps R goto_out.
Proof. intros st. reflexivity. Qed.

Lemma keeps_read_dest : keeps R read_dest.
Proof. intros st. reflexivity. Qed.

Lemma keeps_bind {A B} (c : kstep A) (k : A -> kstep B) :
  keeps R c -> (forall a, keeps R (k a)) -> keeps R (bind c k).
Proof.
  intros Hc Hk st. unfold bind. specialize (Hc st).
  destruct (c st) as [[a|] st']; cbn [snd] in *.
  - etransitivity; [exact Hc | apply Hk].
  - exact Hc.
Qed.

Lemma keeps_when (b : bool) (c : kstep unit) :
  (b = true -> keeps R c) -> keeps R (when_ b c).
Proof.
  destruct b; intros Hc; [apply Hc; reflexivity | apply keeps_ret].
Qed.

(** [if (b) goto out;] before [k]: [k] runs only when [b] is false. *)
Lemma keeps_guard {B} (b : bool) (k : kstep B) :
  (b = false -> keeps R k) -> keeps R (when_ b goto_out ;;; k).
Proof.
  destruct b; intros Hk st.
  - reflexivity.
  - apply (Hk eq_refl st).
Qed.

End Keeps.

(** *** What a work-item of the slot kernel does *)

(** Apply a rule of the section above; the relation is read off the
    goal and its reflexivity and transitivity are found as instances. *)
Local Ltac by_rule rule := apply rule; try typeclasses eauto.

#[local] Instance slot_worker_effect_refl n gid :
  Reflexive (slot_worker_effect n gid).
Proof.
  intros st.
  split; [exists []; rewrite app_nil_r; split; [reflexivity|constructor]|].
  split; [apply same_outside_slots_refl | apply same_rows_refl].
Qed.

#[local] Instance slot_worker_effect_trans n gid :
  Transitive (slot_worker_effect n gid).
Proof.
  intros st1 st2 st3 ((ws1 & W1 & F1) & O1 & R1) ((ws2 & W2 & F2) & O2 & R2).
  split; [|split].
  - exists (ws1 ++ ws2). rewrite W2, W1, app_assoc. split; [reflexivity|].
    apply Forall_app. split; assumption.
  - eapply same_outside_slots_trans; eassumption.
  - eapply same_rows_trans; eassumption.
Qed.

Lemma keeps_set_error n gid e : keeps (slot_worker_effect n gid) (set_error e).
Proof.
  intros st. cbn.
  split; [exists []; rewrite app_nil_r; split; [reflexivity|constructor]|].
  split; [apply same_outside_slots_refl | apply same_rows_refl].
Qed.

Lemma keeps_write_nitems n :
  keeps (slot_worker_effect n 0) (write_nitems 0 n).
Proof.
  intros st. cbn. split; [|split].
  - eexists. split; [reflexivity|]. repeat constructor.
  - repeat split.
  - intros row col _. split; reflexivity.
Qed.

Lemma write_slot_effect n gid s st :
  gid < n -> slot_worker_effect n gid st (write_slot gid s st).
Proof.
  intros Hlt. unfold write_slot. split; [|split]; cbn.
  - eexists. split; [reflexivity|]. repeat constructor. exact Hlt.
  - repeat split.
  - intros row col Hrow. cbn.
    destruct (decide (row = gid /\ col = s.1.1)) as [[-> _]|_];
      [|split; reflexivity].
    exfalso. apply Hrow. split; [reflexivity | exact Hlt].
Qed.

Lemma write_slots_effect n gid stores st :
  gid < n ->
  slot_worker_effect n gid st
    (foldl (fun acc s => write_slot gid s acc) st stores).
Proof.
  intros Hlt. revert st. induction stores as [|s stores IH]; intros st.
  - reflexivity.
  - etransitivity; [apply (write_slot_effect n gid s st Hlt) | apply IH].
Qed.

Section Facts.

Variable kmhash : kern_multihash.
Variable kds : kern_data_store.
Variable kern_get_tuple_rs : kern_data_store -> Z -> option Z.
Variable kern_get_tuple_rsflat : kern_data_store -> Z -> option Z.
Variable slot_extract_tuple :
  StromError -> Z -> tuple_source -> option Z ->
  StromError * list (Z * Z * bool).

Abbreviation slot_kernel :=
  (kern_gpuhashjoin_projection_slot kmhash kds kern_get_tuple_rs
                                    kern_get_tuple_rsflat slot_extract_tuple).
Abbreviation slot_loop :=
  (slot_depth_loop kmhash kds kern_get_tuple_rs kern_get_tuple_rsflat
                   slot_extract_tuple).
Abbreviation slot_step :=
  (slot_depth kmhash kds kern_get_tuple_rs kern_get_tuple_rsflat
              slot_extract_tuple).

(** One depth: the new [errcode], then the stores into the row. *)
Lemma keeps_slot_step n kresults gid rbuffer depth :
  gid < n ->
  keeps (slot_worker_effect n gid) (slot_step kresults gid rbuffer depth).
Proof.
  intros Hlt st. unfold slot_depth. cbn [snd].
  etransitivity; [|apply write_slots_effect; exact Hlt].
  split; [exists []; cbn; rewrite app_nil_r; split;
          [reflexivity|constructor]|].
  split; [apply same_outside_slots_refl | apply same_rows_refl].
Qed.

Lemma keeps_slot_loop n kresults gid rbuffer iters depth :
  gid < n ->
  keeps (slot_worker_effect n gid)
        (slot_loop kresults gid rbuffer iters depth).
Proof.
  intros Hlt. revert depth. induction iters as [|iters IH]; intros depth.
  - by_rule @keeps_ret.
  - cbn [slot_depth_loop]. by_rule @keeps_bind.
    + apply keeps_slot_step. exact Hlt.
    + intros _. apply IH.
Qed.

(** The body of the kernel, statement by statement: the capacity test,
    the item count written by work-item 0, the guard that sends the
    work-items at or beyond [nitems] to [out], the format test and the
    loop over the depths. *)
Lemma slot_kernel_keeps kresults gid :
  keeps (slot_worker_effect (kr_nitems kresults) gid)
        (slot_kernel kresults gid).
Proof.
  assert (Hfail : forall b e,
             keeps (slot_worker_effect (kr_nitems kresults) gid)
                   (when_ b (set_error e ;;; goto_out))).
  { intros b e. by_rule @keeps_when. intros _. by_rule @keeps_bind.
    - apply keeps_set_error.
    - intros _. by_rule @keeps_goto_out. }
  unfold kern_gpuhashjoin_projection_slot. cbv zeta.
  by_rule @keeps_bind; [by_rule @keeps_read_dest|]. intros kds_dest.
  by_rule @keeps_bind; [apply Hfail|]. intros _.
  by_rule @keeps_bind.
  { by_rule @keeps_when. intros Hz. apply Z.eqb_eq in Hz. subst gid.
    apply keeps_write_nitems. }
  intros _. by_rule @keeps_guard. intros Hlt. apply Z.leb_gt in Hlt.
  by_rule @keeps_bind; [by_rule @keeps_read_dest|]. intros kds_dest'.
  by_rule @keeps_bind; [apply Hfail|]. intros _.
  apply keeps_slot_loop. exact Hlt.
Qed.

Lemma slot_worker_rows kresults gid d :
  let r := run_worker (slot_kernel kresults) gid d in
  Forall (slot_write_ok (kr_nitems kresults) [gid]) r.2 /\
  same_outside_slots d r.1.2 /\
  same_rows (fun row => ~ (row = gid /\ row < kr_nitems kresults)) d r.1.2.
Proof.
  cbv zeta. unfold run_worker. cbn [fst snd].
  destruct (slot_kernel_keeps kresults gid
              {| p_errcode := StromError_Success; p_dest := d;
                 p_writes := [] |})
    as ((ws & Hw & Hws) & Ho & Hr).
  cbn [p_dest p_writes app] in Hw, Ho, Hr. rewrite Hw.
  split; [exact Hws|]. split; [exact Ho | exact Hr].
Qed.

Lemma slot_write_ok_mono n workers workers' w :
  (forall g, g ∈ workers -> g ∈ workers') ->
  slot_write_ok n workers w -> slot_write_ok n workers' w.
Proof.
  intros Hsub. destruct w as [g m|g col v null]; simpl; [tauto|].
  intros [Hg Hn]. split; [apply Hsub; exact Hg | exact Hn].
Qed.

Lemma slot_workers_rows kresults wg d :
  let r := run_workers (slot_kernel kresults) wg d in
  Forall (slot_write_ok (kr_nitems kresults) wg) r.2 /\
  same_outside_slots d r.1.2 /\
  same_rows (fun row => ~ (row ∈ wg /\ row < kr_nitems kresults)) d r.1.2.
Proof.
  revert d. induction wg as [|gid wg IH]; intros d.
  - split; [constructor|].
    split; [apply same_outside_slots_refl | apply same_rows_refl].
  - cbn [run_workers]. cbv zeta.
    destruct (slot_worker_rows kresults gid d) as (W1 & O1 & R1).
    destruct (IH (run_worker (slot_kernel kresults) gid d).1.2)
      as (W2 & O2 & R2).
    cbn [fst snd]. split; [|split].
    + apply Forall_app. split.
      * eapply List.Forall_impl; [|exact W1]. intros w.
        apply slot_write_ok_mono. intros g Hg.
        apply list_elem_of_singleton in Hg as ->. left.
      * eapply List.Forall_impl; [|exact W2]. intros w.
        apply slot_write_ok_mono. intros g Hg. right. exact Hg.
    + eapply same_outside_slots_trans; eassumption.
    + eapply same_rows_trans.
      * eapply same_rows_weaken; [|exact R1].
        intros row Hrow [-> Hlt]. apply Hrow. split; [left | exact Hlt].
      * eapply same_rows_weaken; [|exact R2].
        intros row Hrow [Hin Hlt]. apply Hrow.
        split; [right; exact Hin | exact Hlt].
Qed.

Lemma slot_kernel_rows groups ks :
  let n := kr_nitems (k_results ks) in
  let final := run_kernel slot_kernel groups ks in
  (exists ws, k_writes final = k_writes ks ++ ws /\
              Forall (slot_write_ok n (concat groups)) ws) /\
  same_outside_slots (k_dest ks) (k_dest final) /\
  same_rows (fun row => ~ (row ∈ concat groups /\ row < n))
            (k_dest ks) (k_dest final).
Proof.
  revert ks. induction groups as [|wg gs IH]; intros ks.
  - cbn. split; [exists []; rewrite app_nil_r; split;
                 [reflexivity|constructor]|].
    split; [apply same_outside_slots_refl | apply same_rows_refl].
  - change (run_kernel slot_kernel (wg :: gs) ks)
      with (run_kernel slot_kernel gs (run_group slot_kernel wg ks)).
    destruct (slot_workers_rows (k_results ks) wg (k_dest ks))
      as (W1 & O1 & R1).
    destruct (IH (run_group slot_kernel wg ks)) as ((ws & W2 & F2) & O2 & R2).
    cbv zeta in *. unfold run_group in *.
    cbn [k_results k_dest k_writes kern_writeback_error_status
         kr_set_errcode kr_nitems concat] in *.
    split; [|split].
    + eexists. rewrite W2, <- app_assoc. split; [reflexivity|].
      apply Forall_app. split.
      * eapply List.Forall_impl; [|exact W1]. intros w.
        apply slot_write_ok_mono. intros g Hg.
        apply elem_of_app. left. exact Hg.
      * eapply List.Forall_impl; [|exact F2]. intros w.
        apply slot_write_ok_mono. intros g Hg.
        apply elem_of_app. right. exact Hg.
    + eapply same_outside_slots_trans; eassumption.
    + eapply same_rows_trans.
      * eapply same_rows_weaken; [|exact R1].
        intros row Hrow [Hin Hlt]. apply Hrow.
        split; [apply elem_of_app; left; exact Hin | exact Hlt].
      * eapply same_rows_weaken; [|exact R2].
        intros row Hrow [Hin Hlt]. apply Hrow.
        split; [apply elem_of_app; right; exact Hin | exact Hlt].
Qed.

(** X14.  Any launch of the slot kernel, whatever the formats, the
    capacities and the stores the extraction of a tuple asks for (each
    goes through the slot arrays of the row of the calling work-item):
    every write is the item count, by work-item 0 and with the value of
    [kresults->nitems], or a slot of the row of a work-item whose global
    id is below [kresults->nitems]; the format, length, usage, column
    count and capacity of the destination, its row items and its arena
    are never written; and the slots of every row at or beyond
    [kresults->nitems], like those of rows no work-item stands for, hold
    what they held on entry. *)
Theorem slot_projection_rows (groups : list (list Z))
        (kresults : kern_resultbuf) (kds_dest : kern_data_store) :
  let final := run_kernel slot_kernel groups (launch kresults kds_dest) in
  Forall (slot_write_ok (kr_nitems kresults) (concat groups))
         (k_writes final) /\
  same_outside_slots kds_dest (k_dest final) /\
  same_rows (fun row => ~ (row ∈ concat groups /\ row < kr_nitems kresults))
            kds_dest (k_dest final).
Proof.
  destruct (slot_kernel_rows groups (launch kresults kds_dest))
    as ((ws & Hw & Hws) & Ho & Hrows).
  cbv zeta in *. cbn [launch k_results k_dest k_writes app] in *.
  rewrite Hw. split; [exact Hws|]. split; [exact Ho | exact Hrows].
Qed.

End Facts.

End SlotRowsFacts.
